(** * list_chunk_idfolder.py: resolution, chunking, manifests and the
      copy/move transactor

    A shallow embedding of [src/list_chunk_idfolder.py].  Python values are
    modelled as the program uses them: a [str] is a sequence of code points,
    an [int] is a [Z], a [list] is a [list], a [dict] is an association list
    in insertion order, and the file system is a tree of directories that the
    program reads and mutates through [pathlib], [shutil] and [open]. *)

From Stdlib Require Import String Ascii DecimalString.
From Stdlib Require Import List ZArith NArith Lia Bool.
Import ListNotations.

Set Implicit Arguments.
Set Warnings "-register-all".

(** ** Python values *)

Module Py.

(** A Python [str]: a sequence of Unicode code points. *)
Definition char := N.
Definition str := list char.

(** ASCII literals, to write examples readably. *)
Definition lit (s : string) : str :=
  map (fun a => N_of_ascii a) (list_ascii_of_string s).

Definition char_eqb (a b : char) : bool := N.eqb a b.

Fixpoint str_eqb (a b : str) : bool :=
  match a, b with
  | [], [] => true
  | x :: a', y :: b' => char_eqb x y && str_eqb a' b'
  | _, _ => false
  end.

Definition LF : char := 10%N.
Definition CR : char := 13%N.
Definition SLASH : char := 47%N.
Definition DOT : char := 46%N.
Definition QUOTE : char := 34%N.
Definition BACKSLASH : char := 92%N.

(** Exceptions the program raises itself or receives from the library calls
    it makes. *)
Inductive exn :=
| ValueError (msg : string)
| FileNotFoundError
| NotADirectoryError
| IsADirectoryError
| FileExistsError
| ShutilError
| OSError
| KeyError (k : list N).

Inductive result (A : Type) :=
| Ok (a : A)
| Raise (e : exn).
Arguments Ok {A} a.
Arguments Raise {A} e.

(** [len(items)] *)
Definition len {A} (l : list A) : Z := Z.of_nat (length l).

Local Open Scope Z_scope.

(** [range(start, stop, step)] for a positive step: the elements
    [start, start + step, ...] below [stop]; their number is
    [ceil((stop - start) / step)], or none when [stop <= start]. *)
Definition range (start stop step : Z) : list Z :=
  map (fun i => start + Z.of_nat i * step)
      (seq 0 (Z.to_nat ((stop - start + step - 1) / step))).

(** A slice bound as Python normalises it: a negative bound counts from the
    end, and every bound is clamped to [0, len]. *)
Definition slice_bound (n i : Z) : Z :=
  if i <? 0 then Z.max 0 (i + n) else Z.min i n.

(** [items[lo:hi]] *)
Definition slice {A} (items : list A) (lo hi : Z) : list A :=
  let n := len items in
  let lo' := slice_bound n lo in
  let hi' := slice_bound n hi in
  firstn (Z.to_nat (hi' - lo')) (skipn (Z.to_nat lo') items).

(** *** Dictionaries

    A [dict] keeps its keys in insertion order; assigning to a key that is
    already present replaces the value and keeps the key's position. *)
Definition dict (V : Type) := list (str * V).

Fixpoint dict_get {V} (d : dict V) (k : str) : option V :=
  match d with
  | [] => None
  | (k', v) :: d' => if str_eqb k k' then Some v else dict_get d' k
  end.

(** [k in d] *)
Definition dict_mem {V} (d : dict V) (k : str) : bool :=
  match dict_get d k with Some _ => true | None => false end.

(** [d[k] = v] *)
Fixpoint dict_set {V} (d : dict V) (k : str) (v : V) : dict V :=
  match d with
  | [] => [(k, v)]
  | (k', v') :: d' =>
      if str_eqb k k' then (k', v) :: d' else (k', v') :: dict_set d' k v
  end.

(** [del d[k]], every binding of the key *)
Fixpoint dict_del {V} (d : dict V) (k : str) : dict V :=
  match d with
  | [] => []
  | (k', v') :: d' =>
      if str_eqb k k' then dict_del d' k else (k', v') :: dict_del d' k
  end.

(** [d.items()] *)
Definition dict_items {V} (d : dict V) : list (str * V) := d.

(** *** Strings *)

(** [sep.join(parts)] *)
Fixpoint join (sep : str) (parts : list str) : str :=
  match parts with
  | [] => []
  | [p] => p
  | p :: rest => p ++ sep ++ join sep rest
  end.

(** [s.split(sep)] for a one-character separator *)
Fixpoint split (sep : char) (s : str) : list str :=
  match s with
  | [] => [[]]
  | c :: s' =>
      if char_eqb c sep then [] :: split sep s'
      else match split sep s' with
           | l :: ls => (c :: l) :: ls
           | [] => [[c]]
           end
  end.

(** [str(i)] for an [int] *)
Definition str_of_int (i : Z) : str := lit (NilZero.string_of_int (Z.to_int i)).

(** [s.lower()] on the ASCII letters.  The program only compares the result
    with [".txt"] and [".csv"], and no character outside ASCII lowers to one
    of their letters. *)
Definition lower (s : str) : str :=
  map (fun c => if (65 <=? c)%N && (c <=? 90)%N then (c + 32)%N else c) s.

(** The code points [str.isspace] accepts, which [str.strip] removes. *)
Definition is_space (c : char) : bool :=
  ((9 <=? c) && (c <=? 13) || (28 <=? c) && (c <=? 32)
   || (c =? 133) || (c =? 160) || (c =? 5760)
   || (8192 <=? c) && (c <=? 8202)
   || (c =? 8232) || (c =? 8233) || (c =? 8239) || (c =? 8287)
   || (c =? 12288))%N.

Fixpoint lstrip (s : str) : str :=
  match s with
  | [] => []
  | c :: s' => if is_space c then lstrip s' else s
  end.

Fixpoint rstrip (s : str) : str :=
  match s with
  | [] => []
  | c :: s' =>
      match rstrip s' with
      | [] => if is_space c then [] else [c]
      | r => c :: r
      end
  end.

(** [s.strip()] *)
Definition strip (s : str) : str := rstrip (lstrip s).

(** *** Text files

    A file opened in text mode with the default [newline=None] is read with
    universal newlines: ["\r\n"] and a lone ["\r"] both arrive as ["\n"].
    File contents are kept at the text level: the [utf-8] codec the program
    asks for is a bijection on the strings it can load. *)
Fixpoint universal_newlines (s : str) : str :=
  match s with
  | [] => []
  | c :: s' =>
      if char_eqb c CR then
        LF :: match s' with
              | d :: s'' =>
                  if char_eqb d LF then universal_newlines s''
                  else universal_newlines s'
              | [] => []
              end
      else c :: universal_newlines s'
  end.

(** The lines of a text, each with its terminating ["\n"]; a last line that
    has none is kept as it is. *)
Fixpoint text_lines (s : str) : list str :=
  match s with
  | [] => []
  | c :: s' =>
      if char_eqb c LF then [LF] :: text_lines s'
      else match text_lines s' with
           | [] => [[c]]
           | l :: ls => (c :: l) :: ls
           end
  end.

(** [fh.read()] on a file whose stored text is [data] *)
Definition file_read (data : str) : str := universal_newlines data.

(** [for line in fh] over a file whose stored text is [data] *)
Definition file_lines (data : str) : list str :=
  text_lines (universal_newlines data).

End Py.

Import Py.
Local Open Scope Z_scope.



(** ** Paths and the file system *)

Module Fs.

(** A path is the list of its components below the root of the modelled
    tree.  The process's working directory is that root, so a relative and an
    absolute spelling of the same components name the same entry.  Symbolic
    links, permissions and the special name [".."] are not interpreted: the
    tree stands for the file system on paths whose components are proper
    names. *)
Definition path := list str.

(** A name a directory entry can have: not empty, not ["."] and not [".."],
    and free of ["/"] and of the null character. *)
Definition proper_name (c : str) : bool :=
  negb (str_eqb c []) && negb (str_eqb c [DOT]) && negb (str_eqb c [DOT; DOT])
  && forallb (fun x => negb (x =? SLASH)%N && negb (x =? 0)%N) c.

Definition proper_path (p : path) : bool := forallb proper_name p.

Definition is_absolute (s : str) : bool :=
  match s with
  | c :: _ => char_eqb c SLASH
  | [] => false
  end.

(** The components [pathlib] keeps of a path text: it splits at ["/"] and
    drops empty components and ["."]. *)
Definition parse_parts (s : str) : path :=
  filter (fun c => negb (str_eqb c [] || str_eqb c [DOT])) (split SLASH s).

(** [Path(s)] *)
Definition Path (s : str) : path := parse_parts s.

(** [p / s]: an absolute right operand replaces the left one. *)
Definition joinpath (p : path) (s : str) : path :=
  if is_absolute s then parse_parts s else p ++ parse_parts s.

(** [p.parent] *)
Definition parent (p : path) : path := removelast p.

(** [p.name] *)
Definition name (p : path) : str := last p [].

(** [p.suffix]: the part of the name from its last dot, when that dot is
    neither the first nor the last character. *)
Fixpoint suffix_of_name (first : bool) (nm : str) : str :=
  match nm with
  | [] => []
  | c :: nm' =>
      match suffix_of_name false nm' with
      | [] =>
          if char_eqb c DOT && negb first
             && negb (match nm' with [] => true | _ => false end)
             && negb (existsb (char_eqb DOT) nm')
          then nm else []
      | sfx => sfx
      end
  end.

Definition suffix (p : path) : str := suffix_of_name true (name p).

(** [str(p.resolve())] *)
Definition path_str (p : path) : str := SLASH :: join [SLASH] p.

(** A file with its text, or a directory with its entries by name. *)
Inductive node :=
| File (data : str)
| Dir (entries : dict node).

Fixpoint lookup (n : node) (p : path) : option node :=
  match p with
  | [] => Some n
  | c :: p' =>
      match n with
      | Dir es =>
          match dict_get es c with
          | Some ch => lookup ch p'
          | None => None
          end
      | File _ => None
      end
  end.

(** [p.exists()], [p.is_dir()], [p.is_file()] *)
Definition exists_ (fs : node) (p : path) : bool :=
  match lookup fs p with Some _ => true | None => false end.

Definition is_dir (fs : node) (p : path) : bool :=
  match lookup fs p with Some (Dir _) => true | _ => false end.

Definition is_file (fs : node) (p : path) : bool :=
  match lookup fs p with Some (File _) => true | _ => false end.

(** Bind [x] at [p], whose parent has to be a directory. *)
Fixpoint put (n : node) (p : path) (x : node) : option node :=
  match p with
  | [] => Some x
  | c :: p' =>
      match n with
      | Dir es =>
          match p' with
          | [] => Some (Dir (dict_set es c x))
          | _ =>
              match dict_get es c with
              | Some ch =>
                  match put ch p' x with
                  | Some ch' => Some (Dir (dict_set es c ch'))
                  | None => None
                  end
              | None => None
              end
          end
      | File _ => None
      end
  end.

(** Remove the entry at [p] with everything below it. *)
Fixpoint remove (n : node) (p : path) : option node :=
  match p with
  | [] => None
  | c :: p' =>
      match n with
      | Dir es =>
          match dict_get es c with
          | Some ch =>
              match p' with
              | [] => Some (Dir (dict_del es c))
              | _ =>
                  match remove ch p' with
                  | Some ch' => Some (Dir (dict_set es c ch'))
                  | None => None
                  end
              end
          | None => None
          end
      | File _ => None
      end
  end.

(** Create the directory [p] and its missing ancestors; nothing changes
    where they exist.  Fails when a component is a file. *)
Fixpoint makedirs (n : node) (p : path) {struct p} : option node :=
  match n with
  | File _ => None
  | Dir es =>
      match p with
      | [] => Some n
      | c :: p' =>
          let ch := match dict_get es c with
                    | Some ch => ch
                    | None => Dir []
                    end in
          match makedirs ch p' with
          | Some ch' => Some (Dir (dict_set es c ch'))
          | None => None
          end
      end
  end.

(** [p] is [q] or an ancestor of [q]. *)
Fixpoint is_prefix (p q : path) : bool :=
  match p, q with
  | [], _ => true
  | c :: p', d :: q' => str_eqb c d && is_prefix p' q'
  | _ :: _, [] => false
  end.

(** The files below a directory: [rglob("*")] with [recursive], else
    [iterdir()], keeping the entries for which [is_file()] holds. *)
Fixpoint files_under (recursive : bool) (n : node) (at_ : path) : list path :=
  match n with
  | File _ => []
  | Dir es =>
      (fix go (es : list (str * node)) : list path :=
         match es with
         | [] => []
         | (nm, ch) :: es' =>
             match ch with
             | File _ => [at_ ++ [nm]]
             | Dir _ =>
                 if recursive then files_under recursive ch (at_ ++ [nm])
                 else []
             end ++ go es'
         end) es
  end.

(** *** Calls that change the file system

    The state the program runs in: the tree, and the mutating calls issued so
    far, in order, whether they succeeded or raised. *)
Inductive call :=
| Mkdir (p : path)
| Rmtree (p : path)
| Unlink (p : path)
| Copytree (src dst : path)
| Move (src dst : path)
| WriteText (p : path) (data : str).

Record world := World { root : node; calls : list call }.

Definition M (A : Type) := world -> result A * world.

Definition ret {A} (a : A) : M A := fun w => (Ok a, w).

Definition raise {A} (e : exn) : M A := fun w => (Raise e, w).

(** An exception leaves the file system as it was when it was raised. *)
Definition bind {A B} (m : M A) (k : A -> M B) : M B :=
  fun w =>
    match m w with
    | (Ok a, w') => k a w'
    | (Raise e, w') => (Raise e, w')
    end.

Definition lift {A} (r : result A) : M A := fun w => (r, w).

Definition gets {A} (f : node -> A) : M A := fun w => (Ok (f (root w)), w).

Definition issue (c : call) : M unit :=
  fun w => (Ok tt, World (root w) (calls w ++ [c])).

Definition set_root (fs : node) : M unit :=
  fun w => (Ok tt, World fs (calls w)).

Declare Scope fs_scope.
Delimit Scope fs_scope with fs.
Notation "x <- m ;; k" := (bind m (fun x => k))
  (at level 61, m at next level, right associativity) : fs_scope.
Notation "m ;; k" := (bind m (fun _ => k))
  (at level 61, right associativity) : fs_scope.
Local Open Scope fs_scope.

(** [for x in xs: body(x)] *)
Fixpoint for_each {A} (xs : list A) (body : A -> M unit) : M unit :=
  match xs with
  | [] => ret tt
  | x :: xs' => body x ;; for_each xs' body
  end.

(** [p.mkdir(parents=True, exist_ok=True)] *)
Definition mkdir_parents (p : path) : M unit :=
  issue (Mkdir p) ;;
  fs <- gets (fun fs => fs) ;;
  match makedirs fs p with
  | Some fs' => set_root fs'
  | None => raise (if is_file fs p then FileExistsError else NotADirectoryError)
  end.

(** [shutil.rmtree(p)] *)
Definition rmtree (p : path) : M unit :=
  issue (Rmtree p) ;;
  fs <- gets (fun fs => fs) ;;
  match lookup fs p with
  | Some (Dir _) =>
      match remove fs p with
      | Some fs' => set_root fs'
      | None => set_root (Dir []) ;; raise OSError
      end
  | Some (File _) => raise NotADirectoryError
  | None => raise FileNotFoundError
  end.

(** [p.unlink()] *)
Definition unlink (p : path) : M unit :=
  issue (Unlink p) ;;
  fs <- gets (fun fs => fs) ;;
  match lookup fs p with
  | Some (File _) =>
      match remove fs p with
      | Some fs' => set_root fs'
      | None => raise OSError
      end
  | Some (Dir _) => raise IsADirectoryError
  | None => raise FileNotFoundError
  end.

(** [shutil.copytree(src, dst)]: [src] has to be a directory and [dst] must
    not exist; missing ancestors of [dst] are created; [dst] receives a copy
    of the tree below [src].  (A destination inside the source is copied from
    the tree as it was before the call.) *)
Definition copytree (src dst : path) : M unit :=
  issue (Copytree src dst) ;;
  fs <- gets (fun fs => fs) ;;
  match lookup fs src with
  | Some (Dir es) =>
      if exists_ fs dst then raise FileExistsError
      else
        match makedirs fs dst with
        | Some fs1 =>
            match put fs1 dst (Dir es) with
            | Some fs2 => set_root fs2
            | None => raise OSError
            end
        | None => raise NotADirectoryError
        end
  | Some (File _) => raise NotADirectoryError
  | None => raise FileNotFoundError
  end.

(** [path_a == path_b] *)
Fixpoint path_eqb (p q : path) : bool :=
  match p, q with
  | [], [] => true
  | c :: p', d :: q' => str_eqb c d && path_eqb p' q'
  | _, _ => false
  end.

(** [shutil.move(src, dst)] on one volume.  An existing directory [dst]
    receives the source under its own name, which must be free there;
    otherwise the source is renamed to [dst].  Where the rename is refused
    the library falls back on [copytree] and [rmtree] for a directory (so a
    missing parent of the destination is created) and on a file copy for a
    file. *)
Definition move (src dst : path) : M unit :=
  issue (Move src dst) ;;
  fs <- gets (fun fs => fs) ;;
  if is_dir fs dst && path_eqb src dst then ret tt
  else
    let real_dst := if is_dir fs dst then dst ++ [name src] else dst in
    if is_dir fs dst && exists_ fs real_dst then raise ShutilError
    else
      match lookup fs src with
      | None => raise FileNotFoundError
      | Some (File data) =>
          if path_eqb src real_dst then ret tt
          else if is_dir fs (parent real_dst) then
            match remove fs src with
            | Some fs1 =>
                match put fs1 real_dst (File data) with
                | Some fs2 => set_root fs2
                | None => raise OSError
                end
            | None => raise OSError
            end
          else raise FileNotFoundError
      | Some (Dir es) =>
          if is_prefix src real_dst then raise ShutilError
          else if exists_ fs real_dst then raise FileExistsError
          else
            match makedirs fs real_dst with
            | Some fs1 =>
                match put fs1 real_dst (Dir es) with
                | Some fs2 =>
                    match remove fs2 src with
                    | Some fs3 => set_root fs3
                    | None => raise OSError
                    end
                | None => raise OSError
                end
            | None => raise NotADirectoryError
            end
      end.

(** [with p.open("w", encoding="utf-8") as fh: fh.write(data)] *)
Definition write_text (p : path) (data : str) : M unit :=
  issue (WriteText p data) ;;
  fs <- gets (fun fs => fs) ;;
  if is_dir fs p then raise IsADirectoryError
  else if is_dir fs (parent p) then
    match put fs p (File data) with
    | Some fs' => set_root fs'
    | None => raise OSError
    end
  else if exists_ fs (parent p) then raise NotADirectoryError
  else raise FileNotFoundError.

(** [with p.open("r", encoding="utf-8") as fh]: the stored text *)
Definition read_text (p : path) : M str :=
  fs <- gets (fun fs => fs) ;;
  match lookup fs p with
  | Some (File data) => ret data
  | Some (Dir _) => raise IsADirectoryError
  | None => raise FileNotFoundError
  end.

End Fs.

Import Fs.
Local Open Scope fs_scope.

(** ** The [json] module, as the program uses it *)

Module Json.

Local Open Scope N_scope.

Inductive value :=
| JStr (s : str)
| JList (items : list value)
| JDict (items : list (str * value)).

Definition hex_digit (d : N) : char := if d <? 10 then 48 + d else 87 + d.

(** ['\\u{0:04x}'.format(c)] *)
Definition escape_u (c : char) : str :=
  [BACKSLASH; 117; hex_digit (c / 4096 mod 16); hex_digit (c / 256 mod 16);
   hex_digit (c / 16 mod 16); hex_digit (c mod 16)].

(** The replacement [ESCAPE_DCT] holds for a character the pattern [ESCAPE]
    matches: the backslash, the double quote and the control characters.
    Every other character stands for itself, as [ensure_ascii=False] asks. *)
Definition escape_char (c : char) : str :=
  if c =? BACKSLASH then [BACKSLASH; BACKSLASH]
  else if c =? QUOTE then [BACKSLASH; QUOTE]
  else if c =? 8 then [BACKSLASH; 98]
  else if c =? 12 then [BACKSLASH; 102]
  else if c =? 10 then [BACKSLASH; 110]
  else if c =? 13 then [BACKSLASH; 114]
  else if c =? 9 then [BACKSLASH; 116]
  else if c <? 32 then escape_u c
  else [c].

(** [encode_basestring(s)] *)
Definition encode_basestring (s : str) : str :=
  QUOTE :: flat_map escape_char s ++ [QUOTE].

Definition SPACE : char := 32.
Definition COMMA : char := 44.
Definition COLON : char := 58.
Definition LBRACKET : char := 91.
Definition RBRACKET : char := 93.
Definition LBRACE : char := 123.
Definition RBRACE : char := 125.

Definition newline_indent (indent level : nat) : str :=
  LF :: repeat SPACE (indent * level).

(** The text [JSONEncoder(indent=indent, ensure_ascii=False)] produces for a
    value nested [level] deep: an empty container on one line, otherwise one
    item per line, separated by [","], indented by its depth. *)
Fixpoint encode (indent level : nat) (v : value) : str :=
  match v with
  | JStr s => encode_basestring s
  | JList [] => [LBRACKET; RBRACKET]
  | JList items =>
      LBRACKET :: newline_indent indent (S level)
      ++ join (COMMA :: newline_indent indent (S level))
              (map (encode indent (S level)) items)
      ++ newline_indent indent level ++ [RBRACKET]
  | JDict [] => [LBRACE; RBRACE]
  | JDict items =>
      LBRACE :: newline_indent indent (S level)
      ++ join (COMMA :: newline_indent indent (S level))
              (map (fun kv => encode_basestring (fst kv) ++ [COLON; SPACE]
                              ++ encode indent (S level) (snd kv)) items)
      ++ newline_indent indent level ++ [RBRACE]
  end.

(** What [json.dump(obj, fh, indent=indent, ensure_ascii=False)] writes *)
Definition dumps (indent : nat) (v : value) : str := encode indent 0 v.

(** *** Decoding

    The decoder on the documents a chunk manifest can be: an array of
    strings.  A value of another kind is outside this fragment and yields
    [None], as does a malformed document. *)

Definition is_ws (c : char) : bool :=
  (c =? 32) || (c =? 9) || (c =? 10) || (c =? 13).

Fixpoint skip_ws (s : str) : str :=
  match s with
  | c :: s' => if is_ws c then skip_ws s' else s
  | [] => []
  end.

Definition hex_value (c : char) : option N :=
  if (48 <=? c) && (c <=? 57) then Some (c - 48)
  else if (97 <=? c) && (c <=? 102) then Some (c - 87)
  else if (65 <=? c) && (c <=? 70) then Some (c - 55)
  else None.

Definition decode_u4 (a b c d : char) : option N :=
  match hex_value a, hex_value b, hex_value c, hex_value d with
  | Some x, Some y, Some z, Some w => Some (((x * 16 + y) * 16 + z) * 16 + w)
  | _, _, _, _ => None
  end.

(** The table [BACKSLASH] of the decoder *)
Definition unescape (e : char) : option char :=
  if e =? QUOTE then Some QUOTE
  else if e =? BACKSLASH then Some BACKSLASH
  else if e =? SLASH then Some SLASH
  else if e =? 98 then Some 8
  else if e =? 102 then Some 12
  else if e =? 110 then Some 10
  else if e =? 114 then Some 13
  else if e =? 116 then Some 9
  else None.

Definition cons_char (c : char) (r : option (str * str)) : option (str * str) :=
  match r with
  | Some (s, rest) => Some (c :: s, rest)
  | None => None
  end.

(** [scanstring] from the character after the opening quote, in strict mode:
    the decoded string and the text that follows the closing quote. *)
Fixpoint scanstring (s : str) : option (str * str) :=
  match s with
  | [] => None
  | c :: s' =>
      if c =? QUOTE then Some ([], s')
      else if c =? BACKSLASH then
        match s' with
        | [] => None
        | e :: s'' =>
            if e =? 117 then
              match s'' with
              | h1 :: h2 :: h3 :: h4 :: s3 =>
                  match decode_u4 h1 h2 h3 h4 with
                  | None => None
                  | Some uni =>
                      match s3 with
                      | b :: u :: g1 :: g2 :: g3 :: g4 :: s4 =>
                          match decode_u4 g1 g2 g3 g4 with
                          | Some uni2 =>
                              if (55296 <=? uni) && (uni <=? 56319)
                                 && (b =? BACKSLASH) && (u =? 117)
                                 && (56320 <=? uni2) && (uni2 <=? 57343)
                              then cons_char
                                     (65536 + ((uni - 55296) * 1024 + (uni2 - 56320)))
                                     (scanstring s4)
                              else cons_char uni (scanstring s3)
                          | None => cons_char uni (scanstring s3)
                          end
                      | _ => cons_char uni (scanstring s3)
                      end
                  end
              | _ => None
              end
            else
              match unescape e with
              | Some ch => cons_char ch (scanstring s'')
              | None => None
              end
        end
      else if c <? 32 then None
      else cons_char c (scanstring s')
  end.

(** The loop of [JSONArray] from the first item on. *)
Fixpoint parse_items (fuel : nat) (s : str) (acc : list str)
  : option (list str * str) :=
  match fuel with
  | O => None
  | S fuel' =>
      match s with
      | c :: s' =>
          if c =? QUOTE then
            match scanstring s' with
            | Some (v, rest) =>
                match skip_ws rest with
                | d :: rest' =>
                    if d =? RBRACKET then Some (acc ++ [v], rest')
                    else if d =? COMMA
                    then parse_items fuel' (skip_ws rest') (acc ++ [v])
                    else None
                | [] => None
                end
            | None => None
            end
          else None
      | [] => None
      end
  end.

(** [json.loads(s)] on that fragment *)
Definition loads (s : str) : option (list str) :=
  match skip_ws s with
  | c :: s' =>
      if c =? LBRACKET then
        match skip_ws s' with
        | d :: s'' =>
            let r := if d =? RBRACKET then Some ([], s'')
                     else parse_items (length s) (d :: s'') [] in
            match r with
            | Some (items, rest) =>
                match skip_ws rest with
                | [] => Some items
                | _ => None
                end
            | None => None
            end
        | [] => None
        end
      else None
  | [] => None
  end.

End Json.

(** ** The program *)

Section Program.

(** The [csv] module is outside this development: [csv_rows text] stands for
    the rows [csv.reader] yields over a file holding [text]. *)
Variable csv_rows : str -> list (list str).

(** *** Loading identifiers *)

(** The loop shared by the loaders: strip, keep what is not empty. *)
Definition stripped_nonempty (vals : list str) : list str :=
  filter (fun s => negb (str_eqb s [])) (map strip vals).

Definition read_ids_from_txt (p : path) : M (list str) :=
  data <- read_text p ;;
  ret (stripped_nonempty (file_lines data)).

(** [row.get(column) or ""] for the dictionary [csv.DictReader] builds from
    the field names and a row: the last field of that name wins, and a field
    the row is too short for is absent. *)
Fixpoint row_get (fieldnames row : list str) (column : str) (found : str) : str :=
  match fieldnames, row with
  | f :: fs, v :: vs => row_get fs vs column (if str_eqb f column then v else found)
  | f :: fs, [] => row_get fs [] column (if str_eqb f column then [] else found)
  | [], _ => found
  end.

Definition read_ids_from_csv (p : path) (column : option str) : M (list str) :=
  data <- read_text p ;;
  match csv_rows data with
  | fieldnames :: rows =>
      match fieldnames with
      | first_col :: _ =>
          let rows := filter (fun r => match r with [] => false | _ => true end) rows in
          let use :=
            match column with
            | Some c =>
                if negb (str_eqb c []) && existsb (str_eqb c) fieldnames
                then c else first_col
            | None => first_col
            end in
          ret (stripped_nonempty (map (fun r => row_get fieldnames r use []) rows))
      | [] =>
          ret (stripped_nonempty
                 (flat_map (fun r => match r with v :: _ => [v] | [] => [] end)
                           (csv_rows data)))
      end
  | [] => ret []
  end.

Definition load_ids (ids_path : str) (csv_column : option str) : M (list str) :=
  let p := Path ids_path in
  ex <- gets (fun fs => exists_ fs p) ;;
  if negb ex then raise FileNotFoundError
  else
    let sfx := lower (suffix p) in
    if str_eqb sfx (lit ".txt") then read_ids_from_txt p
    else if str_eqb sfx (lit ".csv") then read_ids_from_csv p csv_column
    else read_ids_from_txt p.

(** *** Mapping and listing *)

(** One turn of the resolver's loop on [mapping] and [missing]. *)
Definition resolver_turn (fs : node) (src : path)
    (acc : dict path * list str) (id_ : str) : dict path * list str :=
  let candidate := joinpath src id_ in
  if exists_ fs candidate && is_dir fs candidate
  then (dict_set (fst acc) id_ candidate, snd acc)
  else (fst acc, snd acc ++ [id_]).

(** [map_ids_to_folders(source_folder, ids)]: the dictionary from each
    identifier that names a directory under the source to that directory, and
    the list of the other identifiers. *)
Definition map_ids_to_folders (source_folder : str) (ids : list str)
  : M (dict path * list str) :=
  let src := Path source_folder in
  bad <- gets (fun fs => negb (exists_ fs src) || negb (is_dir fs src)) ;;
  if bad then raise NotADirectoryError
  else gets (fun fs => fold_left (resolver_turn fs src) ids ([], [])).

(** [a <= b] on strings: code point by code point *)
Fixpoint str_leb (a b : str) : bool :=
  match a, b with
  | [], _ => true
  | _ :: _, [] => false
  | x :: a', y :: b' => (x <? y)%N || ((x =? y)%N && str_leb a' b')
  end.

Fixpoint insert_sorted (x : str) (l : list str) : list str :=
  match l with
  | [] => [x]
  | y :: l' => if str_leb x y then x :: l else y :: insert_sorted x l'
  end.

(** [files.sort()] *)
Definition sort (l : list str) : list str := fold_right insert_sorted [] l.

Definition list_files_in_folder (folder : path) (recursive : bool) : M (list str) :=
  fs <- gets (fun fs => fs) ;;
  match lookup fs folder with
  | Some (Dir es) =>
      ret (sort (map path_str (files_under recursive (Dir es) folder)))
  | Some (File _) => if recursive then ret [] else raise NotADirectoryError
  | None => if recursive then ret [] else raise FileNotFoundError
  end.

(** *** Chunking *)

Definition InvalidChunkSize : exn := ValueError "chunk_size must be > 0"%string.

(** [chunkify(items, chunk_size)] *)
Definition chunkify {A} (items : list A) (chunk_size : Z) : result (list (list A)) :=
  if chunk_size <=? 0 then Raise InvalidChunkSize
  else Ok (map (fun i => slice items i (i + chunk_size))
               (range 0 (len items) chunk_size)).

(** *** Saving *)

Definition save_chunk_json (chunk : list str) (out_path : path) : M unit :=
  mkdir_parents (parent out_path) ;;
  write_text out_path (Json.dumps 2 (Json.JList (map Json.JStr chunk))).

Definition save_chunk_text (chunk : list str) (out_path : path) : M unit :=
  mkdir_parents (parent out_path) ;;
  write_text out_path (concat (map (fun item => item ++ [LF]) chunk)).

(** *** Processing *)

(** The collision policy, which both loops spell out before they copy or
    move: a target that exists is removed, a directory with all it holds,
    anything else by [unlink]. *)
Definition clear_target (target : path) : M unit :=
  ex <- gets (fun fs => exists_ fs target) ;;
  (if ex then
     d <- gets (fun fs => is_dir fs target) ;;
     if d then rmtree target else unlink target
   else ret tt).

Definition copy_chunk_folders (chunk_mapping : dict path) (dest_root : path)
    (chunk_name : str) : M unit :=
  let dest := joinpath dest_root chunk_name in
  mkdir_parents dest ;;
  for_each (dict_items chunk_mapping) (fun item =>
    let id_ := fst item in
    let src_path := snd item in
    let target := joinpath dest id_ in
    clear_target target ;;
    copytree src_path target).

Definition move_chunk_folders (chunk_mapping : dict path) (dest_root : path)
    (chunk_name : str) : M unit :=
  let dest := joinpath dest_root chunk_name in
  mkdir_parents dest ;;
  for_each (dict_items chunk_mapping) (fun item =>
    let id_ := fst item in
    let src_path := snd item in
    let target := joinpath dest id_ in
    clear_target target ;;
    move src_path target).

(** *** Orchestration *)

Inductive chunk_format_t := FormatJson | FormatText.

Definition format_name (f : chunk_format_t) : str :=
  match f with
  | FormatJson => lit "json"
  | FormatText => lit "text"
  end.

Inductive process_t := ProcessNone | ProcessCopy | ProcessMove.

(** The parsed command line *)
Record args_t := Args {
  source : str;
  ids : str;
  csv_column : option str;
  recursive : bool;
  chunk_size : Z;
  save_chunks : bool;
  chunk_format : chunk_format_t;
  chunk_prefix : str;
  chunks_dir : str;
  process_chunks : process_t;
  process_dest : option str;
  print_only : bool
}.

Definition MissingDestination : exn :=
  ValueError "When using --process-chunks copy|move you must provide --process-dest"%string.

(** [enumerate(chunks, start=1)] *)
Definition enumerate1 {A} (l : list A) : list (Z * A) :=
  combine (map Z.of_nat (seq 1 (length l))) l.

(** [mapping[k]] *)
Definition dict_item {V} (d : dict V) (k : str) : result V :=
  match dict_get d k with
  | Some v => Ok v
  | None => Raise (KeyError k)
  end.

(** [{id_: mapping[id_] for id_ in ch}] *)
Fixpoint chunk_mapping_of (mapping : dict path) (ch : list str) (acc : dict path)
  : result (dict path) :=
  match ch with
  | [] => Ok acc
  | id_ :: ch' =>
      match dict_item mapping id_ with
      | Ok p => chunk_mapping_of mapping ch' (dict_set acc id_ p)
      | Raise e => Raise e
      end
  end.

(** The loop that fills [detailed_map] *)
Fixpoint list_all (mapping : dict path) (rec : bool) (ids_ : list str)
    (acc : dict (list str)) : M (dict (list str)) :=
  match ids_ with
  | [] => ret acc
  | id_ :: rest =>
      folder <- lift (dict_item mapping id_) ;;
      files <- list_files_in_folder folder rec ;;
      list_all mapping rec rest (dict_set acc id_ files)
  end.

Definition json_of_detailed_map (m : dict (list str)) : Json.value :=
  Json.JDict (map (fun kv => (fst kv, Json.JList (map Json.JStr (snd kv)))) m).

(** [f"{args.chunk_prefix}{idx}"] *)
Definition chunk_name_of (args : args_t) (idx : Z) : str :=
  chunk_prefix args ++ str_of_int idx.

(** The body of the loop that saves the chunk files *)
Definition save_chunk_file (args : args_t) (chunks_dir_ : path)
    (ich : Z * list str) : M unit :=
  let chunk_name := chunk_name_of args (fst ich) in
  let out_path :=
    joinpath chunks_dir_ (chunk_name ++ [DOT] ++ format_name (chunk_format args)) in
  match chunk_format args with
  | FormatJson => save_chunk_json (snd ich) out_path
  | FormatText => save_chunk_text (snd ich) out_path
  end.

(** "Save chunk files if requested" *)
Definition save_chunk_files (args : args_t) (chunks : list (list str)) : M unit :=
  if save_chunks args && negb (print_only args) then
    let chunks_dir_ := Path (chunks_dir args) in
    mkdir_parents chunks_dir_ ;;
    for_each (enumerate1 chunks) (save_chunk_file args chunks_dir_)
  else ret tt.

(** The body of the loop that processes the chunks, for a mode that is
    [copy] or [move] *)
Definition process_chunk (args : args_t) (mapping : dict path) (dest_root : path)
    (ich : Z * list str) : M unit :=
  let chunk_name := chunk_name_of args (fst ich) in
  chunk_mapping <- lift (chunk_mapping_of mapping (snd ich) []) ;;
  match process_chunks args with
  | ProcessCopy => copy_chunk_folders chunk_mapping dest_root chunk_name
  | _ => move_chunk_folders chunk_mapping dest_root chunk_name
  end.

(** "Process chunks (copy/move) if requested".  [not args.process_dest]
    holds for an absent and for an empty text. *)
Definition process_chunk_folders (args : args_t) (mapping : dict path)
    (chunks : list (list str)) : M unit :=
  match process_chunks args with
  | ProcessNone => ret tt
  | _ =>
      if negb (print_only args) then
        match process_dest args with
        | None => raise MissingDestination
        | Some d =>
            if str_eqb d [] then raise MissingDestination
            else
              let dest_root := Path d in
              mkdir_parents dest_root ;;
              for_each (enumerate1 chunks) (process_chunk args mapping dest_root)
        end
      else ret tt
  end.

(** "Optionally save a full detailed map" *)
Definition save_full_mapping (args : args_t) (detailed_map : dict (list str))
  : M unit :=
  if save_chunks args && (chunk_size args =? 0) && negb (print_only args) then
    let dest := Path (chunks_dir args) in
    mkdir_parents dest ;;
    write_text (joinpath dest (lit "all_mapping.json"))
               (Json.dumps 2 (json_of_detailed_map detailed_map))
  else ret tt.

(** [main()], from the parsed arguments on.  What it prints is left out. *)
Definition main (args : args_t) : M unit :=
  ids_ <- load_ids (ids args) (csv_column args) ;;
  match ids_ with
  | [] => ret tt
  | _ =>
      mm <- map_ids_to_folders (source args) ids_ ;;
      let mapping := fst mm in
      let existing_ids_in_order := filter (dict_mem mapping) ids_ in
      detailed_map <- list_all mapping (recursive args) existing_ids_in_order [] ;;
      (if negb (chunk_size args =? 0) && (chunk_size args >? 0) then
         chunks <- lift (chunkify existing_ids_in_order (chunk_size args)) ;;
         save_chunk_files args chunks ;;
         process_chunk_folders args mapping chunks
       else ret tt) ;;
      save_full_mapping args detailed_map
  end.

End Program.

(** ** Vocabulary of the statements *)

(** The [j]-th window of [k] elements of a list. *)
Definition window {A} (items : list A) (k j : nat) : list A :=
  firstn k (skipn (j * k) items).

(** [ceil(n / k)] *)
Definition ceil_div (n k : Z) : Z :=
  n / k + (if n mod k =? 0 then 0 else 1).

(** Two paths are apart when neither is the other or above it. *)
Definition apart (p q : path) : Prop :=
  is_prefix p q = false /\ is_prefix q p = false.

(** The calls the collision policy issues for what is at the target. *)
Definition clearing_calls (at_target : option node) (target : path) : list call :=
  match at_target with
  | Some (Dir _) => [Rmtree target]
  | Some (File _) => [Unlink target]
  | None => []
  end.

(** Rebuilding a sequence from two of its subsequences: [from_first] tells,
    index by index, which of the two the element came from. *)
Fixpoint interleave {A} (from_first : list bool) (xs ys : list A) : list A :=
  match from_first with
  | [] => []
  | true :: fl =>
      match xs with
      | x :: xs' => x :: interleave fl xs' ys
      | [] => []
      end
  | false :: fl =>
      match ys with
      | y :: ys' => y :: interleave fl xs ys'
      | [] => []
      end
  end.

(** The identifiers of a list without repetition, in order of first
    occurrence. *)
Fixpoint distinct (l : list str) (seen : list str) : list str :=
  match l with
  | [] => []
  | x :: l' =>
      if existsb (str_eqb x) seen then distinct l' seen
      else x :: distinct l' (x :: seen)
  end.

(** The copy and move calls among the calls issued. *)
Definition is_transfer (c : call) : bool :=
  match c with
  | Copytree _ _ | Move _ _ => true
  | _ => false
  end.

Definition transfers (cs : list call) : list call := filter is_transfer cs.

(** The test the resolver applies to an identifier: the entry of that name
    under the source exists and is a directory. *)
Definition resolves (fs : node) (src : path) (id_ : str) : bool :=
  exists_ fs (joinpath src id_) && is_dir fs (joinpath src id_).

(** [mapping[id_]] where the key is known to be present *)
Definition folder_of (mapping : dict path) (id_ : str) : path :=
  match dict_get mapping id_ with
  | Some p => p
  | None => []
  end.

(** The copy or move calls a chunk gives rise to: one for each distinct
    identifier of the chunk, in order of first occurrence. *)
Definition expected_transfers (args : args_t) (mapping : dict path)
    (dest_root : path) (ich : Z * list str) : list call :=
  map (fun id_ =>
         let target :=
           joinpath (joinpath dest_root (chunk_name_of args (fst ich))) id_ in
         match process_chunks args with
         | ProcessCopy => Copytree (folder_of mapping id_) target
         | _ => Move (folder_of mapping id_) target
         end)
      (distinct (snd ich) []).

(** The calls that save manifests: creating a directory, writing a file. *)
Definition is_manifest_call (c : call) : bool :=
  match c with
  | Mkdir _ | WriteText _ _ => true
  | _ => false
  end.

(** From [w] to [w'] only such calls were issued. *)
Definition only_manifest_calls (w w' : world) : Prop :=
  exists cs, calls w' = calls w ++ cs /\ forallb is_manifest_call cs = true.

(** The separator between two items of an indented array one level deep. *)
Definition item_sep : str := Json.COMMA :: Json.newline_indent 2 1.

(** The items of a non-empty array of strings with what closes it. *)
Definition array_body (items : list str) (rest : str) : str :=
  join item_sep (map Json.encode_basestring items)
  ++ Json.newline_indent 2 0 ++ Json.RBRACKET :: rest.

(** No carriage return in a text. *)
Definition no_cr (s : str) : bool := forallb (fun c => negb (c =? CR)%N) s.

(** An identifier the line-delimited format keeps: not empty, unchanged by
    [strip], and free of the line terminators ["\n"] and ["\r"]. *)
Definition no_newline (s : str) : bool :=
  forallb (fun c => negb (c =? LF)%N && negb (c =? CR)%N) s.

Definition clean_id (s : str) : bool :=
  negb (str_eqb s []) && str_eqb (strip s) s && no_newline s.

(** White space, code point by code point: the characters for which
    [str.isspace] holds. *)
Definition whitespace_points : list char :=
  [9; 10; 11; 12; 13; 28; 29; 30; 31; 32; 133; 160; 5760;
   8192; 8193; 8194; 8195; 8196; 8197; 8198; 8199; 8200; 8201; 8202;
   8232; 8233; 8239; 8287; 12288]%N.

Definition whitespace (c : char) : bool := existsb (N.eqb c) whitespace_points.

(** An identifier as the claim on the line-delimited format asks for it:
    not empty, with no white space at either end, and with no line
    terminator. *)
Definition kept_by_lines (s : str) : bool :=
  match s with
  | [] => false
  | c :: _ => negb (whitespace c) && negb (whitespace (last s c)) && no_newline s
  end.

(** The characters outside ASCII, and the characters the encoder writes as
    they are: no control character, no quote and no backslash. *)
Definition non_ascii (c : char) : bool := (128 <=? c)%N.

Definition needs_no_escape (c : char) : bool :=
  (32 <=? c)%N && negb (c =? QUOTE)%N && negb (c =? BACKSLASH)%N.

(** The arguments with another destination root. *)
Definition with_dest (args : args_t) (d : option str) : args_t :=
  Args (source args) (ids args) (csv_column args) (recursive args)
       (chunk_size args) (save_chunks args) (chunk_format args)
       (chunk_prefix args) (chunks_dir args) (process_chunks args) d
       (print_only args).

(** An identifier that is one path component: a relative name that
    [pathlib] keeps as it is and that names an entry of the directory it is
    joined to, which [".."] does not. *)
Definition plain (id_ : str) : Prop :=
  is_absolute id_ = false /\ parse_parts id_ = [id_] /\ proper_name id_ = true.

(** The calls one item of a chunk gives rise to in a file system [fs]: the
    clearing of its target, then the transfer. *)
Definition item_calls (fs : node) (dest : path) (transfer : path -> path -> call)
    (item : str * path) : list call :=
  let target := joinpath dest (fst item) in
  clearing_calls (lookup fs target) target ++ [transfer (snd item) target].

(** Every line is free of ["\n"] up to its last character. *)
Definition line_shaped (l : str) : Prop :=
  exists body, (l = body ++ [LF] \/ l = body)
               /\ forallb (fun c => negb (c =? LF)%N) body = true.

(** The items of a chunk's dictionary do not get in each other's way below
    [dest]: the identifiers are plain and differ, and no source lies on a
    branch with a target. *)
Definition separate (dest : path) (items : list (str * path)) : Prop :=
  NoDup (map fst items)
  /\ (forall a, In a items -> plain (fst a))
  /\ (forall a b, In a items -> In b items -> apart (snd a) (dest ++ [fst b])).

(** The chunk directory and the sources are spelled with proper names:
    no [".."] leads out of a directory. *)
Definition proper_paths (dest : path) (items : list (str * path)) : Prop :=
  proper_path dest = true /\ forall a, In a items -> proper_path (snd a) = true.

(** No two sources of the items lie on one branch. *)
Definition sources_apart (items : list (str * path)) : Prop :=
  ForallOrdPairs (fun a b => apart (snd a) (snd b)) items.

(** The entry the resolver records for an identifier that resolves. *)
Definition record_folder (src : path) (m : dict path) (id_ : str) : dict path :=
  dict_set m id_ (joinpath src id_).

(** The item of a chunk's dictionary for an identifier. *)
Definition entry (mapping : dict path) (id_ : str) : str * path :=
  (id_, folder_of mapping id_).

From Stdlib Require Sorted Permutation DecimalZ.

(** An identifier as every loader returns it: not empty and unchanged by
    [strip]. *)
Definition tidy (s : str) : Prop := s <> [] /\ strip s = s.

(** A text of lines, each followed by the terminator [term]. *)
Definition text_of_lines (term : str) (ls : list str) : str :=
  concat (map (fun l => l ++ term) ls).

(** The item a dictionary holds for a key whose value [g] gives. *)
Definition keyed {V} (g : str -> V) (k : str) : str * V := (k, g k).

(** [a <= b] on strings, as a relation *)
Definition str_le (a b : str) : Prop := str_leb a b = true.



(** The manifest of the chunk with index [idx]: where it is written and
    the calls that write it. *)
Definition manifest_path (args : args_t) (idx : Z) : path :=
  joinpath (Path (chunks_dir args))
           (chunk_name_of args idx ++ [DOT] ++ format_name (chunk_format args)).

Definition manifest_data (args : args_t) (ch : list str) : str :=
  match chunk_format args with
  | FormatJson => Json.dumps 2 (Json.JList (map Json.JStr ch))
  | FormatText => text_of_lines [LF] ch
  end.

Definition manifest_calls (args : args_t) (ich : Z * list str) : list call :=
  [Mkdir (parent (manifest_path args (fst ich)));
   WriteText (manifest_path args (fst ich)) (manifest_data args (snd ich))].

(** The files of a directory by their path below it: a file among the
    entries, or, when the walk descends, a file of a directory among the
    entries. *)
Inductive file_below (rec : bool) : node -> path -> Prop :=
| file_entry (es : dict node) (nm : str) (data : str) :
    In (nm, File data) es -> file_below rec (Dir es) [nm]
| file_deeper (es es' : dict node) (nm : str) (rel : path) :
    rec = true -> In (nm, Dir es') es -> file_below rec (Dir es') rel ->
    file_below rec (Dir es) (nm :: rel).

(** * Properties *)

Unset Implicit Arguments.

(** ** Strings and dictionaries *)

Lemma str_eqb_eq (a b : str) : str_eqb a b = true <-> a = b.
Proof.
  revert b; induction a as [|x a IH]; intros [|y b]; simpl;
    try (split; [discriminate | discriminate]); try tauto.
  unfold char_eqb. rewrite andb_true_iff, N.eqb_eq, IH.
  split; [intros [-> ->]; reflexivity | intros E; inversion E; auto].
Qed.

Lemma str_eqb_refl (a : str) : str_eqb a a = true.
Proof. now apply str_eqb_eq. Qed.

Lemma str_eqb_neq (a b : str) : str_eqb a b = false <-> a <> b.
Proof.
  rewrite <- str_eqb_eq. destruct (str_eqb a b); split; congruence.
Qed.

Section Dict.
Context {V : Type}.
Implicit Types (d : dict V) (k : str) (v : V).

Lemma dict_get_set_same d k v : dict_get (dict_set d k v) k = Some v.
Proof.
  induction d as [|[k' v'] d IH]; simpl.
  - now rewrite str_eqb_refl.
  - destruct (str_eqb k k') eqn:E; simpl; rewrite E; auto.
Qed.

Lemma dict_get_set_other d k k' v :
  k <> k' -> dict_get (dict_set d k v) k' = dict_get d k'.
Proof.
  intros Hne. induction d as [|[k0 v0] d IH]; simpl.
  - replace (str_eqb k' k) with false; [reflexivity|].
    symmetry. apply str_eqb_neq. congruence.
  - destruct (str_eqb k k0) eqn:E; simpl.
    + apply str_eqb_eq in E. subst k0.
      replace (str_eqb k' k) with false; [reflexivity|].
      symmetry. apply str_eqb_neq. congruence.
    + now rewrite IH.
Qed.

Lemma dict_get_del_same d k : dict_get (dict_del d k) k = None.
Proof.
  induction d as [|[k' v'] d IH]; simpl; auto.
  destruct (str_eqb k k') eqn:E; simpl; auto. now rewrite E.
Qed.

Lemma dict_get_del_other d k k' :
  k <> k' -> dict_get (dict_del d k) k' = dict_get d k'.
Proof.
  intros Hne. induction d as [|[k0 v0] d IH]; simpl; auto.
  destruct (str_eqb k k0) eqn:E; simpl.
  - apply str_eqb_eq in E. subst k0.
    replace (str_eqb k' k) with false; [assumption|].
    symmetry. apply str_eqb_neq. congruence.
  - now rewrite IH.
Qed.

Lemma dict_set_get_id d k v : dict_get d k = Some v -> dict_set d k v = d.
Proof.
  induction d as [|[k' v'] d IH]; simpl; [discriminate|].
  destruct (str_eqb k k') eqn:E.
  - now intros [= ->].
  - intros H. now rewrite IH.
Qed.
End Dict.

(** ** The file system *)

Lemma is_prefix_app (p q : path) : is_prefix p (p ++ q) = true.
Proof. induction p; simpl; auto. now rewrite str_eqb_refl. Qed.

Lemma is_prefix_trans (p q r : path) :
  is_prefix p q = true -> is_prefix q r = true -> is_prefix p r = true.
Proof.
  revert q r; induction p as [|c p IH]; intros [|d q] [|e r]; simpl;
    try congruence.
  rewrite !andb_true_iff, !str_eqb_eq. intros [-> H1] [-> H2].
  split; [reflexivity | eauto].
Qed.

Lemma apart_cons (c : str) (p q : path) :
  apart (c :: p) (c :: q) -> apart p q.
Proof. unfold apart; simpl. now rewrite str_eqb_refl. Qed.

Lemma lookup_put_same (n : node) (p : path) (x n' : node) :
  put n p x = Some n' -> lookup n' p = Some x.
Proof.
  revert n n'; induction p as [|c p IH]; intros n n'; simpl.
  - now intros [= ->].
  - destruct n as [|es]; [discriminate|].
    destruct p as [|c' p'].
    + intros [= <-]. simpl. now rewrite dict_get_set_same.
    + destruct (dict_get es c) as [ch|]; [|discriminate].
      destruct (put ch (c' :: p') x) as [ch'|] eqn:E; [|discriminate].
      intros [= <-]. cbn [lookup]. rewrite dict_get_set_same. exact (IH _ _ E).
Qed.

Lemma lookup_put_apart (n : node) (p q : path) (x n' : node) :
  put n p x = Some n' -> apart p q -> lookup n' q = lookup n q.
Proof.
  revert n n' q; induction p as [|c p IH]; intros n n' q Hput [Hpq Hqp].
  - discriminate.
  - destruct q as [|d q]; [discriminate|].
    simpl in Hput. destruct n as [|es]; [discriminate|].
    destruct (str_eqb c d) eqn:Ecd.
    + apply str_eqb_eq in Ecd. subst d.
      assert (Hap : apart p q) by (apply (apart_cons c); now split).
      destruct p as [|c' p'].
      * destruct Hap as [Hap _]. discriminate.
      * destruct (dict_get es c) as [ch|] eqn:Eg; [|discriminate].
        destruct (put ch (c' :: p') x) as [ch'|] eqn:E; [|discriminate].
        injection Hput as <-. cbn [lookup].
        rewrite dict_get_set_same, Eg. exact (IH ch ch' q E Hap).
    + apply str_eqb_neq in Ecd.
      assert (Hget : forall y, dict_get (dict_set es c y) d = dict_get es d)
        by (intros; now apply dict_get_set_other).
      destruct p as [|c' p'].
      * injection Hput as <-. cbn [lookup]. now rewrite Hget.
      * destruct (dict_get es c) as [ch|]; [|discriminate].
        destruct (put ch (c' :: p') x) as [ch'|]; [|discriminate].
        injection Hput as <-. cbn [lookup]. now rewrite Hget.
Qed.

Lemma lookup_remove_same (n : node) (p : path) (n' : node) :
  remove n p = Some n' -> lookup n' p = None.
Proof.
  revert n n'; induction p as [|c p IH]; intros n n'; simpl.
  - discriminate.
  - destruct n as [|es]; [discriminate|].
    destruct (dict_get es c) as [ch|]; [|discriminate].
    destruct p as [|c' p'].
    + intros [= <-]. simpl. now rewrite dict_get_del_same.
    + destruct (remove ch (c' :: p')) as [ch'|] eqn:E; [|discriminate].
      intros [= <-]. cbn [lookup]. rewrite dict_get_set_same. exact (IH _ _ E).
Qed.

Lemma lookup_remove_apart (n : node) (p q : path) (n' : node) :
  remove n p = Some n' -> apart p q -> lookup n' q = lookup n q.
Proof.
  revert n n' q; induction p as [|c p IH]; intros n n' q Hrm [Hpq Hqp].
  - discriminate.
  - destruct q as [|d q]; [discriminate|].
    simpl in Hrm. destruct n as [|es]; [discriminate|].
    destruct (dict_get es c) as [ch|] eqn:Eg; [|discriminate].
    destruct (str_eqb c d) eqn:Ecd.
    + apply str_eqb_eq in Ecd. subst d.
      assert (Hap : apart p q) by (apply (apart_cons c); now split).
      destruct p as [|c' p'].
      * destruct Hap as [Hap _]. discriminate.
      * destruct (remove ch (c' :: p')) as [ch'|] eqn:E; [|discriminate].
        injection Hrm as <-. cbn [lookup].
        rewrite dict_get_set_same, Eg. exact (IH ch ch' q E Hap).
    + apply str_eqb_neq in Ecd.
      destruct p as [|c' p'].
      * injection Hrm as <-. cbn [lookup].
        now rewrite dict_get_del_other.
      * destruct (remove ch (c' :: p')) as [ch'|]; [|discriminate].
        injection Hrm as <-. cbn [lookup].
        now rewrite dict_get_set_other.
Qed.

Lemma remove_defined (n : node) (p : path) (x : node) :
  p <> [] -> lookup n p = Some x -> exists n', remove n p = Some n'.
Proof.
  revert n; induction p as [|c p IH]; intros n Hp; [congruence|].
  simpl. destruct n as [|es]; [discriminate|].
  destruct (dict_get es c) as [ch|]; [|discriminate].
  destruct p as [|c' p']; [eauto|].
  intros H. destruct (IH ch ltac:(discriminate) H) as [ch' ->]. eauto.
Qed.

Lemma makedirs_existing (n : node) (p : path) :
  is_dir n p = true -> makedirs n p = Some n.
Proof.
  unfold is_dir. revert n; induction p as [|c p IH]; intros n; simpl.
  - destruct n; [discriminate | reflexivity].
  - destruct n as [|es]; [discriminate|].
    destruct (dict_get es c) as [ch|] eqn:Eg; [|discriminate].
    intros H. rewrite (IH ch H). now rewrite dict_set_get_id.
Qed.

Lemma makedirs_is_dir (n : node) (p : path) (n' : node) :
  makedirs n p = Some n' -> is_dir n' p = true.
Proof.
  unfold is_dir. revert n n'; induction p as [|c p IH]; intros n n'; simpl.
  - destruct n; [discriminate|]. now intros [= <-].
  - destruct n as [|es]; [discriminate|].
    destruct (makedirs _ p) as [ch'|] eqn:E; [|discriminate].
    intros [= <-]. rewrite dict_get_set_same. now apply IH in E.
Qed.

(** Creating directories along [p] changes nothing at a path that is not
    [p] or above it. *)
Lemma lookup_makedirs_frame (n : node) (p q : path) (n' : node) :
  makedirs n p = Some n' -> is_prefix q p = false ->
  lookup n' q = lookup n q.
Proof.
  revert n n' q; induction p as [|c p IH]; intros n n' q Hmk Hq.
  - simpl in Hmk. destruct n; [discriminate|]. now injection Hmk as <-.
  - destruct q as [|d q]; [discriminate|].
    simpl in Hmk. destruct n as [|es]; [discriminate|].
    destruct (makedirs _ p) as [ch'|] eqn:E; [|discriminate].
    injection Hmk as <-. cbn [lookup].
    simpl in Hq. destruct (str_eqb d c) eqn:Edc.
    + apply str_eqb_eq in Edc. subst d. simpl in Hq.
      rewrite dict_get_set_same.
      rewrite (IH _ _ q E Hq).
      destruct (dict_get es c) as [ch|]; [reflexivity|].
      destruct q; [discriminate | reflexivity].
    + apply str_eqb_neq in Edc.
      rewrite dict_get_set_other by congruence. reflexivity.
Qed.

(** ** Lists *)

Lemma firstn_plus {A} (a b : nat) (l : list A) :
  firstn (a + b) l = firstn a l ++ firstn b (skipn a l).
Proof.
  revert l; induction a as [|a IH]; intros l; simpl.
  - reflexivity.
  - destruct l as [|x l]; simpl.
    + now rewrite firstn_nil.
    + now rewrite IH.
Qed.

Lemma concat_windows {A} (items : list A) (k m : nat) :
  concat (map (window items k) (seq 0 m)) = firstn (m * k) items.
Proof.
  induction m as [|m IH].
  - reflexivity.
  - rewrite seq_S, map_app, concat_app, IH; simpl.
    rewrite app_nil_r. unfold window.
    replace (k + m * k)%nat with (m * k + k)%nat by lia.
    now rewrite firstn_plus.
Qed.

Lemma length_window {A} (items : list A) (k j : nat) :
  length (window items k j) = Nat.min k (length items - j * k).
Proof. unfold window. now rewrite length_firstn, length_skipn. Qed.

(** ** The chunker *)

Lemma slice_window {A} (items : list A) (k : Z) (j : nat) :
  0 < k -> 
  slice items (0 + Z.of_nat j * k) (0 + Z.of_nat j * k + k)
  = window items (Z.to_nat k) j.
Proof.
  intros Hk. unfold slice, window, slice_bound, len.
  set (n := Z.of_nat (length items)).
  assert (Hn : 0 <= n) by (subst n; lia).
  assert (Hj : 0 <= Z.of_nat j * k) by nia.
  destruct (0 + Z.of_nat j * k <? 0) eqn:E1; [apply Z.ltb_lt in E1; lia|].
  destruct (0 + Z.of_nat j * k + k <? 0) eqn:E2; [apply Z.ltb_lt in E2; lia|].
  destruct (Z.le_gt_cases n (Z.of_nat j * k)) as [Hle|Hgt].
  - (* the window starts at or after the end *)
    rewrite !Z.min_r by lia.
    replace (n - n) with 0 by lia. simpl.
    rewrite skipn_all2 by (subst n; nia). now rewrite firstn_nil.
  - rewrite (Z.min_l (0 + Z.of_nat j * k)) by lia.
    replace (Z.to_nat (0 + Z.of_nat j * k)) with (j * Z.to_nat k)%nat by nia.
    destruct (Z.le_gt_cases (0 + Z.of_nat j * k + k) n) as [H2|H2].
    + rewrite Z.min_l by lia. f_equal. lia.
    + rewrite Z.min_r by lia.
      rewrite !firstn_all2; try reflexivity;
        rewrite length_skipn; subst n; nia.
Qed.

Lemma chunkify_windows {A} (items : list A) (k : Z) :
  0 < k ->
  chunkify items k
  = Ok (map (window items (Z.to_nat k))
            (seq 0 (Z.to_nat ((len items + k - 1) / k)))).
Proof.
  intros Hk. unfold chunkify.
  destruct (k <=? 0) eqn:E; [apply Z.leb_le in E; lia|].
  f_equal. unfold range. rewrite map_map.
  replace (len items - 0 + k - 1) with (len items + k - 1) by lia.
  apply map_ext. intros j. now apply slice_window.
Qed.

Lemma ceil_div_eq (n k : Z) : 0 < k -> (n + k - 1) / k = ceil_div n k.
Proof.
  intros Hk. unfold ceil_div.
  pose proof (Z.div_mod n k ltac:(lia)) as Hd.
  pose proof (Z.mod_pos_bound n k Hk) as Hm.
  destruct (n mod k =? 0) eqn:E.
  - apply Z.eqb_eq in E.
    symmetry. rewrite Z.add_0_r. apply Z.div_unique with (r := k - 1); lia.
  - apply Z.eqb_neq in E.
    symmetry. apply Z.div_unique with (r := n mod k - 1); lia.
Qed.

Lemma ceil_div_bounds (n k : Z) :
  0 <= n -> 0 < k ->
  0 <= ceil_div n k /\ n <= ceil_div n k * k /\ (ceil_div n k - 1) * k < n + (if n =? 0 then 1 else 0)
  /\ (n mod k = 0 -> ceil_div n k * k = n)
  /\ (n mod k <> 0 -> (ceil_div n k - 1) * k + n mod k = n).
Proof.
  intros Hn Hk. unfold ceil_div.
  pose proof (Z.div_mod n k ltac:(lia)) as Hd.
  pose proof (Z.mod_pos_bound n k Hk) as Hm.
  assert (0 <= n / k) by (apply Z.div_pos; lia).
  destruct (n mod k =? 0) eqn:E;
    [apply Z.eqb_eq in E | apply Z.eqb_neq in E];
    destruct (n =? 0) eqn:E0;
    [apply Z.eqb_eq in E0 | apply Z.eqb_neq in E0
    |apply Z.eqb_eq in E0 | apply Z.eqb_neq in E0]; nia.
Qed.

Lemma nth_map_seq {B} (f : nat -> B) (m j : nat) (d : B) :
  (j < m)%nat -> nth j (map f (seq 0 m)) d = f j.
Proof.
  intros Hj.
  rewrite (nth_indep _ d (f 0%nat)) by now rewrite length_map, length_seq.
  rewrite map_nth. now rewrite seq_nth.
Qed.

(** C3.  For a positive chunk size the chunker returns [ceil(n / chunk_size)]
    chunks; every chunk but the last has [chunk_size] elements; the last has
    [n mod chunk_size] elements, or [chunk_size] when that is zero; and the
    chunks concatenated in order are the input list. *)
Theorem chunkify_partition {A} (items : list A) (chunk_size : Z) :
  0 < chunk_size ->
  exists chunks,
    chunkify items chunk_size = Ok chunks
    /\ len chunks = ceil_div (len items) chunk_size
    /\ (forall j, (S j < length chunks)%nat ->
                  len (nth j chunks []) = chunk_size)
    /\ (forall init c, chunks = init ++ [c] ->
                       len c = if len items mod chunk_size =? 0
                               then chunk_size
                               else len items mod chunk_size)
    /\ concat chunks = items.
Proof.
  intros Hk.
  rewrite (chunkify_windows items chunk_size Hk), ceil_div_eq by assumption.
  assert (Hn : 0 <= len items) by (unfold len; lia).
  destruct (ceil_div_bounds _ _ Hn Hk) as (Hm0 & Hup & Hlo & Hex & Hrem).
  set (m := ceil_div (len items) chunk_size) in *.
  set (k := Z.to_nat chunk_size).
  assert (Hkk : Z.of_nat k = chunk_size) by (subst k; lia).
  eexists; split; [reflexivity|].
  repeat split.
  - unfold len. rewrite length_map, length_seq. lia.
  - intros j Hj. rewrite length_map, length_seq in Hj.
    rewrite nth_map_seq by lia.
    unfold len in *. rewrite length_window.
    destruct (Z.of_nat (length items) =? 0) eqn:E0;
      [apply Z.eqb_eq in E0 | apply Z.eqb_neq in E0]; nia.
  - intros init c Hc.
    assert (Hlen : length (init ++ [c]) = Z.to_nat m)
      by now rewrite <- Hc, length_map, length_seq.
    rewrite length_app in Hlen; simpl in Hlen.
    replace (Z.to_nat m) with (S (length init)) in Hc by lia.
    rewrite seq_S, map_app in Hc; simpl in Hc.
    apply app_inj_tail in Hc. destruct Hc as [_ Hc]. subst c.
    unfold len in *. rewrite length_window.
    destruct (Z.of_nat (length items) mod chunk_size =? 0) eqn:E;
      [apply Z.eqb_eq in E; specialize (Hex E)
      |apply Z.eqb_neq in E; specialize (Hrem E);
       pose proof (Z.mod_pos_bound (Z.of_nat (length items)) chunk_size Hk)];
      nia.
  - rewrite concat_windows. apply firstn_all2. unfold len in *. nia.
Qed.

Lemma chunkify_partition_witness :
  exists chunks,
    chunkify [1; 2; 3; 4; 5] 2 = Ok chunks
    /\ len chunks = ceil_div (len [1; 2; 3; 4; 5]) 2
    /\ (forall j, (S j < length chunks)%nat -> len (nth j chunks []) = 2)
    /\ (forall init c, chunks = init ++ [c] ->
                       len c = if len [1; 2; 3; 4; 5] mod 2 =? 0
                               then 2 else len [1; 2; 3; 4; 5] mod 2)
    /\ concat chunks = [1; 2; 3; 4; 5].
Proof. apply (chunkify_partition [1; 2; 3; 4; 5] 2). lia. Defined.

Example chunkify_five_by_two :
  chunkify [1; 2; 3; 4; 5] 2 = Ok [[1; 2]; [3; 4]; [5]].
Proof. reflexivity. Qed.

(** C8.  A chunk size of zero or less makes the chunker raise; it returns no
    chunk sequence. *)
Theorem chunkify_rejects_nonpositive {A} (items : list A) (chunk_size : Z) :
  items <> [] -> chunk_size <= 0 ->
  chunkify items chunk_size = Raise InvalidChunkSize.
Proof.
  intros _ Hk. unfold chunkify.
  destruct (chunk_size <=? 0) eqn:E; [reflexivity|].
  apply Z.leb_gt in E. lia.
Qed.

Lemma chunkify_rejects_nonpositive_witness :
  chunkify [lit "A"] 0 = Raise InvalidChunkSize.
Proof.
  apply (chunkify_rejects_nonpositive [lit "A"] 0).
  - discriminate.
  - lia.
Defined.

Lemma lookup_app (n : node) (p q : path) :
  lookup n (p ++ q) = match lookup n p with
                      | Some m => lookup m q
                      | None => None
                      end.
Proof.
  revert n; induction p as [|c p IH]; intros n; simpl; [reflexivity|].
  destruct n as [|es]; [reflexivity|].
  destruct (dict_get es c); [apply IH | reflexivity].
Qed.

(** An ancestor of an existing entry is a directory. *)
Lemma is_dir_above (n : node) (p q : path) (es : dict node) :
  lookup n (p ++ q) = Some (Dir es) -> is_dir n p = true.
Proof.
  rewrite lookup_app. unfold is_dir.
  destruct (lookup n p) as [[d|es']|]; try discriminate; [|reflexivity].
  destruct q; simpl; discriminate.
Qed.

Lemma makedirs_after_remove (n : node) (p : path) (n' : node) :
  remove n p = Some n' -> exists n'', makedirs n' p = Some n''.
Proof.
  revert n n'; induction p as [|c p IH]; intros n n'; [discriminate|].
  simpl. destruct n as [|es]; [discriminate|].
  destruct (dict_get es c) as [ch|] eqn:Eg; [|discriminate].
  destruct p as [|c' p'].
  - intros [= <-]. rewrite dict_get_del_same. simpl. eauto.
  - destruct (remove ch (c' :: p')) as [ch'|] eqn:E; [|discriminate].
    intros [= <-]. rewrite dict_get_set_same.
    destruct (IH _ _ E) as [ch'' ->]. eauto.
Qed.

Lemma put_defined (n : node) (p : path) (x y : node) :
  lookup n p = Some y -> exists n', put n p x = Some n'.
Proof.
  revert n; induction p as [|c p IH]; intros n; simpl; [eauto|].
  destruct n as [|es]; [discriminate|].
  destruct (dict_get es c) as [ch|]; [|discriminate].
  destruct p as [|c' p']; [eauto|].
  intros H. destruct (IH ch H) as [ch' ->]. eauto.
Qed.

Lemma apart_sym (p q : path) : apart p q -> apart q p.
Proof. unfold apart; tauto. Qed.

Lemma apart_not_root (p q : path) : apart p q -> q <> [].
Proof. intros [_ H] ->. destruct p; discriminate. Qed.

Lemma is_prefix_app_false (p q r : path) :
  is_prefix p (q ++ r) = false -> is_prefix p q = false.
Proof.
  intros H. destruct (is_prefix p q) eqn:E; [|reflexivity].
  rewrite (is_prefix_trans p q (q ++ r) E (is_prefix_app q r)) in H.
  discriminate.
Qed.

(** ** Running the calls *)

Lemma bind_ok {A B} (m : M A) (k : A -> M B) (w w1 : world) (a : A) :
  m w = (Ok a, w1) -> bind m k w = k a w1.
Proof. unfold bind. now intros ->. Qed.

Lemma bind_raise {A B} (m : M A) (k : A -> M B) (w w1 : world) (e : exn) :
  m w = (Raise e, w1) -> bind m k w = (Raise e, w1).
Proof. unfold bind. now intros ->. Qed.

Lemma gets_run {A} (f : node -> A) (w : world) : gets f w = (Ok (f (root w)), w).
Proof. reflexivity. Qed.

(** One monadic step whose outcome [H] gives. *)
Ltac run_with H := rewrite (bind_ok _ _ _ _ _ H).

Ltac run_gets := rewrite (bind_ok _ _ _ _ _ (gets_run _ _)); cbn [root calls].

Lemma mkdir_parents_run (fs fs' : node) (cs : list call) (p : path) :
  makedirs fs p = Some fs' ->
  mkdir_parents p (World fs cs) = (Ok tt, World fs' (cs ++ [Mkdir p])).
Proof.
  intros H. unfold mkdir_parents, bind, issue, gets, set_root; cbn [root calls].
  now rewrite H.
Qed.

Lemma rmtree_run (fs fs' : node) (cs : list call) (p : path) (old : dict node) :
  lookup fs p = Some (Dir old) -> remove fs p = Some fs' ->
  rmtree p (World fs cs) = (Ok tt, World fs' (cs ++ [Rmtree p])).
Proof.
  intros H1 H2. unfold rmtree, bind, issue, gets, set_root; cbn [root calls].
  now rewrite H1, H2.
Qed.

Lemma unlink_run (fs fs' : node) (cs : list call) (p : path) (data : str) :
  lookup fs p = Some (File data) -> remove fs p = Some fs' ->
  unlink p (World fs cs) = (Ok tt, World fs' (cs ++ [Unlink p])).
Proof.
  intros H1 H2. unfold unlink, bind, issue, gets, set_root; cbn [root calls].
  now rewrite H1, H2.
Qed.

Lemma copytree_run (fs fs1 fs2 : node) (cs : list call) (src dst : path)
    (es : dict node) :
  lookup fs src = Some (Dir es) -> lookup fs dst = None ->
  makedirs fs dst = Some fs1 -> put fs1 dst (Dir es) = Some fs2 ->
  copytree src dst (World fs cs) = (Ok tt, World fs2 (cs ++ [Copytree src dst])).
Proof.
  intros H1 H2 H3 H4.
  unfold copytree, bind, issue, gets, set_root, exists_; cbn [root calls].
  now rewrite H1, H2, H3, H4.
Qed.

(** Copying a directory to a free name whose ancestors hold no file: the
    name then holds the source tree and nothing changes at a path that is
    apart from it. *)
Lemma copytree_spec (fs fs1 : node) (cs : list call) (src dst : path)
    (es : dict node) :
  lookup fs src = Some (Dir es) -> lookup fs dst = None ->
  makedirs fs dst = Some fs1 ->
  exists fs2,
    copytree src dst (World fs cs) = (Ok tt, World fs2 (cs ++ [Copytree src dst]))
    /\ lookup fs2 dst = Some (Dir es)
    /\ forall q, apart dst q -> lookup fs2 q = lookup fs q.
Proof.
  intros Hsrc Hfree Hmk.
  pose proof (makedirs_is_dir _ _ _ Hmk) as Hd.
  assert (exists y, lookup fs1 dst = Some y) as [y Hy].
  { unfold is_dir in Hd. destruct (lookup fs1 dst); [eauto | discriminate]. }
  destruct (put_defined _ _ (Dir es) _ Hy) as [fs2 Hput].
  exists fs2. split; [|split].
  - now apply copytree_run with (fs1 := fs1) (es := es).
  - now apply lookup_put_same in Hput.
  - intros q Hq. rewrite (lookup_put_apart _ _ _ _ _ Hput Hq).
    apply (lookup_makedirs_frame _ _ _ _ Hmk (proj2 Hq)).
Qed.

(** ** The transactor *)

Lemma clear_target_dir (fs fs1 : node) (cs : list call) (target : path)
    (old : dict node) :
  lookup fs target = Some (Dir old) -> remove fs target = Some fs1 ->
  clear_target target (World fs cs) = (Ok tt, World fs1 (cs ++ [Rmtree target])).
Proof.
  intros Ht Hrm. unfold clear_target.
  run_gets. unfold exists_. rewrite Ht.
  run_gets. unfold is_dir. rewrite Ht.
  exact (rmtree_run _ _ cs _ _ Ht Hrm).
Qed.

Lemma clear_target_file (fs fs1 : node) (cs : list call) (target : path)
    (data : str) :
  lookup fs target = Some (File data) -> remove fs target = Some fs1 ->
  clear_target target (World fs cs) = (Ok tt, World fs1 (cs ++ [Unlink target])).
Proof.
  intros Ht Hrm. unfold clear_target.
  run_gets. unfold exists_. rewrite Ht.
  run_gets. unfold is_dir. rewrite Ht.
  exact (unlink_run _ _ cs _ _ Ht Hrm).
Qed.

Lemma clear_target_free (fs : node) (cs : list call) (target : path) :
  lookup fs target = None ->
  clear_target target (World fs cs) = (Ok tt, World fs cs).
Proof.
  intros Ht. unfold clear_target.
  run_gets. unfold exists_. now rewrite Ht.
Qed.

Lemma joinpath_relative (p : path) (s : str) :
  is_absolute s = false -> joinpath p s = p ++ parse_parts s.
Proof. unfold joinpath. now intros ->. Qed.

Lemma is_prefix_app_strict (p q : path) : q <> [] -> is_prefix (p ++ q) p = false.
Proof.
  intros Hq. induction p as [|c p IH]; simpl.
  - destruct q; [congruence | reflexivity].
  - now rewrite str_eqb_refl.
Qed.

Lemma makedirs_child (n : node) (p : path) (c : str) :
  is_dir n p = true -> lookup n (p ++ [c]) = None ->
  exists n', makedirs n (p ++ [c]) = Some n'.
Proof.
  unfold is_dir. revert n; induction p as [|d p IH]; intros n; simpl.
  - destruct n as [|es]; [discriminate|]. intros _.
    destruct (dict_get es c); [discriminate|]. simpl. eauto.
  - destruct n as [|es]; [discriminate|].
    destruct (dict_get es d) as [ch|]; [|discriminate].
    intros Hd Hfree. destruct (IH ch Hd Hfree) as [ch' ->]. eauto.
Qed.

Lemma move_run (fs fs1 fs2 fs3 : node) (cs : list call) (src dst : path)
    (es : dict node) :
  lookup fs src = Some (Dir es) -> lookup fs dst = None ->
  is_prefix src dst = false ->
  makedirs fs dst = Some fs1 -> put fs1 dst (Dir es) = Some fs2 ->
  remove fs2 src = Some fs3 ->
  move src dst (World fs cs) = (Ok tt, World fs3 (cs ++ [Move src dst])).
Proof.
  intros H1 H2 H3 H4 H5 H6.
  unfold move, bind, issue, gets, set_root, exists_, is_dir; cbn [root calls].
  rewrite H2. cbn [andb]. now rewrite H1, H3, H2, H4, H5, H6.
Qed.

(** Moving a directory to a free name that can be created: the source name
    is gone, the new name holds the tree, and nothing changes at a path
    apart from both. *)
Lemma move_spec (fs fs1 : node) (cs : list call) (src dst : path)
    (es : dict node) :
  lookup fs src = Some (Dir es) -> lookup fs dst = None ->
  makedirs fs dst = Some fs1 -> apart src dst ->
  exists fs3,
    move src dst (World fs cs) = (Ok tt, World fs3 (cs ++ [Move src dst]))
    /\ lookup fs3 src = None
    /\ lookup fs3 dst = Some (Dir es)
    /\ forall q, apart dst q -> apart src q -> lookup fs3 q = lookup fs q.
Proof.
  intros Hsrc Hfree Hmk Hap.
  pose proof (makedirs_is_dir _ _ _ Hmk) as Hd.
  assert (exists y, lookup fs1 dst = Some y) as [y Hy].
  { unfold is_dir in Hd. destruct (lookup fs1 dst); [eauto | discriminate]. }
  destruct (put_defined _ _ (Dir es) _ Hy) as [fs2 Hput].
  assert (Hsrc2 : lookup fs2 src = Some (Dir es)).
  { rewrite (lookup_put_apart _ _ _ _ _ Hput (apart_sym _ _ Hap)).
    now rewrite (lookup_makedirs_frame _ _ _ _ Hmk (proj1 Hap)). }
  destruct (remove_defined _ _ _ (apart_not_root _ _ (apart_sym _ _ Hap)) Hsrc2)
    as [fs3 Hrm].
  exists fs3. repeat split.
  - exact (move_run _ _ _ _ cs _ _ _ Hsrc Hfree (proj1 Hap) Hmk Hput Hrm).
  - exact (lookup_remove_same _ _ _ Hrm).
  - rewrite (lookup_remove_apart _ _ _ _ Hrm Hap).
    exact (lookup_put_same _ _ _ _ Hput).
  - intros q Hq1 Hq2.
    rewrite (lookup_remove_apart _ _ _ _ Hrm Hq2).
    rewrite (lookup_put_apart _ _ _ _ _ Hput Hq1).
    exact (lookup_makedirs_frame _ _ _ _ Hmk (proj2 Hq1)).
Qed.

(** Whatever is at a target below an existing directory, clearing it
    succeeds, leaves the name free and creatable, and changes nothing at a
    path apart from it. *)
Lemma clear_target_spec (fs : node) (cs : list call) (dest : path) (c : str) :
  is_dir fs dest = true ->
  let target := dest ++ [c] in
  exists fs1 fs2,
    clear_target target (World fs cs)
    = (Ok tt, World fs1 (cs ++ clearing_calls (lookup fs target) target))
    /\ lookup fs1 target = None
    /\ makedirs fs1 target = Some fs2
    /\ forall q, apart target q -> lookup fs1 q = lookup fs q.
Proof.
  intros Hdest target.
  assert (Hne : target <> []) by (subst target; destruct dest; discriminate).
  destruct (lookup fs target) as [[data|old]|] eqn:Ht.
  - destruct (remove_defined _ _ _ Hne Ht) as [fs1 Hrm].
    destruct (makedirs_after_remove _ _ _ Hrm) as [fs2 Hmk].
    exists fs1, fs2. repeat split; auto.
    + exact (clear_target_file _ _ cs _ _ Ht Hrm).
    + exact (lookup_remove_same _ _ _ Hrm).
    + intros q Hq. exact (lookup_remove_apart _ _ _ _ Hrm Hq).
  - destruct (remove_defined _ _ _ Hne Ht) as [fs1 Hrm].
    destruct (makedirs_after_remove _ _ _ Hrm) as [fs2 Hmk].
    exists fs1, fs2. repeat split; auto.
    + exact (clear_target_dir _ _ cs _ _ Ht Hrm).
    + exact (lookup_remove_same _ _ _ Hrm).
    + intros q Hq. exact (lookup_remove_apart _ _ _ _ Hrm Hq).
  - destruct (makedirs_child _ _ _ Hdest Ht) as [fs2 Hmk].
    exists fs, fs2. repeat split; auto.
    simpl. rewrite app_nil_r. now apply clear_target_free.
Qed.


Lemma joinpath_plain (dest : path) (id_ : str) :
  plain id_ -> joinpath dest id_ = dest ++ [id_].
Proof. intros (Hrel & Hp & _). now rewrite (joinpath_relative _ _ Hrel), Hp. Qed.

Lemma apart_siblings (dest : path) (a b : str) :
  a <> b -> apart (dest ++ [a]) (dest ++ [b]).
Proof.
  intros Hne. unfold apart. induction dest as [|c dest IH]; simpl.
  - assert (str_eqb a b = false) by now apply str_eqb_neq.
    assert (str_eqb b a = false) by (apply str_eqb_neq; congruence).
    now rewrite H, H0.
  - now rewrite str_eqb_refl.
Qed.

Lemma is_dir_lookup (fs : node) (p : path) :
  is_dir fs p = true -> exists es, lookup fs p = Some (Dir es).
Proof.
  unfold is_dir. destruct (lookup fs p) as [[|es]|]; try discriminate. eauto.
Qed.

(** One turn of the copy loop below an existing chunk directory: whatever
    is at the target is cleared, the target receives the source tree, and
    nothing changes at a path apart from the target. *)
Lemma copy_item_spec (fs : node) (cs : list call) (dest : path) (c : str)
    (src : path) (es : dict node) :
  is_dir fs dest = true ->
  lookup fs src = Some (Dir es) ->
  apart src (dest ++ [c]) ->
  exists fs2,
    (clear_target (dest ++ [c]) ;; copytree src (dest ++ [c])) (World fs cs)
    = (Ok tt, World fs2 (cs ++ clearing_calls (lookup fs (dest ++ [c])) (dest ++ [c])
                            ++ [Copytree src (dest ++ [c])]))
    /\ lookup fs2 (dest ++ [c]) = Some (Dir es)
    /\ forall q, apart (dest ++ [c]) q -> lookup fs2 q = lookup fs q.
Proof.
  intros Hdest Hsrc Hap.
  destruct (clear_target_spec fs cs dest c Hdest)
    as (fs1 & fs1' & Hclear & Hfree & Hmk & Hframe1).
  destruct (copytree_spec fs1 fs1'
              (cs ++ clearing_calls (lookup fs (dest ++ [c])) (dest ++ [c]))
              src (dest ++ [c]) es)
    as (fs2 & Hcopy & Ht & Hframe2); auto.
  { rewrite Hframe1 by now apply apart_sym. assumption. }
  exists fs2. repeat split; auto.
  - run_with Hclear. rewrite Hcopy. now rewrite <- app_assoc.
  - intros q Hq. now rewrite Hframe2, Hframe1.
Qed.

(** One turn of the move loop. *)
Lemma move_item_spec (fs : node) (cs : list call) (dest : path) (c : str)
    (src : path) (es : dict node) :
  is_dir fs dest = true ->
  lookup fs src = Some (Dir es) ->
  apart src (dest ++ [c]) ->
  exists fs3,
    (clear_target (dest ++ [c]) ;; move src (dest ++ [c])) (World fs cs)
    = (Ok tt, World fs3 (cs ++ clearing_calls (lookup fs (dest ++ [c])) (dest ++ [c])
                            ++ [Move src (dest ++ [c])]))
    /\ lookup fs3 src = None
    /\ lookup fs3 (dest ++ [c]) = Some (Dir es)
    /\ forall q, apart (dest ++ [c]) q -> apart src q -> lookup fs3 q = lookup fs q.
Proof.
  intros Hdest Hsrc Hap.
  destruct (clear_target_spec fs cs dest c Hdest)
    as (fs1 & fs1' & Hclear & Hfree & Hmk & Hframe1).
  destruct (move_spec fs1 fs1'
              (cs ++ clearing_calls (lookup fs (dest ++ [c])) (dest ++ [c]))
              src (dest ++ [c]) es)
    as (fs3 & Hmove & Hgone & Ht & Hframe3); auto.
  { rewrite Hframe1 by now apply apart_sym. assumption. }
  exists fs3. repeat split; auto.
  - run_with Hclear. rewrite Hmove. now rewrite <- app_assoc.
  - intros q Hq1 Hq2. now rewrite Hframe3, Hframe1.
Qed.

Lemma flat_map_ext_in' {A B} (f g : A -> list B) (l : list A) :
  (forall a, In a l -> f a = g a) -> flat_map f l = flat_map g l.
Proof.
  induction l as [|x l IH]; intros H; simpl; [reflexivity|].
  rewrite (H x (or_introl eq_refl)), IH; auto.
  intros a Ha. apply H. now right.
Qed.

Section Loops.
Variable dest : path.

Lemma separate_tail (a : str * path) (items : list (str * path)) :
  separate dest (a :: items) -> separate dest items.
Proof.
  intros (Hnd & Hp & Hap). inversion Hnd; subst. split; [|split]; auto.
  - intros b Hb. apply Hp. now right.
  - intros b c Hb Hc. apply Hap; now right.
Qed.

Lemma separate_targets (a : str * path) (items : list (str * path)) (b : str * path) :
  separate dest (a :: items) -> In b items ->
  apart (dest ++ [fst b]) (dest ++ [fst a]).
Proof.
  intros (Hnd & _ & _) Hb. apply apart_siblings. inversion Hnd; subst.
  intros E. apply H1. rewrite <- E. now apply in_map.
Qed.

Lemma copy_loop (items : list (str * path)) :
  forall (fs : node) (cs : list call),
    is_dir fs dest = true ->
    separate dest items ->
    (forall a, In a items -> is_dir fs (snd a) = true) ->
    exists fs',
      for_each items
        (fun item => clear_target (joinpath dest (fst item)) ;;
                     copytree (snd item) (joinpath dest (fst item)))
        (World fs cs)
      = (Ok tt, World fs' (cs ++ flat_map (item_calls fs dest Copytree) items))
      /\ is_dir fs' dest = true
      /\ (forall a, In a items ->
            lookup fs' (dest ++ [fst a]) = lookup fs (snd a)
            /\ lookup fs' (snd a) = lookup fs (snd a))
      /\ (forall q, (forall a, In a items -> apart (dest ++ [fst a]) q) ->
                    lookup fs' q = lookup fs q).
Proof.
  induction items as [|[id_ src] items IH]; intros fs cs Hdest Hsep Hdirs.
  - exists fs. simpl. rewrite app_nil_r.
    split; [reflexivity|]. split; [assumption|]. split; [intros a []|reflexivity].
  - pose proof Hsep as (Hnd & Hplain & Hap).
    destruct (is_dir_lookup _ _ (Hdirs (id_, src) (or_introl eq_refl))) as [es Hsrc].
    cbn [snd] in Hsrc.
    pose proof (Hap (id_, src) (id_, src) (or_introl eq_refl) (or_introl eq_refl)) as Hself.
    cbn [fst snd] in Hself.
    destruct (copy_item_spec fs cs dest id_ src es Hdest Hsrc Hself)
      as (fs2 & Hstep & Ht & Hframe).
    assert (Hdest2 : is_dir fs2 dest = true) by exact (is_dir_above _ _ _ _ Ht).
    assert (Hsame : forall b, In b items -> lookup fs2 (snd b) = lookup fs (snd b)).
    { intros b Hb. apply Hframe, apart_sym.
      exact (Hap b (id_, src) (or_intror Hb) (or_introl eq_refl)). }
    assert (Hsame_t : forall b, In b items ->
                        lookup fs2 (dest ++ [fst b]) = lookup fs (dest ++ [fst b])).
    { intros b Hb. apply Hframe, apart_sym.
      exact (separate_targets (id_, src) items b Hsep Hb). }
    destruct (IH fs2 (cs ++ item_calls fs dest Copytree (id_, src)) Hdest2
                 (separate_tail _ _ Hsep))
      as (fs' & Hrest & Hdest' & Hitems & Hframe').
    { intros b Hb. unfold is_dir. rewrite (Hsame b Hb).
      exact (Hdirs b (or_intror Hb)). }
    exists fs'. split; [|split; [assumption|split]].
    + cbn [for_each fst snd]. rewrite (joinpath_plain dest id_ (Hplain _ (or_introl eq_refl))).
      run_with Hstep.
      unfold item_calls at 1 in Hrest. cbn [fst snd] in Hrest.
      rewrite (joinpath_plain dest id_ (Hplain _ (or_introl eq_refl))) in Hrest.
      rewrite Hrest. cbn [flat_map]. rewrite <- app_assoc. do 3 f_equal.
      f_equal. apply flat_map_ext_in'. intros b Hb. unfold item_calls.
      rewrite (joinpath_plain dest (fst b) (Hplain _ (or_intror Hb))).
      now rewrite (Hsame_t b Hb).
    + intros a [<- | Ha]; cbn [fst snd].
      * split.
        -- rewrite Hframe', Ht; [now rewrite Hsrc|].
           intros b Hb. exact (separate_targets (id_, src) items b Hsep Hb).
        -- rewrite Hframe', Hframe; [reflexivity| now apply apart_sym |].
           intros b Hb. apply apart_sym.
           exact (Hap (id_, src) b (or_introl eq_refl) (or_intror Hb)).
      * destruct (Hitems a Ha) as [H1 H2]. now rewrite H1, H2, (Hsame a Ha).
    + intros q Hq. rewrite Hframe', Hframe; [reflexivity| |].
      * exact (Hq (id_, src) (or_introl eq_refl)).
      * intros b Hb. apply Hq. now right.
Qed.

Lemma move_loop (items : list (str * path)) :
  forall (fs : node) (cs : list call),
    is_dir fs dest = true ->
    separate dest items ->
    sources_apart items ->
    (forall a, In a items -> is_dir fs (snd a) = true) ->
    exists fs',
      for_each items
        (fun item => clear_target (joinpath dest (fst item)) ;;
                     move (snd item) (joinpath dest (fst item)))
        (World fs cs)
      = (Ok tt, World fs' (cs ++ flat_map (item_calls fs dest Move) items))
      /\ is_dir fs' dest = true
      /\ (forall a, In a items ->
            lookup fs' (dest ++ [fst a]) = lookup fs (snd a)
            /\ lookup fs' (snd a) = None)
      /\ (forall q, (forall a, In a items ->
                       apart (dest ++ [fst a]) q /\ apart (snd a) q) ->
                    lookup fs' q = lookup fs q).
Proof.
  induction items as [|[id_ src] items IH]; intros fs cs Hdest Hsep Hsrcs Hdirs.
  - exists fs. simpl. rewrite app_nil_r.
    split; [reflexivity|]. split; [assumption|]. split; [intros a []|reflexivity].
  - pose proof Hsep as (Hnd & Hplain & Hap).
    inversion Hsrcs as [|? ? Hhead Htail]; subst.
    rewrite Forall_forall in Hhead. cbn [snd] in Hhead.
    destruct (is_dir_lookup _ _ (Hdirs (id_, src) (or_introl eq_refl))) as [es Hsrc].
    cbn [snd] in Hsrc.
    pose proof (Hap (id_, src) (id_, src) (or_introl eq_refl) (or_introl eq_refl)) as Hself.
    cbn [fst snd] in Hself.
    destruct (move_item_spec fs cs dest id_ src es Hdest Hsrc Hself)
      as (fs3 & Hstep & Hgone & Ht & Hframe).
    assert (Hdest3 : is_dir fs3 dest = true) by exact (is_dir_above _ _ _ _ Ht).
    assert (Hsame : forall b, In b items -> lookup fs3 (snd b) = lookup fs (snd b)).
    { intros b Hb. apply Hframe.
      - apply apart_sym.
        exact (Hap b (id_, src) (or_intror Hb) (or_introl eq_refl)).
      - exact (Hhead b Hb). }
    assert (Hsame_t : forall b, In b items ->
                        lookup fs3 (dest ++ [fst b]) = lookup fs (dest ++ [fst b])).
    { intros b Hb. apply Hframe.
      - apply apart_sym. exact (separate_targets (id_, src) items b Hsep Hb).
      - exact (Hap (id_, src) b (or_introl eq_refl) (or_intror Hb)). }
    destruct (IH fs3 (cs ++ item_calls fs dest Move (id_, src)) Hdest3
                 (separate_tail _ _ Hsep) Htail)
      as (fs' & Hrest & Hdest' & Hitems & Hframe').
    { intros b Hb. unfold is_dir. rewrite (Hsame b Hb).
      exact (Hdirs b (or_intror Hb)). }
    exists fs'. split; [|split; [assumption|split]].
    + cbn [for_each fst snd]. rewrite (joinpath_plain dest id_ (Hplain _ (or_introl eq_refl))).
      run_with Hstep.
      unfold item_calls at 1 in Hrest. cbn [fst snd] in Hrest.
      rewrite (joinpath_plain dest id_ (Hplain _ (or_introl eq_refl))) in Hrest.
      rewrite Hrest. cbn [flat_map]. rewrite <- app_assoc. do 3 f_equal.
      f_equal. apply flat_map_ext_in'. intros b Hb. unfold item_calls.
      rewrite (joinpath_plain dest (fst b) (Hplain _ (or_intror Hb))).
      now rewrite (Hsame_t b Hb).
    + intros a [<- | Ha]; cbn [fst snd].
      * split.
        -- rewrite Hframe', Ht; [now rewrite Hsrc|].
           intros b Hb. split.
           ++ exact (separate_targets (id_, src) items b Hsep Hb).
           ++ exact (Hap b (id_, src) (or_intror Hb) (or_introl eq_refl)).
        -- rewrite Hframe'; [assumption|].
           intros b Hb. split.
           ++ apply apart_sym.
              exact (Hap (id_, src) b (or_introl eq_refl) (or_intror Hb)).
           ++ apply apart_sym. exact (Hhead b Hb).
      * destruct (Hitems a Ha) as [H1 H2]. now rewrite H1, H2, (Hsame a Ha).
    + intros q Hq. rewrite Hframe', Hframe; [reflexivity| | |].
      * exact (proj1 (Hq (id_, src) (or_introl eq_refl))).
      * exact (proj2 (Hq (id_, src) (or_introl eq_refl))).
      * intros b Hb. apply Hq. now right.
Qed.
End Loops.

(** Creating the chunk directory leaves the sources and the targets of
    separate items as they were. *)
Lemma chunk_dir_frame (fs fs0 : node) (dest : path) (items : list (str * path)) :
  makedirs fs dest = Some fs0 ->
  separate dest items ->
  forall a, In a items ->
    lookup fs0 (snd a) = lookup fs (snd a)
    /\ lookup fs0 (dest ++ [fst a]) = lookup fs (dest ++ [fst a]).
Proof.
  intros Hmk (_ & _ & Hap) a Ha. split.
  - apply (lookup_makedirs_frame _ _ _ _ Hmk).
    exact (is_prefix_app_false _ _ _ (proj1 (Hap a a Ha Ha))).
  - apply (lookup_makedirs_frame _ _ _ _ Hmk).
    apply is_prefix_app_strict. discriminate.
Qed.




(** That run in full: the stale directory and the file in the way are gone,
    both targets hold the source trees, the sources are in place. *)
Example copy_over_directory_and_file :
  let fs := Dir [ (lit "main", Dir [ (lit "A", Dir [(lit "a.txt", File (lit "new"))]);
                                     (lit "B", Dir [(lit "b.txt", File (lit "bb"))]) ]);
                  (lit "out", Dir [ (lit "chunk_1",
                      Dir [ (lit "A", Dir [(lit "stale.txt", File (lit "old"))]);
                            (lit "B", File (lit "in the way")) ]) ]) ] in
  copy_chunk_folders [(lit "A", [lit "main"; lit "A"]); (lit "B", [lit "main"; lit "B"])]
                     [lit "out"] (lit "chunk_1") (World fs [])
  = (Ok tt,
     World (Dir [ (lit "main", Dir [ (lit "A", Dir [(lit "a.txt", File (lit "new"))]);
                                     (lit "B", Dir [(lit "b.txt", File (lit "bb"))]) ]);
                  (lit "out", Dir [ (lit "chunk_1",
                      Dir [ (lit "A", Dir [(lit "a.txt", File (lit "new"))]);
                            (lit "B", Dir [(lit "b.txt", File (lit "bb"))]) ]) ]) ])
           [Mkdir [lit "out"; lit "chunk_1"];
            Rmtree [lit "out"; lit "chunk_1"; lit "A"];
            Copytree [lit "main"; lit "A"] [lit "out"; lit "chunk_1"; lit "A"];
            Unlink [lit "out"; lit "chunk_1"; lit "B"];
            Copytree [lit "main"; lit "B"] [lit "out"; lit "chunk_1"; lit "B"]]).
Proof. reflexivity. Qed.


(** A file in the way of the target is unlinked, and a free target needs no
    clearing. *)
Example move_over_file :
  let fs := Dir [ (lit "main", Dir [ (lit "A", Dir []) ]);
                  (lit "out", Dir [ (lit "c1", Dir [ (lit "A", File (lit "x")) ]) ]) ] in
  move_chunk_folders [(lit "A", [lit "main"; lit "A"])] [lit "out"] (lit "c1") (World fs [])
  = (Ok tt,
     World (Dir [ (lit "main", Dir []);
                  (lit "out", Dir [ (lit "c1", Dir [ (lit "A", Dir []) ]) ]) ])
           [Mkdir [lit "out"; lit "c1"]; Unlink [lit "out"; lit "c1"; lit "A"];
            Move [lit "main"; lit "A"] [lit "out"; lit "c1"; lit "A"]]).
Proof. reflexivity. Qed.

(** ** The resolver *)

Lemma is_dir_exists (fs : node) (p : path) : is_dir fs p = true -> exists_ fs p = true.
Proof. unfold is_dir, exists_. destruct (lookup fs p); [reflexivity | discriminate]. Qed.

Lemma dict_mem_set {V} (d : dict V) (a k : str) (v : V) :
  dict_mem (dict_set d a v) k = str_eqb k a || dict_mem d k.
Proof.
  unfold dict_mem. destruct (str_eqb k a) eqn:E.
  - apply str_eqb_eq in E. subst. now rewrite dict_get_set_same.
  - apply str_eqb_neq in E. rewrite dict_get_set_other by congruence. reflexivity.
Qed.

Lemma length_dict_set {V} (d : dict V) (k : str) (v : V) :
  length (dict_set d k v) = if dict_mem d k then length d else S (length d).
Proof.
  unfold dict_mem. induction d as [|[k' v'] d IH]; simpl; [reflexivity|].
  destruct (str_eqb k k') eqn:E; simpl; [reflexivity|].
  rewrite IH. now destruct (dict_get d k).
Qed.

Section Resolver.
Variables (fs : node) (src : path).

Lemma resolver_loop (ids_ : list str) (m0 : dict path) (ms0 : list str) :
  fold_left (resolver_turn fs src) ids_ (m0, ms0)
  = (fold_left (record_folder src) (filter (resolves fs src) ids_) m0,
     ms0 ++ filter (fun id_ => negb (resolves fs src id_)) ids_).
Proof.
  revert m0 ms0; induction ids_ as [|id_ ids_ IH]; intros m0 ms0.
  - simpl. now rewrite app_nil_r.
  - cbn [fold_left filter].
    replace (resolver_turn fs src (m0, ms0) id_)
      with (if resolves fs src id_ then (record_folder src m0 id_, ms0)
            else (m0, ms0 ++ [id_])) by reflexivity.
    destruct (resolves fs src id_); cbn [negb fold_left]; rewrite IH.
    + reflexivity.
    + now rewrite <- app_assoc.
Qed.

Lemma dict_mem_records (l : list str) (m : dict path) (k : str) :
  dict_mem (fold_left (record_folder src) l m) k = dict_mem m k || existsb (str_eqb k) l.
Proof.
  revert m; induction l as [|a l IH]; intros m; simpl.
  - now rewrite orb_false_r.
  - rewrite IH. unfold record_folder. rewrite dict_mem_set.
    now destruct (str_eqb k a), (dict_mem m k).
Qed.

Lemma length_records (l : list str) (m : dict path) :
  NoDup l -> (forall k, In k l -> dict_mem m k = false) ->
  length (fold_left (record_folder src) l m) = (length m + length l)%nat.
Proof.
  revert m; induction l as [|a l IH]; intros m Hnd Hfresh; simpl.
  - lia.
  - inversion Hnd as [|? ? Hin Hnd']; subst.
    rewrite IH; auto.
    + unfold record_folder. rewrite length_dict_set, Hfresh by now left. lia.
    + intros k Hk. unfold record_folder. rewrite dict_mem_set.
      rewrite Hfresh by now right.
      replace (str_eqb k a) with false; [reflexivity|].
      symmetry. apply str_eqb_neq. intros ->. contradiction.
Qed.

Lemma existsb_str_eqb_in (k : str) (l : list str) :
  existsb (str_eqb k) l = true <-> In k l.
Proof.
  rewrite existsb_exists. split.
  - intros (x & Hx & E). apply str_eqb_eq in E. now subst.
  - intros H. exists k. split; [assumption | apply str_eqb_refl].
Qed.

(** Membership in the dictionary the loop builds is the resolver's test,
    on the identifiers of the input. *)
Lemma filter_mem_records (ids_ : list str) :
  filter (dict_mem (fold_left (record_folder src) (filter (resolves fs src) ids_) [])) ids_
  = filter (resolves fs src) ids_.
Proof.
  apply filter_ext_in. intros k Hk. rewrite dict_mem_records.
  cbn [dict_mem dict_get orb].
  destruct (resolves fs src k) eqn:E.
  - apply existsb_str_eqb_in. apply filter_In. now split.
  - destruct (existsb (str_eqb k) (filter (resolves fs src) ids_)) eqn:E';
      [|reflexivity].
    apply existsb_str_eqb_in, filter_In in E'. destruct E'; congruence.
Qed.

Lemma map_ids_to_folders_run (cs : list call) (source_folder : str)
    (ids_ : list str) :
  src = Path source_folder -> is_dir fs src = true ->
  map_ids_to_folders source_folder ids_ (World fs cs)
  = (Ok (fold_left (record_folder src) (filter (resolves fs src) ids_) [],
         filter (fun id_ => negb (resolves fs src id_)) ids_),
     World fs cs).
Proof.
  intros Hs Hd. unfold map_ids_to_folders. rewrite <- Hs.
  run_gets. rewrite Hd, (is_dir_exists _ _ Hd). cbn [andb negb orb].
  unfold gets; cbn [root]. f_equal. f_equal.
  exact (resolver_loop ids_ [] []).
Qed.
End Resolver.

Lemma filter_split_length {A} (f : A -> bool) (l : list A) :
  (length (filter f l) + length (filter (fun x => negb (f x)) l) = length l)%nat.
Proof.
  induction l as [|x l IH]; simpl; [reflexivity|].
  destruct (f x); simpl; lia.
Qed.

Lemma interleave_filter {A} (f : A -> bool) (l : list A) :
  interleave (map f l) (filter f l) (filter (fun x => negb (f x)) l) = l.
Proof.
  induction l as [|x l IH]; simpl; [reflexivity|].
  destruct (f x); simpl; now rewrite IH.
Qed.

(** C4.  For a source root that is a directory the resolver returns a
    dictionary keyed by identifier and the missing identifiers.  With
    [resolved] the input identifiers that are keys of the dictionary, in
    input order, [len(resolved) + len(missing) = len(input)], both are
    subsequences of the input, and interleaving them by original index gives
    the input back.  The dictionary itself has one entry per distinct
    resolved identifier, so its length adds up with [missing] to the input's
    when no resolved identifier is repeated. *)
Theorem resolver_partition (w : world) (source_folder : str) (ids_ : list str) :
  is_dir (root w) (Path source_folder) = true ->
  exists mapping missing,
    map_ids_to_folders source_folder ids_ w = (Ok (mapping, missing), w)
    /\ let found := resolves (root w) (Path source_folder) in
       let resolved := filter (dict_mem mapping) ids_ in
       resolved = filter found ids_
       /\ missing = filter (fun id_ => negb (found id_)) ids_
       /\ (length resolved + length missing = length ids_)%nat
       /\ interleave (map found ids_) resolved missing = ids_
       /\ (NoDup resolved ->
           (length mapping + length missing = length ids_)%nat).
Proof.
  intros Hd. destruct w as [fs cs]. cbn [root] in *.
  do 2 eexists. split.
  - exact (map_ids_to_folders_run fs _ cs source_folder ids_ eq_refl Hd).
  - cbv zeta. rewrite filter_mem_records. repeat split.
    + apply filter_split_length.
    + apply interleave_filter.
    + intros Hnd. rewrite length_records; auto.
      simpl. apply filter_split_length.
Qed.

Lemma resolver_partition_witness :
  let fs := Dir [ (lit "main", Dir [ (lit "A", Dir []); (lit "B", Dir []);
                                     (lit "D", File (lit "x")) ]) ] in
  let ids_ := [lit "A"; lit "D"; lit "B"; lit "A"; lit "E"] in
  exists mapping missing,
    map_ids_to_folders (lit "main") ids_ (World fs []) = (Ok (mapping, missing), World fs [])
    /\ let found := resolves fs (Path (lit "main")) in
       let resolved := filter (dict_mem mapping) ids_ in
       resolved = filter found ids_
       /\ missing = filter (fun id_ => negb (found id_)) ids_
       /\ (length resolved + length missing = length ids_)%nat
       /\ interleave (map found ids_) resolved missing = ids_
       /\ (NoDup resolved ->
           (length mapping + length missing = length ids_)%nat).
Proof.
  intros fs ids_.
  apply (resolver_partition (World fs []) (lit "main") ids_).
  reflexivity.
Defined.

(** With a repeated identifier that resolves, the dictionary is shorter
    than the sequence of resolved occurrences: its length and that of
    [missing] do not add up to the input's. *)
Lemma resolver_lengths_counterexample :
  let fs := Dir [ (lit "main", Dir [ (lit "A", Dir []) ]) ] in
  is_dir fs (Path (lit "main")) = true
  /\ map_ids_to_folders (lit "main") [lit "A"; lit "A"] (World fs [])
     = (Ok ([(lit "A", [lit "main"; lit "A"])], []), World fs [])
  /\ (length [(lit "A", [lit "main"; lit "A"])] + length (@nil str)
      <> length [lit "A"; lit "A"])%nat.
Proof. repeat split. discriminate. Qed.

(** ** Calls issued, whatever the outcome *)

Lemma bind_inv {A B} (m : M A) (k : A -> M B) (w w' : world) (b : B) :
  bind m k w = (Ok b, w') ->
  exists a w1, m w = (Ok a, w1) /\ k a w1 = (Ok b, w').
Proof.
  unfold bind. destruct (m w) as [[a|e] w1]; [eauto | discriminate].
Qed.

Lemma transfers_app (a b : list call) : transfers (a ++ b) = transfers a ++ transfers b.
Proof. apply filter_app. Qed.

Ltac prim_calls :=
  unfold bind, issue, gets, set_root, ret, raise; cbn [root calls];
  repeat match goal with
         | |- context [match ?x with _ => _ end] => destruct x
         | |- context [if ?x then _ else _] => destruct x
         end;
  cbn [root calls snd]; reflexivity.

Lemma mkdir_parents_calls (p : path) (w : world) :
  calls (snd (mkdir_parents p w)) = calls w ++ [Mkdir p].
Proof. unfold mkdir_parents. prim_calls. Qed.

Lemma rmtree_calls (p : path) (w : world) :
  calls (snd (rmtree p w)) = calls w ++ [Rmtree p].
Proof. unfold rmtree. prim_calls. Qed.

Lemma unlink_calls (p : path) (w : world) :
  calls (snd (unlink p w)) = calls w ++ [Unlink p].
Proof. unfold unlink. prim_calls. Qed.

Lemma copytree_calls (s d : path) (w : world) :
  calls (snd (copytree s d w)) = calls w ++ [Copytree s d].
Proof. unfold copytree. prim_calls. Qed.

Lemma move_calls (s d : path) (w : world) :
  calls (snd (move s d w)) = calls w ++ [Move s d].
Proof. unfold move. prim_calls. Qed.

Lemma write_text_calls (p : path) (data : str) (w : world) :
  calls (snd (write_text p data w)) = calls w ++ [WriteText p data].
Proof. unfold write_text. prim_calls. Qed.

(** Clearing a target issues no copy and no move. *)
Lemma clear_target_transfers (t : path) (w : world) :
  transfers (calls (snd (clear_target t w))) = transfers (calls w).
Proof.
  unfold clear_target, bind at 1, gets at 1; cbn [root].
  destruct (exists_ (root w) t); [|reflexivity].
  unfold bind at 1, gets at 1; cbn [root].
  destruct (is_dir (root w) t).
  - now rewrite rmtree_calls, transfers_app, app_nil_r.
  - now rewrite unlink_calls, transfers_app, app_nil_r.
Qed.

Lemma for_each_transfers {A} (body : A -> M unit) (f : A -> list call) :
  (forall x w w', body x w = (Ok tt, w') ->
                  transfers (calls w') = transfers (calls w) ++ f x) ->
  forall xs w w', for_each xs body w = (Ok tt, w') ->
                  transfers (calls w') = transfers (calls w) ++ flat_map f xs.
Proof.
  intros Hbody. induction xs as [|x xs IH]; intros w w' H; simpl in *.
  - injection H as <-. now rewrite app_nil_r.
  - apply bind_inv in H. destruct H as ([] & w1 & H1 & H2).
    rewrite (IH _ _ H2), (Hbody _ _ _ H1). now rewrite app_assoc.
Qed.

Lemma copy_item_transfers (s t : path) (w w' : world) :
  (clear_target t ;; copytree s t) w = (Ok tt, w') ->
  transfers (calls w') = transfers (calls w) ++ [Copytree s t].
Proof.
  intros H. apply bind_inv in H. destruct H as ([] & w1 & H1 & H2).
  pose proof (clear_target_transfers t w) as Hc. rewrite H1 in Hc.
  pose proof (copytree_calls s t w1) as Hk. rewrite H2 in Hk.
  cbn [snd] in *. now rewrite Hk, transfers_app, Hc.
Qed.

Lemma move_item_transfers (s t : path) (w w' : world) :
  (clear_target t ;; move s t) w = (Ok tt, w') ->
  transfers (calls w') = transfers (calls w) ++ [Move s t].
Proof.
  intros H. apply bind_inv in H. destruct H as ([] & w1 & H1 & H2).
  pose proof (clear_target_transfers t w) as Hc. rewrite H1 in Hc.
  pose proof (move_calls s t w1) as Hk. rewrite H2 in Hk.
  cbn [snd] in *. now rewrite Hk, transfers_app, Hc.
Qed.

Lemma flat_map_singleton {A B} (f : A -> B) (l : list A) :
  flat_map (fun x => [f x]) l = map f l.
Proof. induction l; simpl; congruence. Qed.

(** A copy of a chunk that completes has issued one [copytree] for each item
    of the chunk's dictionary, in the dictionary's order. *)
Lemma copy_chunk_folders_transfers (cm : dict path) (dest_root : path)
    (chunk_name : str) (w w' : world) :
  copy_chunk_folders cm dest_root chunk_name w = (Ok tt, w') ->
  transfers (calls w')
  = transfers (calls w)
    ++ map (fun item => Copytree (snd item)
                          (joinpath (joinpath dest_root chunk_name) (fst item))) cm.
Proof.
  unfold copy_chunk_folders, dict_items. intros H.
  apply bind_inv in H. destruct H as ([] & w1 & H1 & H2).
  pose proof (mkdir_parents_calls (joinpath dest_root chunk_name) w) as Hm.
  rewrite H1 in Hm. cbn [snd] in Hm.
  rewrite <- flat_map_singleton.
  rewrite (for_each_transfers _ _ (fun x w0 w0' => copy_item_transfers _ _ w0 w0')
             _ _ _ H2).
  now rewrite Hm, transfers_app, app_nil_r.
Qed.

Lemma move_chunk_folders_transfers (cm : dict path) (dest_root : path)
    (chunk_name : str) (w w' : world) :
  move_chunk_folders cm dest_root chunk_name w = (Ok tt, w') ->
  transfers (calls w')
  = transfers (calls w)
    ++ map (fun item => Move (snd item)
                          (joinpath (joinpath dest_root chunk_name) (fst item))) cm.
Proof.
  unfold move_chunk_folders, dict_items. intros H.
  apply bind_inv in H. destruct H as ([] & w1 & H1 & H2).
  pose proof (mkdir_parents_calls (joinpath dest_root chunk_name) w) as Hm.
  rewrite H1 in Hm. cbn [snd] in Hm.
  rewrite <- flat_map_singleton.
  rewrite (for_each_transfers _ _ (fun x w0 w0' => move_item_transfers _ _ w0 w0')
             _ _ _ H2).
  now rewrite Hm, transfers_app, app_nil_r.
Qed.

(** ** The dictionary of a chunk *)

Section ChunkMapping.
Variable mapping : dict path.

Lemma dict_set_entry_seen (l : list str) (id_ : str) :
  existsb (str_eqb id_) l = true ->
  dict_set (map (entry mapping) l) id_ (folder_of mapping id_) = map (entry mapping) l.
Proof.
  induction l as [|a l IH]; simpl; [discriminate|].
  destruct (str_eqb id_ a) eqn:E.
  - apply str_eqb_eq in E. now subst.
  - simpl. intros H. now rewrite IH.
Qed.

Lemma dict_set_entry_new (l : list str) (id_ : str) :
  existsb (str_eqb id_) l = false ->
  dict_set (map (entry mapping) l) id_ (folder_of mapping id_) = map (entry mapping) (l ++ [id_]).
Proof.
  induction l as [|a l IH]; simpl; [reflexivity|].
  destruct (str_eqb id_ a) eqn:E; [discriminate|].
  simpl. intros H. now rewrite IH.
Qed.

Lemma existsb_app_one (k a : str) (l : list str) :
  existsb (str_eqb k) (l ++ [a]) = existsb (str_eqb k) (a :: l).
Proof. rewrite existsb_app. simpl. now destruct (str_eqb k a), (existsb (str_eqb k) l). Qed.

(** The comprehension keeps the first occurrence of each identifier. *)
Lemma chunk_mapping_of_distinct (ch : list str) (l seen : list str) (cm : dict path) :
  (forall k, existsb (str_eqb k) seen = existsb (str_eqb k) l) ->
  chunk_mapping_of mapping ch (map (entry mapping) l) = Ok cm ->
  cm = map (entry mapping) (l ++ distinct ch seen).
Proof.
  revert l seen; induction ch as [|id_ ch IH]; intros l seen Hseen; simpl.
  - intros [= <-]. now rewrite app_nil_r.
  - unfold dict_item. destruct (dict_get mapping id_) as [p|] eqn:Eg; [|discriminate].
    replace p with (folder_of mapping id_) by (unfold folder_of; now rewrite Eg).
    rewrite Hseen. destruct (existsb (str_eqb id_) l) eqn:E.
    + rewrite dict_set_entry_seen by assumption. now apply IH.
    + rewrite dict_set_entry_new by assumption. intros H.
      rewrite (IH (l ++ [id_]) (id_ :: seen)); [now rewrite <- app_assoc| |assumption].
      intros k. rewrite existsb_app_one. simpl. now rewrite Hseen.
Qed.
End ChunkMapping.

(** C5.  Duplicates stay in the chunks, but each chunk is turned into a
    dictionary keyed by identifier before it is processed: a processing loop
    that completes has issued, chunk after chunk, one copy (or move) for
    each distinct identifier of the chunk, in order of first occurrence.  An
    identifier in two chunks is applied once for each; an identifier twice
    in one chunk is applied once. *)
Theorem transfers_per_distinct_identifier (args : args_t) (mapping : dict path)
    (dest_root : path) (chunks : list (list str)) (w w' : world) :
  for_each (enumerate1 chunks) (process_chunk args mapping dest_root) w = (Ok tt, w') ->
  transfers (calls w')
  = transfers (calls w)
    ++ flat_map (expected_transfers args mapping dest_root) (enumerate1 chunks).
Proof.
  apply for_each_transfers. clear w w'. intros [idx ch] w w' H.
  unfold process_chunk in H. cbn [fst snd] in H.
  apply bind_inv in H. destruct H as (cm & w1 & H1 & H2).
  unfold lift in H1. injection H1 as H1 <-.
  apply (chunk_mapping_of_distinct mapping ch [] []) in H1; [|reflexivity].
  cbn [app] in H1. subst cm.
  unfold expected_transfers. cbn [fst snd].
  destruct (process_chunks args).
  - rewrite (move_chunk_folders_transfers _ _ _ _ _ H2). now rewrite map_map.
  - rewrite (copy_chunk_folders_transfers _ _ _ _ _ H2). now rewrite map_map.
  - rewrite (move_chunk_folders_transfers _ _ _ _ _ H2). now rewrite map_map.
Qed.

Lemma transfers_per_distinct_identifier_witness :
  let fs := Dir [ (lit "main", Dir [ (lit "A", Dir [(lit "a.txt", File (lit "aa"))]);
                                     (lit "B", Dir []) ]) ] in
  let args := Args (lit "main") (lit "ids.txt") None true 2 false FormatJson
                   (lit "chunk_") (lit "chunks") ProcessCopy (Some (lit "out")) false in
  let mapping := [(lit "A", [lit "main"; lit "A"]); (lit "B", [lit "main"; lit "B"])] in
  let chunks := [[lit "A"; lit "A"]; [lit "B"; lit "A"]] in
  let run := for_each (enumerate1 chunks) (process_chunk args mapping [lit "out"])
                      (World fs []) in
  transfers (calls (snd run))
  = transfers []
    ++ flat_map (expected_transfers args mapping [lit "out"]) (enumerate1 chunks).
Proof.
  intros fs args mapping chunks run.
  apply (transfers_per_distinct_identifier args mapping [lit "out"] chunks
           (World fs []) (snd run)).
  vm_compute. reflexivity.
Defined.

(** Two occurrences of an identifier in one chunk: the run copies once. *)
Lemma duplicate_in_chunk_counterexample :
  let fs := Dir [ (lit "ids.txt", File [65; 10; 65; 10]%N);
                  (lit "main", Dir [ (lit "A", Dir [(lit "a.txt", File (lit "aa"))]) ]) ] in
  let args := Args (lit "main") (lit "ids.txt") None true 2 false FormatJson
                   (lit "chunk_") (lit "chunks") ProcessCopy (Some (lit "out")) false in
  let w' := snd (main (fun _ => []) args (World fs [])) in
  fst (main (fun _ => []) args (World fs [])) = Ok tt
  /\ chunkify [lit "A"; lit "A"] 2 = Ok [[lit "A"; lit "A"]]
  /\ transfers (calls w')
     = [Copytree [lit "main"; lit "A"] [lit "out"; lit "chunk_1"; lit "A"]]
  /\ length (transfers (calls w')) <> length [lit "A"; lit "A"].
Proof. vm_compute. repeat split; discriminate. Qed.

(** The same two occurrences in two chunks: the run copies twice. *)
Example duplicate_across_chunks :
  let fs := Dir [ (lit "ids.txt", File [65; 10; 65; 10]%N);
                  (lit "main", Dir [ (lit "A", Dir [(lit "a.txt", File (lit "aa"))]) ]) ] in
  let args := Args (lit "main") (lit "ids.txt") None true 1 false FormatJson
                   (lit "chunk_") (lit "chunks") ProcessCopy (Some (lit "out")) false in
  main (fun _ => []) args (World fs [])
  = (Ok tt,
     World (Dir [ (lit "ids.txt", File [65; 10; 65; 10]%N);
                  (lit "main", Dir [ (lit "A", Dir [(lit "a.txt", File (lit "aa"))]) ]);
                  (lit "out", Dir [ (lit "chunk_1", Dir [ (lit "A", Dir [(lit "a.txt", File (lit "aa"))]) ]);
                                    (lit "chunk_2", Dir [ (lit "A", Dir [(lit "a.txt", File (lit "aa"))]) ]) ]) ])
           [Mkdir [lit "out"];
            Mkdir [lit "out"; lit "chunk_1"];
            Copytree [lit "main"; lit "A"] [lit "out"; lit "chunk_1"; lit "A"];
            Mkdir [lit "out"; lit "chunk_2"];
            Copytree [lit "main"; lit "A"] [lit "out"; lit "chunk_2"; lit "A"]]).
Proof. vm_compute. reflexivity. Qed.

(** ** The run *)

Lemma read_text_readonly (p : path) (w : world) : snd (read_text p w) = w.
Proof.
  unfold read_text, bind, gets, ret, raise; cbn [root].
  now destruct (lookup (root w) p) as [[|]|].
Qed.

Lemma load_ids_readonly (csv_rows : str -> list (list str)) (ids_path : str)
    (csv_column : option str) (w : world) :
  snd (load_ids csv_rows ids_path csv_column w) = w.
Proof.
  unfold load_ids, read_ids_from_txt, read_ids_from_csv.
  unfold bind at 1, gets at 1; cbn [root].
  destruct (exists_ (root w) (Path ids_path)); [|reflexivity]. cbn [negb].
  assert (Htxt : snd ((data <- read_text (Path ids_path) ;;
                       ret (stripped_nonempty (file_lines data))) w) = w).
  { unfold bind. pose proof (read_text_readonly (Path ids_path) w) as H.
    destruct (read_text (Path ids_path) w) as [[d|e] w1]; cbn [snd] in *; now subst. }
  destruct (str_eqb _ (lit ".txt")); [exact Htxt|].
  destruct (str_eqb _ (lit ".csv")); [|exact Htxt].
  unfold bind. pose proof (read_text_readonly (Path ids_path) w) as H.
  destruct (read_text (Path ids_path) w) as [[d|e] w1]; cbn [snd] in *; subst;
    [|reflexivity].
  destruct (csv_rows d) as [|[|f fs] rows]; reflexivity.
Qed.

Section Run.
Variables (fs : node) (src : path).

Lemma dict_get_records (l : list str) (m : dict path) (k : str) :
  dict_get (fold_left (record_folder src) l m) k
  = if existsb (str_eqb k) l then Some (joinpath src k) else dict_get m k.
Proof.
  revert m; induction l as [|a l IH]; intros m; simpl; [reflexivity|].
  rewrite IH. unfold record_folder.
  destruct (str_eqb k a) eqn:E; simpl.
  - apply str_eqb_eq in E. subst a. rewrite dict_get_set_same.
    now destruct (existsb (str_eqb k) l).
  - apply str_eqb_neq in E. now rewrite dict_get_set_other by congruence.
Qed.

(** Listing the files of the resolved folders succeeds and changes
    nothing. *)
Lemma list_all_run (mapping : dict path) (rec : bool) (cs : list call)
    (l : list str) :
  (forall id_, In id_ l ->
     exists p, dict_get mapping id_ = Some p /\ is_dir fs p = true) ->
  forall acc, exists dm,
    list_all mapping rec l acc (World fs cs) = (Ok dm, World fs cs).
Proof.
  induction l as [|id_ l IH]; intros Hl acc; simpl.
  - eexists. reflexivity.
  - destruct (Hl id_ (or_introl eq_refl)) as (p & Hp & Hex).
    unfold dict_item. rewrite Hp. unfold lift, bind at 1.
    unfold list_files_in_folder, bind at 1, gets at 1, bind at 1; cbn [root].
    unfold is_dir in Hex. destruct (lookup fs p) as [[|es]|]; try discriminate.
    unfold ret at 1. apply IH. intros i Hi. apply Hl. now right.
Qed.
End Run.

(** With identifiers loaded, a source that is a directory and a positive
    chunk size, the run comes to its chunks: what remains is to save them, to
    process them, and the aggregate file (which a positive size rules
    out). *)
Lemma main_reaches_chunks (csv_rows : str -> list (list str)) (args : args_t)
    (w : world) (ids_ : list str) (chunks : list (list str)) :
  fst (load_ids csv_rows (ids args) (csv_column args) w) = Ok ids_ ->
  ids_ <> [] ->
  is_dir (root w) (Path (source args)) = true ->
  0 < chunk_size args ->
  chunkify (filter (resolves (root w) (Path (source args))) ids_) (chunk_size args)
  = Ok chunks ->
  exists mapping,
    main csv_rows args w
    = (save_chunk_files args chunks ;; process_chunk_folders args mapping chunks) w.
Proof.
  intros Hload Hne Hsrc Hsize Hchunks.
  pose proof (load_ids_readonly csv_rows (ids args) (csv_column args) w) as Hro.
  destruct (load_ids csv_rows (ids args) (csv_column args) w) as [r w0] eqn:El.
  cbn [fst snd] in *. subst r w0.
  destruct w as [fs cs]. cbn [root] in *.
  set (src := Path (source args)) in *.
  set (mapping := fold_left (record_folder src)
                            (filter (resolves fs src) ids_) []).
  exists mapping.
  unfold main. run_with El.
  destruct ids_ as [|i0 ids_]; [congruence|].
  run_with (map_ids_to_folders_run fs src cs (source args) (i0 :: ids_) eq_refl Hsrc).
  cbn [fst]. fold mapping.
  assert (Hex : filter (dict_mem mapping) (i0 :: ids_)
                = filter (resolves fs src) (i0 :: ids_))
    by apply filter_mem_records.
  rewrite Hex.
  destruct (list_all_run fs mapping (recursive args) cs
              (filter (resolves fs src) (i0 :: ids_))) with (acc := @nil (str * list str))
    as [dm Hdm].
  { intros id_ Hin. apply filter_In in Hin. destruct Hin as [Hin Hres].
    exists (joinpath src id_). split.
    - unfold mapping. rewrite dict_get_records.
      replace (existsb (str_eqb id_) (filter (resolves fs src) (i0 :: ids_))) with true;
        [reflexivity|].
      symmetry. apply existsb_str_eqb_in, filter_In. now split.
    - unfold resolves in Hres. now apply andb_true_iff in Hres. }
  run_with Hdm.
  replace (negb (chunk_size args =? 0) && (chunk_size args >? 0)) with true.
  2:{ symmetry. apply andb_true_iff. split.
      - apply negb_true_iff, Z.eqb_neq. lia.
      - apply Z.gtb_lt. lia. }
  rewrite Hchunks.
  unfold save_full_mapping.
  replace (chunk_size args =? 0) with false by (symmetry; apply Z.eqb_neq; lia).
  rewrite andb_false_r. cbn [andb].
  unfold bind, lift, ret.
  destruct (save_chunk_files args chunks _) as [[[]|e] w1]; [|reflexivity].
  destruct (process_chunk_folders args mapping chunks w1) as [[[]|e] w2]; reflexivity.
Qed.

Lemma only_manifest_calls_refl (w : world) : only_manifest_calls w w.
Proof. exists []. now rewrite app_nil_r. Qed.

Lemma only_manifest_calls_trans (w1 w2 w3 : world) :
  only_manifest_calls w1 w2 -> only_manifest_calls w2 w3 -> only_manifest_calls w1 w3.
Proof.
  intros (c1 & E1 & F1) (c2 & E2 & F2). exists (c1 ++ c2). split.
  - now rewrite E2, E1, app_assoc.
  - now rewrite forallb_app, F1, F2.
Qed.

Lemma bind_only_manifest_calls {A B} (m : M A) (k : A -> M B) (w : world) :
  only_manifest_calls w (snd (m w)) ->
  (forall a w1, only_manifest_calls w1 (snd (k a w1))) ->
  only_manifest_calls w (snd (bind m k w)).
Proof.
  intros Hm Hk. unfold bind. destruct (m w) as [[a|e] w1]; cbn [snd] in *.
  - eapply only_manifest_calls_trans; [exact Hm | apply Hk].
  - exact Hm.
Qed.

Lemma mkdir_parents_manifest (p : path) (w : world) :
  only_manifest_calls w (snd (mkdir_parents p w)).
Proof. exists [Mkdir p]. split; [apply mkdir_parents_calls | reflexivity]. Qed.

Lemma write_text_manifest (p : path) (data : str) (w : world) :
  only_manifest_calls w (snd (write_text p data w)).
Proof. exists [WriteText p data]. split; [apply write_text_calls | reflexivity]. Qed.

Lemma save_chunk_file_manifest (args : args_t) (d : path) (ich : Z * list str)
    (w : world) :
  only_manifest_calls w (snd (save_chunk_file args d ich w)).
Proof.
  unfold save_chunk_file, save_chunk_json, save_chunk_text.
  destruct (chunk_format args); apply bind_only_manifest_calls;
    intros; auto using mkdir_parents_manifest, write_text_manifest.
Qed.

Lemma for_each_only_manifest_calls {A} (body : A -> M unit) (xs : list A) :
  (forall x w, only_manifest_calls w (snd (body x w))) ->
  forall w, only_manifest_calls w (snd (for_each xs body w)).
Proof.
  intros Hb. induction xs as [|x xs IH]; intros w; simpl.
  - apply only_manifest_calls_refl.
  - apply bind_only_manifest_calls; auto.
Qed.

Lemma save_chunk_files_manifest (args : args_t) (chunks : list (list str))
    (w : world) :
  only_manifest_calls w (snd (save_chunk_files args chunks w)).
Proof.
  unfold save_chunk_files.
  destruct (save_chunks args && negb (print_only args)).
  - apply bind_only_manifest_calls; [apply mkdir_parents_manifest|].
    intros _ w1. apply for_each_only_manifest_calls.
    intros. apply save_chunk_file_manifest.
  - apply only_manifest_calls_refl.
Qed.

Lemma process_without_destination (args : args_t) (mapping : dict path)
    (chunks : list (list str)) (w : world) :
  process_chunks args <> ProcessNone ->
  print_only args = false ->
  process_dest args = None \/ process_dest args = Some [] ->
  process_chunk_folders args mapping chunks w = (Raise MissingDestination, w).
Proof.
  intros Hmode Hpo Hdest. unfold process_chunk_folders. rewrite Hpo. cbn [negb].
  destruct (process_chunks args); [congruence| |];
    destruct Hdest as [-> | ->]; reflexivity.
Qed.

(** The part of [main] after the identifiers are loaded and found not
    empty. *)
Lemma main_unfold (csv_rows : str -> list (list str)) (args : args_t) (w : world)
    (ids_ : list str) :
  fst (load_ids csv_rows (ids args) (csv_column args) w) = Ok ids_ ->
  ids_ <> [] ->
  main csv_rows args w
  = (mm <- map_ids_to_folders (source args) ids_ ;;
     detailed_map <- list_all (fst mm) (recursive args)
                              (filter (dict_mem (fst mm)) ids_) [] ;;
     (if negb (chunk_size args =? 0) && (chunk_size args >? 0) then
        chunks <- lift (chunkify (filter (dict_mem (fst mm)) ids_) (chunk_size args)) ;;
        save_chunk_files args chunks ;;
        process_chunk_folders args (fst mm) chunks
      else ret tt) ;;
     save_full_mapping args detailed_map) w.
Proof.
  intros Hload Hne.
  pose proof (load_ids_readonly csv_rows (ids args) (csv_column args) w) as Hro.
  destruct (load_ids csv_rows (ids args) (csv_column args) w) as [r w0] eqn:El.
  cbn [fst snd] in *. subst r w0.
  unfold main. run_with El. destruct ids_; [congruence | reflexivity].
Qed.

Lemma main_load_cases (csv_rows : str -> list (list str)) (args : args_t) (w : world) :
  (exists e, fst (load_ids csv_rows (ids args) (csv_column args) w) = Raise e
             /\ main csv_rows args w = (Raise e, w))
  \/ (fst (load_ids csv_rows (ids args) (csv_column args) w) = Ok []
      /\ main csv_rows args w = (Ok tt, w))
  \/ (exists ids_, fst (load_ids csv_rows (ids args) (csv_column args) w) = Ok ids_
                   /\ ids_ <> []).
Proof.
  pose proof (load_ids_readonly csv_rows (ids args) (csv_column args) w) as Hro.
  destruct (load_ids csv_rows (ids args) (csv_column args) w) as [[l|e] w0] eqn:El;
    cbn [fst snd] in *; subst w0.
  - destruct l as [|x l].
    + right. left. split; [reflexivity|]. unfold main. now run_with El.
    + right. right. exists (x :: l). split; [reflexivity | discriminate].
  - left. exists e. split; [reflexivity|]. unfold main.
    now rewrite (bind_raise _ _ _ _ _ El).
Qed.

(** *** Where the destination is not looked at *)

Lemma bind_quiet {A B} (m : M A) (k : A -> M B) (w : world) :
  fst (m w) <> Raise MissingDestination ->
  (forall a w1, fst (k a w1) <> Raise MissingDestination) ->
  fst (bind m k w) <> Raise MissingDestination.
Proof.
  intros Hm Hk. unfold bind. destruct (m w) as [[a|e] w1]; [apply Hk|].
  cbn [fst] in *. intros E. apply Hm. injection E as ->. reflexivity.
Qed.

Lemma read_text_quiet (p : path) (w : world) :
  fst (read_text p w) <> Raise MissingDestination.
Proof.
  unfold read_text, bind, gets, ret, raise, MissingDestination; cbn [root].
  destruct (lookup (root w) p) as [[|]|]; discriminate.
Qed.

Lemma load_ids_quiet (csv_rows : str -> list (list str)) (ids_path : str)
    (csv_column : option str) (w : world) :
  fst (load_ids csv_rows ids_path csv_column w) <> Raise MissingDestination.
Proof.
  assert (Htxt : forall w1, fst (read_ids_from_txt (Path ids_path) w1)
                            <> Raise MissingDestination).
  { intros w1. unfold read_ids_from_txt.
    apply bind_quiet; [apply read_text_quiet | discriminate]. }
  unfold load_ids. apply bind_quiet; [discriminate|]. intros ex w1.
  destruct (negb ex); [unfold MissingDestination; discriminate|].
  destruct (str_eqb _ (lit ".txt")); [apply Htxt|].
  destruct (str_eqb _ (lit ".csv")); [|apply Htxt].
  unfold read_ids_from_csv. apply bind_quiet; [apply read_text_quiet|].
  intros data w2. destruct (csv_rows data) as [|[|f fs] rows]; discriminate.
Qed.

Lemma map_ids_to_folders_quiet (source_folder : str) (ids_ : list str) (w : world) :
  fst (map_ids_to_folders source_folder ids_ w) <> Raise MissingDestination.
Proof.
  unfold map_ids_to_folders, bind, gets, raise, MissingDestination; cbn [root].
  destruct (negb _ || negb _); discriminate.
Qed.

Lemma list_all_quiet (mapping : dict path) (rec : bool) (l : list str) :
  forall acc w, fst (list_all mapping rec l acc w) <> Raise MissingDestination.
Proof.
  induction l as [|id_ l IH]; intros acc w; [discriminate|].
  cbn [list_all]. apply bind_quiet.
  - unfold lift, dict_item, MissingDestination.
    destruct (dict_get mapping id_); discriminate.
  - intros folder w1. apply bind_quiet; [|intros; apply IH].
    unfold list_files_in_folder, bind, gets, ret, raise, MissingDestination; cbn [root].
    destruct (lookup (root w1) folder) as [[|]|]; destruct rec; discriminate.
Qed.

Lemma mkdir_parents_quiet (p : path) (w : world) :
  fst (mkdir_parents p w) <> Raise MissingDestination.
Proof.
  unfold mkdir_parents, bind, issue, gets, set_root, raise, MissingDestination;
    cbn [root calls].
  destruct (makedirs (root w) p); [discriminate|].
  destruct (is_file (root w) p); discriminate.
Qed.

Lemma write_text_quiet (p : path) (data : str) (w : world) :
  fst (write_text p data w) <> Raise MissingDestination.
Proof.
  unfold write_text, bind, issue, gets, set_root, raise, MissingDestination;
    cbn [root calls].
  destruct (is_dir (root w) p); [discriminate|].
  destruct (is_dir (root w) (parent p)).
  - destruct (put (root w) p (File data)); discriminate.
  - destruct (exists_ (root w) (parent p)); discriminate.
Qed.

Lemma for_each_quiet {A} (body : A -> M unit) (xs : list A) :
  (forall x w, fst (body x w) <> Raise MissingDestination) ->
  forall w, fst (for_each xs body w) <> Raise MissingDestination.
Proof.
  intros Hb. induction xs as [|x xs IH]; intros w; simpl; [discriminate|].
  apply bind_quiet; [apply Hb | intros; apply IH].
Qed.

Lemma save_chunk_files_quiet (args : args_t) (chunks : list (list str)) (w : world) :
  fst (save_chunk_files args chunks w) <> Raise MissingDestination.
Proof.
  unfold save_chunk_files.
  destruct (save_chunks args && negb (print_only args)); [|discriminate].
  apply bind_quiet; [apply mkdir_parents_quiet|]. intros _ w1.
  apply for_each_quiet. intros ich w2.
  unfold save_chunk_file, save_chunk_json, save_chunk_text.
  destruct (chunk_format args);
    (apply bind_quiet; [apply mkdir_parents_quiet | intros; apply write_text_quiet]).
Qed.

Lemma save_full_mapping_quiet (args : args_t) (dm : dict (list str)) (w : world) :
  fst (save_full_mapping args dm w) <> Raise MissingDestination.
Proof.
  unfold save_full_mapping.
  destruct (save_chunks args && (chunk_size args =? 0) && negb (print_only args));
    [|discriminate].
  apply bind_quiet; [apply mkdir_parents_quiet | intros; apply write_text_quiet].
Qed.

Lemma chunkify_quiet {A} (items : list A) (chunk_size : Z) (w : world) :
  fst (lift (chunkify items chunk_size) w) <> Raise MissingDestination.
Proof.
  unfold lift, chunkify, InvalidChunkSize, MissingDestination. cbn [fst].
  destruct (chunk_size <=? 0); discriminate.
Qed.

Lemma process_print_only (args : args_t) (mapping : dict path)
    (chunks : list (list str)) (w : world) :
  print_only args = true ->
  process_chunk_folders args mapping chunks w = (Ok tt, w).
Proof.
  intros H. unfold process_chunk_folders. rewrite H.
  now destruct (process_chunks args).
Qed.

Lemma chunking_off (args : args_t) :
  chunk_size args <= 0 ->
  negb (chunk_size args =? 0) && (chunk_size args >? 0) = false.
Proof.
  intros H. apply andb_false_iff. right.
  destruct (chunk_size args >? 0) eqn:E; [|reflexivity].
  apply Z.gtb_lt in E. lia.
Qed.

(** With no positive chunk size, or with print-only, [main] never raises
    [MissingDestination]. *)
Lemma main_quiet (csv_rows : str -> list (list str)) (args : args_t) (w : world) :
  chunk_size args <= 0 \/ print_only args = true ->
  fst (main csv_rows args w) <> Raise MissingDestination.
Proof.
  intros H.
  destruct (main_load_cases csv_rows args w)
    as [(e & He & ->) | [(_ & ->) | (ids_ & Hload & Hne)]].
  - cbn [fst]. intros E. injection E as ->.
    exact (load_ids_quiet csv_rows (ids args) (csv_column args) w He).
  - discriminate.
  - rewrite (main_unfold csv_rows args w ids_ Hload Hne).
    apply bind_quiet; [apply map_ids_to_folders_quiet|]. intros mm w1.
    apply bind_quiet; [apply list_all_quiet|]. intros dm w2.
    apply bind_quiet; [|intros; apply save_full_mapping_quiet].
    destruct (negb (chunk_size args =? 0) && (chunk_size args >? 0)) eqn:E;
      [|discriminate].
    destruct H as [H | H]; [rewrite (chunking_off args H) in E; discriminate|].
    apply bind_quiet; [apply chunkify_quiet|]. intros chunks w3.
    apply bind_quiet; [apply save_chunk_files_quiet|]. intros _ w4.
    now rewrite (process_print_only args _ _ _ H).
Qed.

Lemma bind_ext {A B} (m m' : M A) (k k' : A -> M B) (w : world) :
  m w = m' w -> (forall a w1, k a w1 = k' a w1) -> bind m k w = bind m' k' w.
Proof.
  intros Hm Hk. unfold bind. rewrite Hm.
  destruct (m' w) as [[a|e] w1]; [apply Hk | reflexivity].
Qed.

(** There the run is the same whatever the destination root is. *)
Lemma main_dest_unused (csv_rows : str -> list (list str)) (args : args_t)
    (w : world) (d : option str) :
  chunk_size args <= 0 \/ print_only args = true ->
  main csv_rows (with_dest args d) w = main csv_rows args w.
Proof.
  intros H. unfold main.
  apply bind_ext; [reflexivity|]. intros ids_ w1.
  destruct ids_ as [|i0 ids_]; [reflexivity|].
  apply bind_ext; [reflexivity|]. intros mm w2.
  apply bind_ext; [reflexivity|]. intros dm w3.
  apply bind_ext; [|reflexivity].
  change (chunk_size (with_dest args d)) with (chunk_size args).
  destruct (negb (chunk_size args =? 0) && (chunk_size args >? 0)) eqn:E;
    [|reflexivity].
  destruct H as [H | H]; [rewrite (chunking_off args H) in E; discriminate|].
  apply bind_ext; [reflexivity|]. intros chunks w4.
  apply bind_ext; [reflexivity|]. intros _ w5.
  rewrite (process_print_only args _ _ _ H).
  apply (process_print_only (with_dest args d)). exact H.
Qed.

(** C7.  A run in copy or move mode with no destination root.  When it
    comes to process its chunks (identifiers loaded, the source a directory,
    a positive chunk size, no print-only) it raises [MissingDestination]
    before it creates the destination or copies, moves or removes anything:
    the file system is then as the saving of manifests left it, and
    untouched when no manifests were asked for.  With a chunk size that is
    not positive, or with print-only, the destination is not looked at: the
    run never raises [MissingDestination] and is the same as with any
    destination root. *)
Theorem missing_destination_stops_processing (csv_rows : str -> list (list str))
    (args : args_t) (w : world) :
  process_chunks args <> ProcessNone ->
  process_dest args = None \/ process_dest args = Some [] ->
  (forall ids_,
     fst (load_ids csv_rows (ids args) (csv_column args) w) = Ok ids_ ->
     ids_ <> [] ->
     is_dir (root w) (Path (source args)) = true ->
     0 < chunk_size args ->
     print_only args = false ->
     exists chunks,
       chunkify (filter (resolves (root w) (Path (source args))) ids_) (chunk_size args)
       = Ok chunks
       /\ (save_chunks args = false ->
           main csv_rows args w = (Raise MissingDestination, w))
       /\ (forall w1, save_chunk_files args chunks w = (Ok tt, w1) ->
             main csv_rows args w = (Raise MissingDestination, w1)
             /\ only_manifest_calls w w1))
  /\ (chunk_size args <= 0 \/ print_only args = true ->
      fst (main csv_rows args w) <> Raise MissingDestination
      /\ forall d, main csv_rows (with_dest args d) w = main csv_rows args w).
Proof.
  intros Hmode Hdest. split.
  - intros ids_ Hload Hne Hsrc Hsize Hpo.
    pose proof (chunkify_windows
                  (filter (resolves (root w) (Path (source args))) ids_)
                  (chunk_size args) Hsize) as Hchunks.
    eexists. split; [exact Hchunks|].
    match type of Hchunks with _ = Ok ?c => set (chunks := c) in * end.
    destruct (main_reaches_chunks csv_rows args w ids_ chunks Hload Hne Hsrc Hsize Hchunks)
      as (mapping & Hmain).
    rewrite Hmain. split.
    + intros Hsave. unfold save_chunk_files. rewrite Hsave. cbn [andb].
      unfold bind, ret. now apply process_without_destination.
    + intros w1 Hw1. split.
      * run_with Hw1. now apply process_without_destination.
      * pose proof (save_chunk_files_manifest args chunks w) as H.
        now rewrite Hw1 in H.
  - intros H. split; [now apply main_quiet|].
    intros d. now apply main_dest_unused.
Qed.

Lemma missing_destination_stops_processing_witness :
  let fs := Dir [ (lit "ids.txt", File [65; 10; 66; 10]%N);
                  (lit "main", Dir [ (lit "A", Dir []); (lit "B", Dir []) ]) ] in
  let args := Args (lit "main") (lit "ids.txt") None true 1 true FormatText
                   (lit "chunk_") (lit "chunks") ProcessMove None false in
  let dry := with_dest
               (Args (lit "main") (lit "ids.txt") None true 1 true FormatText
                     (lit "chunk_") (lit "chunks") ProcessMove (Some (lit "out")) true)
               None in
  let csv := fun _ : str => @nil (list str) in
  (exists chunks,
     chunkify (filter (resolves fs (Path (lit "main"))) [lit "A"; lit "B"]) 1 = Ok chunks
     /\ (save_chunks args = false ->
         main csv args (World fs []) = (Raise MissingDestination, World fs []))
     /\ (forall w1, save_chunk_files args chunks (World fs []) = (Ok tt, w1) ->
           main csv args (World fs []) = (Raise MissingDestination, w1)
           /\ only_manifest_calls (World fs []) w1))
  /\ (fst (main csv dry (World fs [])) <> Raise MissingDestination
      /\ forall d, main csv (with_dest dry d) (World fs []) = main csv dry (World fs [])).
Proof.
  intros fs args dry csv. split.
  - apply (proj1 (missing_destination_stops_processing csv args (World fs [])
                    ltac:(discriminate) (or_introl eq_refl)) [lit "A"; lit "B"]).
    + reflexivity.
    + discriminate.
    + reflexivity.
    + reflexivity.
    + reflexivity.
  - apply (proj2 (missing_destination_stops_processing csv dry (World fs [])
                    ltac:(discriminate) (or_introl eq_refl))).
    right. reflexivity.
Defined.

(** Copy mode without a destination passes unnoticed when no chunking is
    asked for, and with chunking the manifests are written before the run
    fails. *)
Lemma missing_destination_counterexample :
  let fs := Dir [ (lit "ids.txt", File [65; 10]%N);
                  (lit "main", Dir [ (lit "A", Dir []) ]) ] in
  let csv := fun _ : str => @nil (list str) in
  let unchunked := Args (lit "main") (lit "ids.txt") None true 0 false FormatJson
                        (lit "chunk_") (lit "chunks") ProcessCopy None false in
  let saving := Args (lit "main") (lit "ids.txt") None true 1 true FormatText
                     (lit "chunk_") (lit "chunks") ProcessCopy None false in
  main csv unchunked (World fs []) = (Ok tt, World fs [])
  /\ fst (main csv saving (World fs [])) = Raise MissingDestination
  /\ lookup (root (snd (main csv saving (World fs [])))) [lit "chunks"; lit "chunk_1.text"]
     = Some (File [65; 10]%N)
  /\ lookup fs [lit "chunks"; lit "chunk_1.text"] = None.
Proof. vm_compute. repeat split. Qed.

(** ** Failing manifests *)

Lemma for_each_raise {A} (body : A -> M unit) (before after : list A) (x : A)
    (w w1 w2 : world) (e : exn) :
  for_each before body w = (Ok tt, w1) ->
  body x w1 = (Raise e, w2) ->
  for_each (before ++ x :: after) body w = (Raise e, w2).
Proof.
  revert w; induction before as [|b before IH]; intros w; simpl.
  - intros [= <-] Hx. now rewrite (bind_raise _ _ _ _ _ Hx).
  - intros H Hx. apply bind_inv in H. destruct H as ([] & w0 & H0 & H1).
    run_with H0. now apply IH.
Qed.

(** C6.  No failure of a manifest write is caught: when the write of one
    chunk's manifest raises, the run ends with that exception in the state
    the failure left.  The manifests of the earlier chunks stay written,
    those of the later chunks are not attempted, and no chunk is
    processed. *)
Theorem manifest_failure_aborts_run (csv_rows : str -> list (list str))
    (args : args_t) (w : world) (ids_ : list str) (chunks : list (list str))
    (before after : list (Z * list str)) (ich : Z * list str)
    (w1 w2 : world) (e : exn) :
  fst (load_ids csv_rows (ids args) (csv_column args) w) = Ok ids_ ->
  ids_ <> [] ->
  is_dir (root w) (Path (source args)) = true ->
  0 < chunk_size args ->
  save_chunks args = true ->
  print_only args = false ->
  chunkify (filter (resolves (root w) (Path (source args))) ids_) (chunk_size args)
  = Ok chunks ->
  enumerate1 chunks = before ++ ich :: after ->
  (mkdir_parents (Path (chunks_dir args)) ;;
   for_each before (save_chunk_file args (Path (chunks_dir args)))) w = (Ok tt, w1) ->
  save_chunk_file args (Path (chunks_dir args)) ich w1 = (Raise e, w2) ->
  main csv_rows args w = (Raise e, w2).
Proof.
  intros Hload Hne Hsrc Hsize Hsave Hpo Hchunks Hsplit Hbefore Hfail.
  destruct (main_reaches_chunks csv_rows args w ids_ chunks Hload Hne Hsrc Hsize Hchunks)
    as (mapping & ->).
  apply bind_raise. unfold save_chunk_files. rewrite Hsave, Hpo. cbn [andb negb].
  apply bind_inv in Hbefore. destruct Hbefore as ([] & w0 & Hmk & Hbefore).
  run_with Hmk. rewrite Hsplit.
  exact (for_each_raise _ before after ich w0 w1 w2 e Hbefore Hfail).
Qed.

Lemma manifest_failure_aborts_run_witness :
  let fs := Dir [ (lit "ids.txt", File [65; 10; 66; 10; 67; 10]%N);
                  (lit "main", Dir [ (lit "A", Dir []); (lit "B", Dir []); (lit "C", Dir []) ]);
                  (lit "chunks", Dir [ (lit "chunk_2.json", Dir []) ]) ] in
  let args := Args (lit "main") (lit "ids.txt") None true 1 true FormatJson
                   (lit "chunk_") (lit "chunks") ProcessCopy (Some (lit "out")) false in
  let csv := fun _ : str => @nil (list str) in
  let w1 := snd ((mkdir_parents (Path (lit "chunks")) ;;
                  for_each [(1, [lit "A"])] (save_chunk_file args (Path (lit "chunks"))))
                   (World fs [])) in
  let w2 := snd (save_chunk_file args (Path (lit "chunks")) (2, [lit "B"]) w1) in
  main csv args (World fs []) = (Raise IsADirectoryError, w2).
Proof.
  intros fs args csv w1 w2.
  apply (manifest_failure_aborts_run csv args (World fs []) [lit "A"; lit "B"; lit "C"]
           [[lit "A"]; [lit "B"]; [lit "C"]]
           [(1, [lit "A"])] [(3, [lit "C"])] (2, [lit "B"]) w1 w2 IsADirectoryError).
  - reflexivity.
  - discriminate.
  - reflexivity.
  - reflexivity.
  - reflexivity.
  - reflexivity.
  - reflexivity.
  - reflexivity.
  - vm_compute. reflexivity.
  - vm_compute. reflexivity.
Defined.

(** The second of three manifests cannot be written: the run raises, the
    third manifest is never written although nothing stands in its way, and
    nothing is copied. *)
Lemma manifest_failure_counterexample :
  let fs := Dir [ (lit "ids.txt", File [65; 10; 66; 10; 67; 10]%N);
                  (lit "main", Dir [ (lit "A", Dir []); (lit "B", Dir []); (lit "C", Dir []) ]);
                  (lit "chunks", Dir [ (lit "chunk_2.json", Dir []) ]) ] in
  let args := Args (lit "main") (lit "ids.txt") None true 1 true FormatJson
                   (lit "chunk_") (lit "chunks") ProcessCopy (Some (lit "out")) false in
  let csv := fun _ : str => @nil (list str) in
  let run := main csv args (World fs []) in
  fst run = Raise IsADirectoryError
  /\ is_file (root (snd run)) [lit "chunks"; lit "chunk_1.json"] = true
  /\ lookup (root (snd run)) [lit "chunks"; lit "chunk_3.json"] = None
  /\ fst (save_chunk_file args (Path (lit "chunks")) (3, [lit "C"]) (snd run)) = Ok tt
  /\ transfers (calls (snd run)) = [].
Proof. vm_compute. repeat split. Qed.

(** ** The scenarios of the specification

    A source with the directories [A], [B] and [C], one file in each, the
    identifiers [A, B, C, D] and chunks of two. *)

Example scenario_copy :
  let fs := Dir [ (lit "ids.txt", File [65; 10; 66; 10; 67; 10; 68; 10]%N);
                  (lit "src", Dir [ (lit "A", Dir [(lit "a", File (lit "1"))]);
                                    (lit "B", Dir [(lit "b", File (lit "2"))]);
                                    (lit "C", Dir [(lit "c", File (lit "3"))]) ]) ] in
  let args := Args (lit "src") (lit "ids.txt") None true 2 false FormatJson
                   (lit "chunk_") (lit "chunks") ProcessCopy (Some (lit "/tmp/out")) false in
  let run := main (fun _ => []) args (World fs []) in
  let out := [lit "tmp"; lit "out"] in
  fst run = Ok tt
  /\ fst (map_ids_to_folders (lit "src") [lit "A"; lit "B"; lit "C"; lit "D"] (World fs []))
     = Ok ([(lit "A", [lit "src"; lit "A"]); (lit "B", [lit "src"; lit "B"]);
            (lit "C", [lit "src"; lit "C"])], [lit "D"])
  /\ chunkify [lit "A"; lit "B"; lit "C"] 2 = Ok [[lit "A"; lit "B"]; [lit "C"]]
  /\ lookup (root (snd run)) (out ++ [lit "chunk_1"; lit "A"]) = Some (Dir [(lit "a", File (lit "1"))])
  /\ lookup (root (snd run)) (out ++ [lit "chunk_1"; lit "B"]) = Some (Dir [(lit "b", File (lit "2"))])
  /\ lookup (root (snd run)) (out ++ [lit "chunk_2"; lit "C"]) = Some (Dir [(lit "c", File (lit "3"))])
  /\ lookup (root (snd run)) [lit "src"] = lookup fs [lit "src"].
Proof. vm_compute. repeat split. Qed.

Example scenario_move :
  let fs := Dir [ (lit "ids.txt", File [65; 10; 66; 10; 67; 10; 68; 10]%N);
                  (lit "src", Dir [ (lit "A", Dir [(lit "a", File (lit "1"))]);
                                    (lit "B", Dir [(lit "b", File (lit "2"))]);
                                    (lit "C", Dir [(lit "c", File (lit "3"))]) ]) ] in
  let args := Args (lit "src") (lit "ids.txt") None true 2 false FormatJson
                   (lit "chunk_") (lit "chunks") ProcessMove (Some (lit "/tmp/out")) false in
  let run := main (fun _ => []) args (World fs []) in
  let out := [lit "tmp"; lit "out"] in
  fst run = Ok tt
  /\ lookup (root (snd run)) [lit "src"] = Some (Dir [])
  /\ lookup (root (snd run)) (out ++ [lit "chunk_1"; lit "A"]) = Some (Dir [(lit "a", File (lit "1"))])
  /\ lookup (root (snd run)) (out ++ [lit "chunk_1"; lit "B"]) = Some (Dir [(lit "b", File (lit "2"))])
  /\ lookup (root (snd run)) (out ++ [lit "chunk_2"; lit "C"]) = Some (Dir [(lit "c", File (lit "3"))]).
Proof. vm_compute. repeat split. Qed.

(** No chunk size and manifests asked for: one aggregate file. *)
Example scenario_aggregate :
  let fs := Dir [ (lit "ids.txt", File [65; 10; 66; 10]%N);
                  (lit "src", Dir [ (lit "A", Dir [(lit "a", File (lit "1"))]);
                                    (lit "B", Dir []) ]) ] in
  let args := Args (lit "src") (lit "ids.txt") None true 0 true FormatJson
                   (lit "chunk_") (lit "chunks") ProcessNone None false in
  let run := main (fun _ => []) args (World fs []) in
  fst run = Ok tt
  /\ calls (snd run)
     = [Mkdir [lit "chunks"];
        WriteText [lit "chunks"; lit "all_mapping.json"]
          (Json.dumps 2 (Json.JDict [ (lit "A", Json.JList [Json.JStr (lit "/src/A/a")]);
                                      (lit "B", Json.JList []) ]))].
Proof. vm_compute. repeat split. Qed.

(** ** The structured manifest *)

Module JsonFacts.
Import Json.
Local Open Scope N_scope.

(** A property of the control characters, checked on each of them. *)
Lemma control_cases (P : N -> bool) :
  forallb P (map N.of_nat (seq 0 32)) = true ->
  forall c, c < 32 -> P c = true.
Proof.
  intros H c Hc. rewrite forallb_forall in H. apply H.
  apply in_map_iff. exists (N.to_nat c). split; [lia|].
  apply in_seq. lia.
Qed.

Lemma decode_escape_u (c : char) :
  c < 32 ->
  decode_u4 (hex_digit (c / 4096 mod 16)) (hex_digit (c / 256 mod 16))
            (hex_digit (c / 16 mod 16)) (hex_digit (c mod 16)) = Some c.
Proof.
  intros Hc.
  pose proof (control_cases
    (fun c => match decode_u4 (hex_digit (c / 4096 mod 16)) (hex_digit (c / 256 mod 16))
                              (hex_digit (c / 16 mod 16)) (hex_digit (c mod 16)) with
              | Some x => x =? c
              | None => false
              end) eq_refl c Hc) as H.
  cbv beta in H.
  destruct (decode_u4 _ _ _ _) as [x|]; [|discriminate].
  apply N.eqb_eq in H. now subst.
Qed.

(** An escape [\uXXXX] below the surrogates decodes to its code point. *)
Lemma scan_u (h1 h2 h3 h4 c : char) (tail : str) :
  decode_u4 h1 h2 h3 h4 = Some c -> c < 55296 ->
  scanstring (BACKSLASH :: 117 :: h1 :: h2 :: h3 :: h4 :: tail)
  = cons_char c (scanstring tail).
Proof.
  intros Hd Hc. cbn [scanstring]. 
  change (BACKSLASH =? QUOTE) with false.
  change (BACKSLASH =? BACKSLASH) with true.
  change (117 =? 117) with true. cbv iota.
  rewrite Hd.
  replace (55296 <=? c) with false by (symmetry; apply N.leb_gt; lia).
  cbn [andb].
  destruct tail as [|b [|u [|g1 [|g2 [|g3 [|g4 s4]]]]]]; try reflexivity.
  destruct (decode_u4 g1 g2 g3 g4); reflexivity.
Qed.

(** Scanning what the encoder wrote for one character gives it back. *)
Lemma scan_escape_char (c : char) (tail : str) :
  scanstring (escape_char c ++ tail) = cons_char c (scanstring tail).
Proof.
  unfold escape_char.
  destruct (c =? BACKSLASH) eqn:E1; [apply N.eqb_eq in E1; now subst|].
  destruct (c =? QUOTE) eqn:E2; [apply N.eqb_eq in E2; now subst|].
  destruct (c =? 8) eqn:E3; [apply N.eqb_eq in E3; now subst|].
  destruct (c =? 12) eqn:E4; [apply N.eqb_eq in E4; now subst|].
  destruct (c =? 10) eqn:E5; [apply N.eqb_eq in E5; now subst|].
  destruct (c =? 13) eqn:E6; [apply N.eqb_eq in E6; now subst|].
  destruct (c =? 9) eqn:E7; [apply N.eqb_eq in E7; now subst|].
  destruct (c <? 32) eqn:E8.
  - apply N.ltb_lt in E8. unfold escape_u. cbn [app].
    apply scan_u; [now apply decode_escape_u | lia].
  - cbn [app scanstring]. now rewrite E2, E1, E8.
Qed.

Lemma scan_encoded (s : str) (rest : str) :
  scanstring (flat_map escape_char s ++ QUOTE :: rest) = Some (s, rest).
Proof.
  induction s as [|c s IH]; simpl.
  - reflexivity.
  - rewrite <- app_assoc, scan_escape_char, IH. reflexivity.
Qed.

Lemma array_body_cons (x : str) (xs : list str) (rest : str) :
  array_body (x :: xs) rest
  = QUOTE :: flat_map escape_char x
    ++ QUOTE :: match xs with
                | [] => LF :: RBRACKET :: rest
                | _ => COMMA :: LF :: SPACE :: SPACE :: array_body xs rest
                end.
Proof.
  unfold array_body. cbn [map join].
  destruct xs as [|y ys].
  - unfold encode_basestring. cbn. now rewrite <- app_assoc.
  - cbn [map]. unfold encode_basestring at 1. cbn [app].
    rewrite <- !app_assoc. reflexivity.
Qed.

Lemma skip_ws_comma (s : str) : skip_ws (COMMA :: s) = COMMA :: s.
Proof. reflexivity. Qed.

Lemma skip_ws_close (s : str) : skip_ws (LF :: RBRACKET :: s) = RBRACKET :: s.
Proof. reflexivity. Qed.

Lemma skip_ws_indent (items : list str) (x : str) (rest : str) :
  skip_ws (LF :: SPACE :: SPACE :: array_body (x :: items) rest)
  = array_body (x :: items) rest.
Proof. rewrite array_body_cons. reflexivity. Qed.

Lemma parse_items_array (xs : list str) :
  forall (x : str) (acc : list str) (rest : str) (fuel : nat),
    (length xs < fuel)%nat ->
    parse_items fuel (array_body (x :: xs) rest) acc = Some (acc ++ x :: xs, rest).
Proof.
  induction xs as [|y ys IH]; intros x acc rest fuel Hfuel;
    (destruct fuel as [|fuel]; [simpl in Hfuel; lia|]);
    rewrite array_body_cons; cbn [parse_items];
    change (QUOTE =? QUOTE) with true; cbv iota;
    rewrite scan_encoded.
  - rewrite skip_ws_close. reflexivity.
  - rewrite skip_ws_comma. cbv iota.
    change (COMMA =? RBRACKET) with false.
    change (COMMA =? COMMA) with true. cbv iota.
    rewrite skip_ws_indent.
    rewrite IH by (simpl in Hfuel; lia).
    now rewrite <- app_assoc.
Qed.

Lemma dumps_array (chunk : list str) :
  dumps 2 (JList (map JStr chunk))
  = match chunk with
    | [] => [LBRACKET; RBRACKET]
    | _ => LBRACKET :: LF :: SPACE :: SPACE :: array_body chunk []
    end.
Proof.
  destruct chunk as [|x xs]; [reflexivity|].
  unfold dumps, array_body. cbn [map encode].
  rewrite map_map. cbn [encode]. reflexivity.
Qed.

Lemma loads_dumps (chunk : list str) :
  loads (dumps 2 (JList (map JStr chunk))) = Some chunk.
Proof.
  rewrite dumps_array. destruct chunk as [|x xs]; [reflexivity|].
  unfold loads.
  replace (skip_ws (LBRACKET :: LF :: SPACE :: SPACE :: array_body (x :: xs) []))
    with (LBRACKET :: LF :: SPACE :: SPACE :: array_body (x :: xs) []) by reflexivity.
  change (LBRACKET =? LBRACKET) with true. cbv iota.
  replace (skip_ws (LF :: SPACE :: SPACE :: array_body (x :: xs) []))
    with (array_body (x :: xs) [])
    by (rewrite (array_body_cons x xs []); reflexivity).
  rewrite (array_body_cons x xs []) at 1.
  change (QUOTE =? RBRACKET) with false. cbv iota.
  rewrite <- (array_body_cons x xs []).
  rewrite (parse_items_array xs x [] []).
  - reflexivity.
  - cbn [length]. 
    assert (H : forall l r, (length l <= length (array_body l r))%nat).
    { induction l as [|a l IHl]; intros r; [simpl; lia|].
      rewrite array_body_cons. destruct l as [|b l].
      - cbn [length]. rewrite length_app. simpl. lia.
      - cbn [length]. rewrite length_app. cbn [length].
        specialize (IHl r). cbn [length] in IHl. lia. }
    specialize (H (x :: xs) []). cbn [length] in H. lia.
Qed.

Lemma no_cr_app (a b : str) : no_cr (a ++ b) = no_cr a && no_cr b.
Proof. apply forallb_app. Qed.

Lemma escape_char_no_cr (c : char) : no_cr (escape_char c) = true.
Proof.
  unfold escape_char.
  destruct (c =? BACKSLASH); [reflexivity|].
  destruct (c =? QUOTE); [reflexivity|].
  destruct (c =? 8); [reflexivity|].
  destruct (c =? 12); [reflexivity|].
  destruct (c =? 10); [reflexivity|].
  destruct (c =? 13) eqn:E; [reflexivity|].
  destruct (c =? 9); [reflexivity|].
  destruct (c <? 32) eqn:E8.
  - apply N.ltb_lt in E8.
    exact (control_cases (fun c => no_cr (escape_u c)) eq_refl c E8).
  - unfold no_cr. cbn [forallb]. unfold CR. now rewrite E.
Qed.

Lemma encode_basestring_no_cr (s : str) : no_cr (encode_basestring s) = true.
Proof.
  unfold encode_basestring. change (QUOTE :: ?x) with ([QUOTE] ++ x).
  rewrite !no_cr_app. cbn [andb].
  assert (H : no_cr (flat_map escape_char s) = true).
  { induction s as [|c s IH]; [reflexivity|]. cbn [flat_map].
    now rewrite no_cr_app, escape_char_no_cr, IH. }
  now rewrite H.
Qed.

Lemma array_body_no_cr (items : list str) : no_cr (array_body items []) = true.
Proof.
  unfold array_body. rewrite no_cr_app.
  apply andb_true_iff. split; [|reflexivity].
  induction items as [|x [|y ys] IH]; cbn [map join].
  - reflexivity.
  - apply encode_basestring_no_cr.
  - rewrite !no_cr_app, encode_basestring_no_cr. cbn [andb].
    exact IH.
Qed.

Lemma dumps_no_cr (chunk : list str) :
  no_cr (dumps 2 (JList (map JStr chunk))) = true.
Proof.
  rewrite dumps_array. destruct chunk as [|x xs]; [reflexivity|].
  change (LBRACKET :: LF :: SPACE :: SPACE :: ?b)
    with ([LBRACKET; LF; SPACE; SPACE] ++ b).
  now rewrite no_cr_app, array_body_no_cr.
Qed.

Lemma universal_newlines_no_cr (s : str) :
  no_cr s = true -> universal_newlines s = s.
Proof.
  induction s as [|c s IH]; [reflexivity|].
  unfold no_cr. cbn [forallb universal_newlines]. intros H.
  apply andb_true_iff in H. destruct H as [Hc Hs].
  unfold char_eqb. apply negb_true_iff in Hc. rewrite Hc.
  f_equal. now apply IH.
Qed.

(** A string of non-ASCII characters is written as it is, between quotes. *)
Lemma encode_basestring_verbatim (s : str) :
  Forall (fun c => 128 <= c) s -> encode_basestring s = QUOTE :: s ++ [QUOTE].
Proof.
  intros H. unfold encode_basestring. f_equal. f_equal.
  induction H as [|c s Hc _ IH]; [reflexivity|].
  cbn [flat_map]. rewrite IH. unfold escape_char.
  replace (c =? BACKSLASH) with false by (symmetry; apply N.eqb_neq; unfold BACKSLASH; lia).
  replace (c =? QUOTE) with false by (symmetry; apply N.eqb_neq; unfold QUOTE; lia).
  replace (c =? 8) with false by (symmetry; apply N.eqb_neq; lia).
  replace (c =? 12) with false by (symmetry; apply N.eqb_neq; lia).
  replace (c =? 10) with false by (symmetry; apply N.eqb_neq; lia).
  replace (c =? 13) with false by (symmetry; apply N.eqb_neq; lia).
  replace (c =? 9) with false by (symmetry; apply N.eqb_neq; lia).
  replace (c <? 32) with false by (symmetry; apply N.ltb_ge; lia).
  reflexivity.
Qed.
(** An escape is written in ASCII: what the encoder writes for a character
    holds the character itself when it is outside ASCII, and no character
    outside ASCII otherwise. *)
Lemma escape_char_non_ascii (c : char) :
  filter non_ascii (escape_char c) = if non_ascii c then [c] else [].
Proof.
  unfold escape_char.
  destruct (c =? BACKSLASH) eqn:E1; [apply N.eqb_eq in E1; now subst|].
  destruct (c =? QUOTE) eqn:E2; [apply N.eqb_eq in E2; now subst|].
  destruct (c =? 8) eqn:E3; [apply N.eqb_eq in E3; now subst|].
  destruct (c =? 12) eqn:E4; [apply N.eqb_eq in E4; now subst|].
  destruct (c =? 10) eqn:E5; [apply N.eqb_eq in E5; now subst|].
  destruct (c =? 13) eqn:E6; [apply N.eqb_eq in E6; now subst|].
  destruct (c =? 9) eqn:E7; [apply N.eqb_eq in E7; now subst|].
  destruct (c <? 32) eqn:E8.
  - apply N.ltb_lt in E8.
    replace (non_ascii c) with false
      by (symmetry; unfold non_ascii; apply N.leb_gt; lia).
    pose proof (control_cases
                  (fun c => match filter non_ascii (escape_u c) with
                            | [] => true
                            | _ => false
                            end) eq_refl c E8) as H.
    cbn beta in H. now destruct (filter non_ascii (escape_u c)).
  - cbn [filter]. now destruct (non_ascii c).
Qed.

Lemma escaped_non_ascii (s : str) :
  filter non_ascii (flat_map escape_char s) = filter non_ascii s.
Proof.
  induction s as [|c s IH]; [reflexivity|].
  cbn [flat_map filter]. rewrite filter_app, escape_char_non_ascii, IH.
  now destruct (non_ascii c).
Qed.

Lemma array_body_non_ascii (items : list str) :
  filter non_ascii (array_body items []) = concat (map (filter non_ascii) items).
Proof.
  induction items as [|x xs IH]; [reflexivity|].
  rewrite array_body_cons. cbn [map concat filter].
  change (non_ascii QUOTE) with false. cbn iota.
  rewrite filter_app, escaped_non_ascii. f_equal.
  cbn [filter]. change (non_ascii QUOTE) with false. cbn iota.
  destruct xs as [|y ys]; [reflexivity|]. exact IH.
Qed.

(** The characters outside ASCII of the document are those of the items,
    in order: none is replaced by an escape. *)
Lemma dumps_non_ascii (chunk : list str) :
  filter non_ascii (dumps 2 (JList (map JStr chunk)))
  = concat (map (filter non_ascii) chunk).
Proof.
  rewrite dumps_array. destruct chunk as [|x xs]; [reflexivity|].
  change (LBRACKET :: LF :: SPACE :: SPACE :: ?b)
    with ([LBRACKET; LF; SPACE; SPACE] ++ b).
  rewrite filter_app. exact (array_body_non_ascii (x :: xs)).
Qed.

Lemma escaped_as_is (s : str) :
  forallb needs_no_escape s = true -> flat_map escape_char s = s.
Proof.
  induction s as [|c s IH]; [reflexivity|].
  cbn [forallb flat_map]. intros H. apply andb_true_iff in H. destruct H as [Hc Hs].
  rewrite (IH Hs). unfold needs_no_escape in Hc.
  apply andb_true_iff in Hc. destruct Hc as [Hc Hb].
  apply andb_true_iff in Hc. destruct Hc as [Hc Hq].
  apply negb_true_iff in Hb, Hq. apply N.leb_le in Hc.
  unfold escape_char. rewrite Hb, Hq.
  replace (c =? 8) with false by (symmetry; apply N.eqb_neq; lia).
  replace (c =? 12) with false by (symmetry; apply N.eqb_neq; lia).
  replace (c =? 10) with false by (symmetry; apply N.eqb_neq; lia).
  replace (c =? 13) with false by (symmetry; apply N.eqb_neq; lia).
  replace (c =? 9) with false by (symmetry; apply N.eqb_neq; lia).
  replace (c <? 32) with false by (symmetry; apply N.ltb_ge; lia).
  reflexivity.
Qed.

Lemma array_body_holds (items : list str) (s : str) :
  In s items -> forallb needs_no_escape s = true ->
  exists pre post, array_body items [] = pre ++ QUOTE :: s ++ QUOTE :: post.
Proof.
  intros Hin Hs. induction items as [|x xs IH]; [destruct Hin|].
  rewrite array_body_cons. destruct Hin as [-> | Hin].
  - rewrite (escaped_as_is s Hs). exists []. eexists. reflexivity.
  - destruct (IH Hin) as (pre & post & E).
    destruct xs as [|y ys]; [destruct Hin|]. rewrite E.
    exists (QUOTE :: flat_map escape_char x
            ++ QUOTE :: COMMA :: LF :: SPACE :: SPACE :: pre), post.
    cbn [app]. rewrite <- app_assoc. reflexivity.
Qed.

(** An item with nothing to escape stands in the document as it is,
    between quotes. *)
Lemma dumps_holds (chunk : list str) (s : str) :
  In s chunk -> forallb needs_no_escape s = true ->
  exists pre post,
    dumps 2 (JList (map JStr chunk)) = pre ++ QUOTE :: s ++ QUOTE :: post.
Proof.
  intros Hin Hs. rewrite dumps_array.
  destruct chunk as [|x xs]; [destruct Hin|].
  destruct (array_body_holds (x :: xs) s Hin Hs) as (pre & post & E).
  rewrite E. exists (LBRACKET :: LF :: SPACE :: SPACE :: pre), post. reflexivity.
Qed.
End JsonFacts.

Lemma write_text_written (p : path) (data : str) (w w' : world) :
  write_text p data w = (Ok tt, w') -> lookup (root w') p = Some (File data).
Proof.
  unfold write_text, bind, issue, gets, set_root, raise; cbn [root calls].
  destruct (is_dir (root w) p); [discriminate|].
  destruct (is_dir (root w) (parent p)).
  - destruct (put (root w) p (File data)) as [fs'|] eqn:E; [|discriminate].
    intros [= <-]. cbn [root]. exact (lookup_put_same _ _ _ _ E).
  - destruct (exists_ (root w) (parent p)); discriminate.
Qed.

Lemma read_text_file (p : path) (data : str) (w : world) :
  lookup (root w) p = Some (File data) -> read_text p w = (Ok data, w).
Proof. intros H. unfold read_text, bind, gets, ret; cbn [root]. now rewrite H. Qed.

(** C9.  A chunk saved in the structured format is read back as it was:
    the file then holds the document the encoder wrote, and decoding what a
    text read of the file returns yields the identifiers of the chunk in
    order.  Characters outside ASCII are written as they are, in any string:
    those of the document are exactly those of the identifiers, in order, so
    none is replaced by an escape; and an identifier without control
    character, quote and backslash stands in the document unchanged, between
    quotes. *)
Theorem json_manifest_round_trip (chunk : list str) (out_path : path)
    (w w' : world) :
  save_chunk_json chunk out_path w = (Ok tt, w') ->
  exists data,
    read_text out_path w' = (Ok data, w')
    /\ data = Json.dumps 2 (Json.JList (map Json.JStr chunk))
    /\ Json.loads (file_read data) = Some chunk
    /\ filter non_ascii data = concat (map (filter non_ascii) chunk)
    /\ forall s, In s chunk -> forallb needs_no_escape s = true ->
         exists pre post, data = pre ++ QUOTE :: s ++ QUOTE :: post.
Proof.
  intros H. unfold save_chunk_json in H.
  apply bind_inv in H. destruct H as ([] & w1 & _ & H).
  apply write_text_written in H.
  eexists. split; [exact (read_text_file _ _ _ H)|].
  split; [reflexivity|]. split; [|split].
  - unfold file_read.
    rewrite (JsonFacts.universal_newlines_no_cr _ (JsonFacts.dumps_no_cr chunk)).
    apply JsonFacts.loads_dumps.
  - apply JsonFacts.dumps_non_ascii.
  - intros s Hin Hs. exact (JsonFacts.dumps_holds chunk s Hin Hs).
Qed.

Lemma json_manifest_round_trip_witness :
  let chunk := [lit "A"; [99; 97; 102; 233]%N; [233; 26085]%N; [34; 92; 10; 1; 233]%N] in
  let out_path := [lit "chunks"; lit "chunk_1.json"] in
  let w' := snd (save_chunk_json chunk out_path (World (Dir []) [])) in
  exists data,
    read_text out_path w' = (Ok data, w')
    /\ data = Json.dumps 2 (Json.JList (map Json.JStr chunk))
    /\ Json.loads (file_read data) = Some chunk
    /\ filter non_ascii data = concat (map (filter non_ascii) chunk)
    /\ forall s, In s chunk -> forallb needs_no_escape s = true ->
         exists pre post, data = pre ++ QUOTE :: s ++ QUOTE :: post.
Proof.
  intros chunk out_path w'.
  apply (json_manifest_round_trip chunk out_path (World (Dir []) []) w').
  vm_compute. reflexivity.
Defined.

Example json_manifest_text :
  Json.dumps 2 (Json.JList (map Json.JStr [lit "A"; [233; 26085]%N]))
  = [91; 10; 32; 32; 34; 65; 34; 44; 10; 32; 32; 34; 233; 26085; 34; 10; 93]%N.
Proof. reflexivity. Qed.

(** ** The line-delimited manifest *)

Lemma is_space_LF : is_space LF = true.
Proof. reflexivity. Qed.

Lemma lstrip_app_space (s : str) (c : char) :
  is_space c = true ->
  lstrip (s ++ [c]) = match lstrip s with
                      | [] => []
                      | r => r ++ [c]
                      end.
Proof.
  intros Hc. induction s as [|d s IH]; simpl.
  - now rewrite Hc.
  - destruct (is_space d); [exact IH | reflexivity].
Qed.

Lemma rstrip_app_space (s : str) (c : char) :
  is_space c = true -> rstrip (s ++ [c]) = rstrip s.
Proof.
  intros Hc. induction s as [|d s IH]; simpl.
  - now rewrite Hc.
  - now rewrite IH.
Qed.

Lemma strip_app_space (s : str) (c : char) :
  is_space c = true -> strip (s ++ [c]) = strip s.
Proof.
  intros Hc. unfold strip. rewrite (lstrip_app_space s c Hc).
  destruct (lstrip s) as [|d r] eqn:E; [reflexivity|].
  now apply rstrip_app_space.
Qed.

Lemma rstrip_cons (c : char) (s : str) :
  is_space c = false -> rstrip (c :: s) = c :: rstrip s.
Proof. intros Hc. simpl. rewrite Hc. now destruct (rstrip s). Qed.

Lemma rstrip_idem (s : str) : rstrip (rstrip s) = rstrip s.
Proof.
  induction s as [|c s IH]; [reflexivity|].
  cbn [rstrip]. destruct (rstrip s) as [|d r] eqn:E.
  - destruct (is_space c) eqn:Ec; [reflexivity|]. simpl. now rewrite Ec.
  - cbn [rstrip]. cbn [rstrip] in IH. now rewrite IH.
Qed.

Lemma lstrip_head (s : str) :
  lstrip s = [] \/ exists d t, lstrip s = d :: t /\ is_space d = false.
Proof.
  induction s as [|c s IH]; simpl; [now left|].
  destruct (is_space c) eqn:E; [exact IH|].
  right. eauto.
Qed.

Lemma strip_idem (s : str) : strip (strip s) = strip s.
Proof.
  unfold strip. destruct (lstrip_head s) as [-> | (d & t & -> & Hd)]; [reflexivity|].
  rewrite (rstrip_cons d t Hd). cbn [lstrip]. rewrite Hd.
  rewrite (rstrip_cons d _ Hd). now rewrite rstrip_idem.
Qed.

Lemma lstrip_incl (s : str) (c : char) : In c (lstrip s) -> In c s.
Proof.
  induction s as [|d s IH]; simpl; [tauto|].
  destruct (is_space d); [auto|]. simpl. tauto.
Qed.

Lemma rstrip_incl (s : str) (c : char) : In c (rstrip s) -> In c s.
Proof.
  induction s as [|d s IH]; simpl; [tauto|].
  destruct (rstrip s) as [|e r].
  - destruct (is_space d); simpl; tauto.
  - intros [->|H]; [now left | right; now apply IH].
Qed.

Lemma strip_incl (s : str) (c : char) : In c (strip s) -> In c s.
Proof. intros H. now apply lstrip_incl, rstrip_incl. Qed.

(** *** Lines *)

Lemma universal_newlines_no_cr_out (s : str) : no_cr (universal_newlines s) = true.
Proof.
  (* by strong induction: the function may skip two characters *)
  assert (H : forall n s, (length s <= n)%nat -> no_cr (universal_newlines s) = true).
  { clear s. induction n as [|n IH]; intros [|c s] Hlen; try reflexivity;
      simpl in Hlen; [lia|].
    cbn [universal_newlines]. unfold char_eqb.
    destruct (c =? CR)%N eqn:Ec.
    - destruct s as [|d s']; [reflexivity|].
      destruct (d =? LF)%N; cbn [no_cr forallb]; apply IH; simpl in *; lia.
    - unfold no_cr. cbn [forallb]. rewrite Ec. cbn [negb andb].
      apply IH. lia. }
  exact (H (length s) s (le_n _)).
Qed.

Lemma text_lines_shaped (t : str) : Forall line_shaped (text_lines t).
Proof.
  induction t as [|c t IH]; [constructor|].
  cbn [text_lines]. unfold char_eqb. destruct (c =? LF)%N eqn:Ec.
  - constructor; [|exact IH]. exists []. split; [now left | reflexivity].
  - destruct (text_lines t) as [|l ls].
    + constructor; [|constructor]. exists [c]. split; [now right|].
      cbn. now rewrite Ec.
    + inversion IH as [|? ? (body & Hb & Hn) Hls]; subst.
      constructor; [|exact Hls].
      exists (c :: body). split.
      * destruct Hb as [-> | ->]; [now left | now right].
      * cbn [forallb]. now rewrite Ec, Hn.
Qed.

Lemma text_lines_incl (t : str) (l : str) (c : char) :
  In l (text_lines t) -> In c l -> In c t.
Proof.
  revert l; induction t as [|d t IH]; intros l; [simpl; tauto|].
  cbn [text_lines]. unfold char_eqb. destruct (d =? LF)%N eqn:Ed.
  - intros [<- | Hl] Hc.
    + apply N.eqb_eq in Ed. destruct Hc as [Hc | []]. left. congruence.
    + right. eapply IH; eauto.
  - destruct (text_lines t) as [|l0 ls].
    + intros [<- | []] [<- | []]. now left.
    + intros [<- | Hl] Hc.
      * destruct Hc as [<- | Hc]; [now left|]. right. apply (IH l0); simpl; auto.
      * right. apply (IH l); simpl; auto.
Qed.

Lemma forallb_forall_in {A} (f : A -> bool) (l : list A) :
  forallb f l = true -> forall x, In x l -> f x = true.
Proof. intros H. now apply forallb_forall. Qed.

(** Whatever a file holds, the identifiers the loader returns are clean. *)
Lemma loaded_ids_clean (data : str) :
  Forall (fun s => clean_id s = true) (stripped_nonempty (file_lines data)).
Proof.
  apply Forall_forall. intros s Hs.
  unfold stripped_nonempty in Hs. apply filter_In in Hs. destruct Hs as [Hs Hne].
  apply in_map_iff in Hs. destruct Hs as (l & <- & Hl).
  unfold clean_id. rewrite Hne, strip_idem, str_eqb_refl. cbn [andb].
  unfold no_newline. apply forallb_forall. intros c Hc.
  apply andb_true_iff. split.
  - (* no line feed *)
    pose proof (text_lines_shaped (universal_newlines data)) as Hsh.
    rewrite Forall_forall in Hsh. destruct (Hsh l Hl) as (body & Hb & Hn).
    assert (Hin : In c body).
    { destruct Hb as [-> | ->].
      - rewrite (strip_app_space body LF is_space_LF) in Hc. now apply strip_incl.
      - now apply strip_incl. }
    exact (forallb_forall_in _ _ Hn c Hin).
  - (* no carriage return *)
    apply strip_incl in Hc.
    pose proof (text_lines_incl _ l c Hl Hc) as Hin.
    exact (forallb_forall_in _ _ (universal_newlines_no_cr_out data) c Hin).
Qed.

Lemma no_newline_cons (c : char) (s : str) :
  no_newline (c :: s) = true ->
  (c =? LF)%N = false /\ (c =? CR)%N = false /\ no_newline s = true.
Proof.
  unfold no_newline. cbn [forallb]. rewrite !andb_true_iff, !negb_true_iff. tauto.
Qed.

Lemma universal_newlines_line (x t : str) :
  no_newline x = true ->
  universal_newlines (x ++ LF :: t) = x ++ LF :: universal_newlines t.
Proof.
  induction x as [|c x IH]; intros Hx.
  - reflexivity.
  - apply no_newline_cons in Hx. destruct Hx as (_ & Hcr & Hx).
    cbn [app universal_newlines]. unfold char_eqb. rewrite Hcr.
    now rewrite (IH Hx).
Qed.

Lemma text_lines_line (x t : str) :
  no_newline x = true ->
  text_lines (x ++ LF :: t) = (x ++ [LF]) :: text_lines t.
Proof.
  induction x as [|c x IH]; intros Hx.
  - reflexivity.
  - apply no_newline_cons in Hx. destruct Hx as (Hlf & _ & Hx).
    cbn [app text_lines]. unfold char_eqb. rewrite Hlf.
    now rewrite (IH Hx).
Qed.

(** The text [save_chunk_text] writes *)
Lemma text_of_chunk_cons (x : str) (chunk : list str) :
  concat (map (fun item => item ++ [LF]) (x :: chunk))
  = x ++ LF :: concat (map (fun item => item ++ [LF]) chunk).
Proof. cbn [map concat]. now rewrite <- app_assoc. Qed.

Lemma clean_chunk_read_back (chunk : list str) :
  forallb clean_id chunk = true ->
  stripped_nonempty (file_lines (concat (map (fun item => item ++ [LF]) chunk)))
  = chunk.
Proof.
  induction chunk as [|x chunk IH]; [reflexivity|].
  cbn [forallb]. intros H. apply andb_true_iff in H. destruct H as [Hx Hc].
  unfold clean_id in Hx. apply andb_true_iff in Hx. destruct Hx as [Hx Hnl].
  apply andb_true_iff in Hx. destruct Hx as [Hne Hst].
  apply str_eqb_eq in Hst.
  rewrite text_of_chunk_cons. unfold file_lines.
  rewrite (universal_newlines_line x _ Hnl), (text_lines_line x _ Hnl).
  unfold stripped_nonempty. cbn [map filter].
  rewrite (strip_app_space x LF is_space_LF), Hst, Hne.
  f_equal. exact (IH Hc).
Qed.

(** *** The identifiers the format keeps, without the loader's code *)

Lemma whitespace_is_space (c : char) : whitespace c = is_space c.
Proof.
  apply eq_true_iff_eq. unfold whitespace. rewrite existsb_exists. split.
  - intros (x & Hx & E). apply N.eqb_eq in E. subst x.
    unfold whitespace_points in Hx.
    repeat (destruct Hx as [<- | Hx]; [reflexivity|]). destruct Hx.
  - intros H. exists c. split; [|apply N.eqb_refl].
    unfold is_space in H.
    rewrite !orb_true_iff, !andb_true_iff, !N.leb_le, !N.eqb_eq in H.
    unfold whitespace_points. cbn [In]. lia.
Qed.

Lemma lstrip_length (s : str) : (length (lstrip s) <= length s)%nat.
Proof.
  induction s as [|c s IH]; simpl; [lia|].
  destruct (is_space c); simpl; lia.
Qed.

Lemma rstrip_length (s : str) : (length (rstrip s) <= length s)%nat.
Proof.
  induction s as [|c s IH]; simpl; [lia|].
  destruct (rstrip s); [destruct (is_space c)|]; simpl in *; lia.
Qed.

Lemma rstrip_fixed (s : str) (d : char) :
  s <> [] -> (rstrip s = s <-> is_space (last s d) = false).
Proof.
  induction s as [|c s IH]; [congruence|]. intros _.
  destruct s as [|c' t].
  - simpl. destruct (is_space c); split; congruence.
  - specialize (IH ltac:(discriminate)).
    change (last (c :: c' :: t) d) with (last (c' :: t) d).
    rewrite <- IH. remember (c' :: t) as u eqn:Hu. cbn [rstrip].
    destruct (rstrip u) as [|e r] eqn:E.
    + subst u. split; [|discriminate]. destruct (is_space c); discriminate.
    + split; congruence.
Qed.

(** A text that is not empty is unchanged by [strip] exactly when neither
    its first nor its last character is white space. *)
Lemma strip_fixed (c : char) (s : str) :
  strip (c :: s) = c :: s
  <-> is_space c = false /\ is_space (last (c :: s) c) = false.
Proof.
  unfold strip. split.
  - intros H. destruct (is_space c) eqn:Ec.
    + exfalso. apply (f_equal (@length char)) in H.
      pose proof (rstrip_length (lstrip (c :: s))).
      pose proof (lstrip_length s).
      cbn [lstrip] in *. rewrite Ec in *. cbn [length] in H. lia.
    + split; [reflexivity|]. cbn [lstrip] in H. rewrite Ec in H.
      now apply (rstrip_fixed (c :: s) c).
  - intros [Hc Hl]. cbn [lstrip]. rewrite Hc.
    now apply (rstrip_fixed (c :: s) c).
Qed.

Lemma kept_by_lines_clean (s : str) : kept_by_lines s = clean_id s.
Proof.
  unfold kept_by_lines, clean_id. destruct s as [|c s]; [reflexivity|].
  rewrite !whitespace_is_space. cbn [str_eqb negb andb].
  f_equal. apply eq_true_iff_eq.
  rewrite str_eqb_eq, strip_fixed, andb_true_iff, !negb_true_iff. tauto.
Qed.

(** C10.  A chunk saved in the line-delimited format and loaded with the
    plain-line loader comes back as it was when every identifier is not
    empty, has no white space at either end and holds no line terminator;
    for any other chunk what the loader returns differs from the chunk,
    since it strips each line and drops the lines that become empty.  The
    condition is spelled out on the characters of the identifiers, white
    space being given code point by code point. *)
Theorem text_manifest_round_trip (chunk : list str) (out_path : path)
    (w w' : world) :
  save_chunk_text chunk out_path w = (Ok tt, w') ->
  exists loaded,
    read_ids_from_txt out_path w' = (Ok loaded, w')
    /\ (forallb kept_by_lines chunk = true -> loaded = chunk)
    /\ (forallb kept_by_lines chunk = false -> loaded <> chunk).
Proof.
  intros H. unfold save_chunk_text in H.
  apply bind_inv in H. destruct H as ([] & w1 & _ & H).
  apply write_text_written in H.
  assert (Hk : forallb kept_by_lines chunk = forallb clean_id chunk).
  { clear. induction chunk as [|x chunk IH]; [reflexivity|].
    cbn [forallb]. now rewrite kept_by_lines_clean, IH. }
  rewrite Hk.
  eexists. split; [|split].
  - unfold read_ids_from_txt. run_with (read_text_file _ _ _ H). reflexivity.
  - apply clean_chunk_read_back.
  - intros Hbad Heq.
    pose proof (loaded_ids_clean (concat (map (fun item => item ++ [LF]) chunk))) as Hc.
    rewrite Heq in Hc. rewrite Forall_forall in Hc.
    assert (Hall : forallb clean_id chunk = true)
      by (apply forallb_forall; exact Hc).
    congruence.
Qed.

Lemma text_manifest_round_trip_witness :
  let chunk := [lit "A"; [233; 26085]%N; lit "with space"] in
  let out_path := [lit "chunks"; lit "chunk_1.text"] in
  let w' := snd (save_chunk_text chunk out_path (World (Dir []) [])) in
  exists loaded,
    read_ids_from_txt out_path w' = (Ok loaded, w')
    /\ (forallb kept_by_lines chunk = true -> loaded = chunk)
    /\ (forallb kept_by_lines chunk = false -> loaded <> chunk).
Proof.
  intros chunk out_path w'.
  apply (text_manifest_round_trip chunk out_path (World (Dir []) []) w').
  vm_compute. reflexivity.
Defined.

(** Identifiers the format does not keep: leading white space is stripped,
    an identifier of white space is dropped, and a carriage return inside an
    identifier splits it. *)
Example text_manifest_losses :
  stripped_nonempty (file_lines (concat (map (fun item => item ++ [LF])
     [lit " A"; lit "  "; [66; 13; 67]%N])))
  = [lit "A"; lit "B"; lit "C"].
Proof. reflexivity. Qed.

(** * Further properties *)

(** ** The loaders *)

Lemma stripped_nonempty_tidy (vals : list str) :
  Forall tidy (stripped_nonempty vals).
Proof.
  apply Forall_forall. intros s Hs. unfold stripped_nonempty in Hs.
  apply filter_In in Hs. destruct Hs as [Hs Hne].
  apply in_map_iff in Hs. destruct Hs as (v & <- & _). split.
  - apply negb_true_iff, str_eqb_neq in Hne. exact Hne.
  - apply strip_idem.
Qed.

Lemma read_text_inv (p : path) (w w' : world) (data : str) :
  read_text p w = (Ok data, w') ->
  lookup (root w) p = Some (File data) /\ w' = w.
Proof.
  unfold read_text, bind, gets, ret, raise; cbn [root].
  destruct (lookup (root w) p) as [[d|es]|]; try discriminate.
  intros [= -> ->]. now split.
Qed.

(** X1.  Loading a plain-line file succeeds, leaves the file system as it
    is, and returns only identifiers that are not empty, are unchanged by
    [strip] and hold no line terminator. *)
Theorem read_ids_from_txt_clean (p : path) (w : world) (data : str) :
  lookup (root w) p = Some (File data) ->
  exists ids_,
    read_ids_from_txt p w = (Ok ids_, w)
    /\ Forall (fun s => clean_id s = true) ids_.
Proof.
  intros H. eexists. split.
  - unfold read_ids_from_txt. run_with (read_text_file _ _ _ H). reflexivity.
  - apply loaded_ids_clean.
Qed.

Lemma read_ids_from_txt_clean_witness :
  let w := World (Dir [(lit "ids.txt", File [32; 65; 32; 13; 10; 10; 66]%N)]) [] in
  exists ids_,
    read_ids_from_txt [lit "ids.txt"] w = (Ok ids_, w)
    /\ Forall (fun s => clean_id s = true) ids_.
Proof.
  intros w.
  apply (read_ids_from_txt_clean [lit "ids.txt"] w [32; 65; 32; 13; 10; 10; 66]%N).
  reflexivity.
Defined.

Lemma universal_newlines_crlf_line (x t : str) :
  no_newline x = true ->
  universal_newlines (x ++ [CR; LF] ++ t) = x ++ LF :: universal_newlines t.
Proof.
  induction x as [|c x IH]; intros Hx.
  - reflexivity.
  - apply no_newline_cons in Hx. destruct Hx as (_ & Hcr & Hx).
    cbn [app universal_newlines]. unfold char_eqb. rewrite Hcr.
    f_equal. exact (IH Hx).
Qed.

Lemma lines_of_text (ls : list str) :
  forallb no_newline ls = true ->
  file_lines (text_of_lines [LF] ls) = map (fun l => l ++ [LF]) ls
  /\ file_lines (text_of_lines [CR; LF] ls) = map (fun l => l ++ [LF]) ls.
Proof.
  unfold file_lines, text_of_lines.
  induction ls as [|l ls IH]; [now split|].
  cbn [forallb map concat]. intros H. apply andb_true_iff in H.
  destruct H as [Hl Hls]. destruct (IH Hls) as [IH1 IH2]. split.
  - rewrite <- app_assoc. cbn [app].
    rewrite (universal_newlines_line l _ Hl), (text_lines_line l _ Hl).
    now rewrite IH1.
  - rewrite <- app_assoc.
    rewrite (universal_newlines_crlf_line l _ Hl), (text_lines_line l _ Hl).
    now rewrite IH2.
Qed.

Lemma stripped_nonempty_lines (ls : list str) :
  stripped_nonempty (map (fun l => l ++ [LF]) ls) = stripped_nonempty ls.
Proof.
  unfold stripped_nonempty. rewrite map_map. f_equal.
  apply map_ext. intros l. exact (strip_app_space l LF is_space_LF).
Qed.

(** X2.  A plain-line file gives the same identifiers whether its lines end
    in ["\n"] or in ["\r\n"]: the stripped lines that are not empty, in
    order. *)
Theorem read_ids_from_txt_line_endings (p : path) (w : world) (ls : list str)
    (term : str) :
  forallb no_newline ls = true ->
  term = [LF] \/ term = [CR; LF] ->
  lookup (root w) p = Some (File (text_of_lines term ls)) ->
  read_ids_from_txt p w = (Ok (stripped_nonempty ls), w).
Proof.
  intros Hls Hterm H. unfold read_ids_from_txt.
  run_with (read_text_file _ _ _ H). unfold ret.
  destruct (lines_of_text ls Hls) as [H1 H2].
  destruct Hterm as [-> | ->]; [rewrite H1 | rewrite H2];
    now rewrite stripped_nonempty_lines.
Qed.

Lemma read_ids_from_txt_line_endings_witness :
  let ls := [lit "A"; lit "  "; lit " B "] in
  let w := World (Dir [(lit "ids.txt", File (text_of_lines [CR; LF] ls))]) [] in
  read_ids_from_txt [lit "ids.txt"] w = (Ok (stripped_nonempty ls), w).
Proof.
  intros ls w.
  apply (read_ids_from_txt_line_endings [lit "ids.txt"] w ls [CR; LF]).
  - reflexivity.
  - right. reflexivity.
  - reflexivity.
Defined.

Lemma read_ids_from_txt_shape (p : path) (w w' : world) (ids_ : list str) :
  read_ids_from_txt p w = (Ok ids_, w') ->
  exists vals, ids_ = stripped_nonempty vals.
Proof.
  unfold read_ids_from_txt. intros H. apply bind_inv in H.
  destruct H as (data & w1 & _ & H). injection H as <- _. eauto.
Qed.

Lemma read_ids_from_csv_shape (csv_rows : str -> list (list str)) (p : path)
    (column : option str) (w w' : world) (ids_ : list str) :
  read_ids_from_csv csv_rows p column w = (Ok ids_, w') ->
  exists vals, ids_ = stripped_nonempty vals.
Proof.
  unfold read_ids_from_csv. intros H. apply bind_inv in H.
  destruct H as (data & w1 & _ & H).
  destruct (csv_rows data) as [|[|f fs] rows]; injection H as <- _; eauto.
  exists []. reflexivity.
Qed.

(** X3.  Whatever the format, every identifier [load_ids] returns is not
    empty and is unchanged by [strip]. *)
Theorem load_ids_tidy (csv_rows : str -> list (list str)) (ids_path : str)
    (csv_column : option str) (w : world) (ids_ : list str) :
  fst (load_ids csv_rows ids_path csv_column w) = Ok ids_ ->
  Forall tidy ids_.
Proof.
  destruct (load_ids csv_rows ids_path csv_column w) as [r w'] eqn:E.
  cbn [fst]. intros ->. unfold load_ids in E.
  apply bind_inv in E. destruct E as (ex & w1 & _ & E).
  destruct (negb ex); [discriminate|].
  assert (H : exists vals, ids_ = stripped_nonempty vals).
  { destruct (str_eqb _ (lit ".txt"));
      [exact (read_ids_from_txt_shape _ _ _ _ E)|].
    destruct (str_eqb _ (lit ".csv")).
    - exact (read_ids_from_csv_shape _ _ _ _ _ _ E).
    - exact (read_ids_from_txt_shape _ _ _ _ E). }
  destruct H as [vals ->]. apply stripped_nonempty_tidy.
Qed.

Lemma load_ids_tidy_witness :
  Forall tidy [lit "id"; lit "x"].
Proof.
  apply (load_ids_tidy
           (fun _ => [[lit "id"; lit "n"]; [lit " id "; lit "1"]; []; [lit ""; lit "2"];
                      [lit "x "]])
           (lit "ids.CSV") (Some (lit "id"))
           (World (Dir [(lit "ids.CSV", File (lit "unused"))]) [])).
  reflexivity.
Defined.

(** X4.  [load_ids] only reads: the file system and the calls issued are
    as before, whatever it returns; and it raises [FileNotFoundError] when
    the path does not exist. *)
Theorem load_ids_read_only (csv_rows : str -> list (list str)) (ids_path : str)
    (csv_column : option str) (w : world) :
  snd (load_ids csv_rows ids_path csv_column w) = w
  /\ (exists_ (root w) (Path ids_path) = false ->
      fst (load_ids csv_rows ids_path csv_column w) = Raise FileNotFoundError).
Proof.
  split; [apply load_ids_readonly|].
  intros H. unfold load_ids. run_gets. now rewrite H.
Qed.

(** X5.  A column the header of a CSV file does not have is not an error:
    the loader silently reads the first column, as it does when no column is
    asked for. *)
Theorem read_ids_from_csv_unknown_column (csv_rows : str -> list (list str))
    (p : path) (column : str) (w : world) (data : str) :
  lookup (root w) p = Some (File data) ->
  existsb (str_eqb column) (hd [] (csv_rows data)) = false ->
  read_ids_from_csv csv_rows p (Some column) w
  = read_ids_from_csv csv_rows p None w.
Proof.
  intros H Hc. unfold read_ids_from_csv.
  rewrite !(bind_ok _ _ _ _ _ (read_text_file _ _ _ H)).
  destruct (csv_rows data) as [|[|f fs] rows]; try reflexivity.
  cbn [hd] in Hc. rewrite Hc. now rewrite andb_false_r.
Qed.

Lemma read_ids_from_csv_unknown_column_witness :
  let csv := fun _ : str => [[lit "id"; lit "n"]; [lit "a"; lit "1"]; [lit "b"; lit "2"]] in
  let w := World (Dir [(lit "ids.csv", File (lit "unused"))]) [] in
  read_ids_from_csv csv [lit "ids.csv"] (Some (lit "name")) w
  = read_ids_from_csv csv [lit "ids.csv"] None w.
Proof.
  intros csv w.
  apply (read_ids_from_csv_unknown_column csv [lit "ids.csv"] (lit "name") w (lit "unused")).
  - reflexivity.
  - reflexivity.
Defined.

Lemma load_ids_read_only_witness :
  let w := World (Dir []) [] in
  snd (load_ids (fun _ => []) (lit "ids.txt") None w) = w
  /\ (exists_ (root w) (Path (lit "ids.txt")) = false ->
      fst (load_ids (fun _ => []) (lit "ids.txt") None w) = Raise FileNotFoundError).
Proof.
  intros w. apply (load_ids_read_only (fun _ => []) (lit "ids.txt") None w).
Defined.

(** ** The resolver *)

Lemma resolves_is_dir (fs : node) (src : path) (id_ : str) :
  resolves fs src id_ = is_dir fs (joinpath src id_).
Proof.
  unfold resolves. destruct (is_dir fs (joinpath src id_)) eqn:E.
  - now rewrite (is_dir_exists _ _ E).
  - apply andb_false_r.
Qed.

Lemma map_ids_to_folders_readonly (source_folder : str) (ids_ : list str) (w : world) :
  snd (map_ids_to_folders source_folder ids_ w) = w.
Proof.
  unfold map_ids_to_folders, bind, gets, raise; cbn [root].
  now destruct (negb _ || negb _).
Qed.

(** X7.  What the resolver returns for a source that is a directory: every
    entry of the dictionary maps an identifier of the input to the existing
    directory of that name under the source; the missing identifiers are
    those of the input that name no directory there, among them every
    identifier that names a file; and no identifier is both mapped and
    missing. *)
Theorem map_ids_to_folders_classifies (source_folder : str) (ids_ : list str)
    (w : world) :
  is_dir (root w) (Path source_folder) = true ->
  exists mapping missing,
    map_ids_to_folders source_folder ids_ w = (Ok (mapping, missing), w)
    /\ (forall id_ p, dict_get mapping id_ = Some p ->
          In id_ ids_ /\ p = joinpath (Path source_folder) id_
          /\ is_dir (root w) p = true)
    /\ (forall id_, In id_ missing <->
          In id_ ids_ /\ is_dir (root w) (joinpath (Path source_folder) id_) = false)
    /\ (forall id_, In id_ ids_ ->
          is_file (root w) (joinpath (Path source_folder) id_) = true ->
          In id_ missing)
    /\ (forall id_, In id_ missing -> dict_get mapping id_ = None).
Proof.
  intros Hd. destruct w as [fs cs]. cbn [root] in *.
  set (src := Path source_folder) in *.
  do 2 eexists. split.
  { exact (map_ids_to_folders_run fs src cs source_folder ids_ eq_refl Hd). }
  assert (Hmiss : forall id_,
            In id_ (filter (fun i => negb (resolves fs src i)) ids_)
            <-> In id_ ids_ /\ is_dir fs (joinpath src id_) = false).
  { intros id_. rewrite filter_In, resolves_is_dir, negb_true_iff. tauto. }
  assert (Hget : forall id_,
            dict_get (fold_left (record_folder src) (filter (resolves fs src) ids_) []) id_
            = if existsb (str_eqb id_) (filter (resolves fs src) ids_)
              then Some (joinpath src id_) else None).
  { intros id_. now rewrite dict_get_records. }
  repeat split.
  - rewrite Hget in H.
    destruct (existsb _ _) eqn:E; [|discriminate].
    apply existsb_str_eqb_in, filter_In in E. tauto.
  - rewrite Hget in H. destruct (existsb _ _); now inversion H.
  - rewrite Hget in H.
    destruct (existsb _ _) eqn:E; [|discriminate].
    apply existsb_str_eqb_in, filter_In in E. destruct E as [_ E].
    rewrite resolves_is_dir in E. now inversion H; subst.
  - apply Hmiss in H. tauto.
  - apply Hmiss in H. tauto.
  - intros H. now apply Hmiss.
  - intros id_ Hin Hf. apply Hmiss. split; [assumption|].
    unfold is_file in Hf. unfold is_dir.
    destruct (lookup fs (joinpath src id_)) as [[|]|]; congruence.
  - intros id_ H. apply Hmiss in H. destruct H as [_ H].
    rewrite Hget. destruct (existsb _ _) eqn:E; [|reflexivity].
    apply existsb_str_eqb_in, filter_In in E. destruct E as [_ E].
    rewrite resolves_is_dir in E. congruence.
Qed.

Lemma map_ids_to_folders_classifies_witness :
  let w := World (Dir [ (lit "main", Dir [ (lit "A", Dir []); (lit "D", File (lit "x")) ]) ]) [] in
  let ids_ := [lit "A"; lit "D"; lit "E"; lit "A"] in
  exists mapping missing,
    map_ids_to_folders (lit "main") ids_ w = (Ok (mapping, missing), w)
    /\ (forall id_ p, dict_get mapping id_ = Some p ->
          In id_ ids_ /\ p = joinpath (Path (lit "main")) id_
          /\ is_dir (root w) p = true)
    /\ (forall id_, In id_ missing <->
          In id_ ids_ /\ is_dir (root w) (joinpath (Path (lit "main")) id_) = false)
    /\ (forall id_, In id_ ids_ ->
          is_file (root w) (joinpath (Path (lit "main")) id_) = true ->
          In id_ missing)
    /\ (forall id_, In id_ missing -> dict_get mapping id_ = None).
Proof.
  intros w ids_.
  apply (map_ids_to_folders_classifies (lit "main") ids_ w).
  reflexivity.
Defined.

Section Keyed.
Context {V : Type} (g : str -> V).

Lemma dict_set_keyed_seen (l : list str) (k : str) :
  existsb (str_eqb k) l = true ->
  dict_set (map (keyed g) l) k (g k) = map (keyed g) l.
Proof.
  induction l as [|a l IH]; simpl; [discriminate|].
  destruct (str_eqb k a) eqn:E.
  - apply str_eqb_eq in E. now subst.
  - simpl. intros H. now rewrite IH.
Qed.

Lemma dict_set_keyed_new (l : list str) (k : str) :
  existsb (str_eqb k) l = false ->
  dict_set (map (keyed g) l) k (g k) = map (keyed g) (l ++ [k]).
Proof.
  induction l as [|a l IH]; simpl; [reflexivity|].
  destruct (str_eqb k a) eqn:E; [discriminate|].
  simpl. intros H. now rewrite IH.
Qed.

(** Assigning the keys of [l] one after the other keeps each key at the
    place of its first assignment. *)
Lemma fold_set_keyed (l : list str) :
  forall l0 seen,
    (forall k, existsb (str_eqb k) seen = existsb (str_eqb k) l0) ->
    fold_left (fun m k => dict_set m k (g k)) l (map (keyed g) l0)
    = map (keyed g) (l0 ++ distinct l seen).
Proof.
  induction l as [|k l IH]; intros l0 seen Hseen; simpl.
  - now rewrite app_nil_r.
  - rewrite Hseen. destruct (existsb (str_eqb k) l0) eqn:E.
    + rewrite dict_set_keyed_seen by assumption. now apply IH.
    + rewrite dict_set_keyed_new by assumption.
      rewrite (IH (l0 ++ [k]) (k :: seen)); [now rewrite <- app_assoc|].
      intros k'. rewrite existsb_app_one. simpl. now rewrite Hseen.
Qed.
End Keyed.

Lemma distinct_length (l seen : list str) : (length (distinct l seen) <= length l)%nat.
Proof.
  revert seen; induction l as [|x l IH]; intros seen; simpl; [lia|].
  destruct (existsb (str_eqb x) seen); simpl.
  - specialize (IH seen). lia.
  - specialize (IH (x :: seen)). lia.
Qed.

(** X8.  The dictionary of the resolver lists the resolved identifiers
    without repetition, in the order of their first occurrence in the input;
    it never has more entries than the input has resolved occurrences. *)
Theorem map_ids_to_folders_keys (source_folder : str) (ids_ : list str) (w : world) :
  is_dir (root w) (Path source_folder) = true ->
  exists mapping missing,
    map_ids_to_folders source_folder ids_ w = (Ok (mapping, missing), w)
    /\ map fst mapping
       = distinct (filter (resolves (root w) (Path source_folder)) ids_) []
    /\ (length mapping + length missing <= length ids_)%nat.
Proof.
  intros Hd. destruct w as [fs cs]. cbn [root] in *.
  set (src := Path source_folder) in *.
  do 2 eexists. split.
  { exact (map_ids_to_folders_run fs src cs source_folder ids_ eq_refl Hd). }
  assert (E : fold_left (record_folder src) (filter (resolves fs src) ids_) []
              = map (keyed (joinpath src)) (distinct (filter (resolves fs src) ids_) [])).
  { exact (fold_set_keyed (joinpath src) _ [] [] (fun _ => eq_refl)). }
  rewrite E. split.
  - rewrite map_map. cbn [keyed fst]. apply map_id.
  - rewrite length_map.
    pose proof (distinct_length (filter (resolves fs src) ids_) []).
    pose proof (filter_split_length (resolves fs src) ids_). lia.
Qed.

Lemma map_ids_to_folders_keys_witness :
  let w := World (Dir [ (lit "main", Dir [ (lit "A", Dir []); (lit "B", Dir []) ]) ]) [] in
  let ids_ := [lit "B"; lit "A"; lit "C"; lit "B"] in
  exists mapping missing,
    map_ids_to_folders (lit "main") ids_ w = (Ok (mapping, missing), w)
    /\ map fst mapping
       = distinct (filter (resolves (root w) (Path (lit "main"))) ids_) []
    /\ (length mapping + length missing <= length ids_)%nat.
Proof.
  intros w ids_.
  apply (map_ids_to_folders_keys (lit "main") ids_ w).
  reflexivity.
Defined.

(** ** The lister *)

Lemma str_leb_total (a b : str) : str_leb a b = true \/ str_leb b a = true.
Proof.
  revert b; induction a as [|x a IH]; intros [|y b]; simpl; auto.
  destruct (N.lt_trichotomy x y) as [H | [H | H]].
  - left. apply N.ltb_lt in H. now rewrite H.
  - subst y. rewrite N.ltb_irrefl, N.eqb_refl. simpl. apply IH.
  - right. apply N.ltb_lt in H. now rewrite H.
Qed.

Lemma insert_sorted_perm (x : str) (l : list str) :
  Permutation.Permutation (insert_sorted x l) (x :: l).
Proof.
  induction l as [|y l IH]; simpl; [apply Permutation.Permutation_refl|].
  destruct (str_leb x y); [apply Permutation.Permutation_refl|].
  apply Permutation.perm_trans with (y :: x :: l).
  - now apply Permutation.perm_skip.
  - apply Permutation.perm_swap.
Qed.

Lemma sort_perm (l : list str) : Permutation.Permutation (sort l) l.
Proof.
  induction l as [|x l IH]; [apply Permutation.perm_nil|].
  unfold sort in *. cbn [fold_right].
  apply Permutation.perm_trans with (x :: fold_right insert_sorted [] l).
  - apply insert_sorted_perm.
  - now apply Permutation.perm_skip.
Qed.

Lemma insert_sorted_hd (x y : str) (l : list str) :
  str_le y x -> Sorted.HdRel str_le y l -> Sorted.HdRel str_le y (insert_sorted x l).
Proof.
  intros Hyx Hl. destruct l as [|z l]; simpl.
  - now constructor.
  - destruct (str_leb x z); constructor; auto. now inversion Hl.
Qed.

Lemma insert_sorted_sorted (x : str) (l : list str) :
  Sorted.Sorted str_le l -> Sorted.Sorted str_le (insert_sorted x l).
Proof.
  induction l as [|y l IH]; intros Hs; simpl.
  - repeat constructor.
  - inversion Hs as [|? ? Hl Hhd]; subst.
    destruct (str_leb x y) eqn:E.
    + constructor; [assumption|]. now constructor.
    + constructor; [now apply IH|].
      apply insert_sorted_hd; [|assumption].
      destruct (str_leb_total x y) as [H|H]; [congruence | exact H].
Qed.

Lemma sort_sorted (l : list str) : Sorted.Sorted str_le (sort l).
Proof.
  induction l as [|x l IH]; [constructor|].
  unfold sort in *. cbn [fold_right]. now apply insert_sorted_sorted.
Qed.

Lemma files_under_cons (rec : bool) (nm : str) (ch : node) (es : dict node)
    (at_ : path) :
  files_under rec (Dir ((nm, ch) :: es)) at_
  = match ch with
    | File _ => [at_ ++ [nm]]
    | Dir _ => if rec then files_under rec ch (at_ ++ [nm]) else []
    end ++ files_under rec (Dir es) at_.
Proof. reflexivity. Qed.

Lemma files_under_flat (es : dict node) (at_ : path) (f : path) :
  In f (files_under false (Dir es) at_)
  <-> exists nm data, In (nm, File data) es /\ f = at_ ++ [nm].
Proof.
  induction es as [|[nm ch] es IH].
  - simpl. split; [tauto | intros (? & ? & [] & _)].
  - rewrite files_under_cons, in_app_iff, IH. split.
    + intros [H | (n & d & Hin & ->)].
      * destruct ch as [data|]; [|destruct H].
        destruct H as [<- | []]. exists nm, data. split; [now left | reflexivity].
      * exists n, d. split; [now right | reflexivity].
    + intros (n & d & [Hin | Hin] & ->).
      * injection Hin as -> ->. left. now left.
      * right. eauto.
Qed.

Lemma files_under_flat_incl (es : dict node) (at_ : path) (f : path) :
  In f (files_under false (Dir es) at_) -> In f (files_under true (Dir es) at_).
Proof.
  induction es as [|[nm ch] es IH]; [tauto|].
  rewrite !files_under_cons, !in_app_iff. intros [H | H].
  - left. destruct ch; [assumption | destruct H].
  - right. now apply IH.
Qed.

Lemma node_induction (P : node -> Prop) :
  (forall data, P (File data)) ->
  (forall es, (forall nm ch, In (nm, ch) es -> P ch) -> P (Dir es)) ->
  forall n, P n.
Proof.
  intros HF HD. fix IH 1. intros [data|es]; [apply HF|]. apply HD.
  induction es as [|[k c] es IHes]; intros nm ch Hin; [destruct Hin|].
  destruct Hin as [E | Hin].
  - injection E as _ <-. apply IH.
  - exact (IHes nm ch Hin).
Qed.

Lemma files_under_entry (rec : bool) (es : dict node) (at_ : path) (f : path) :
  In f (files_under rec (Dir es) at_)
  <-> exists nm ch, In (nm, ch) es
        /\ match ch with
           | File _ => f = at_ ++ [nm]
           | Dir _ => rec = true /\ In f (files_under rec ch (at_ ++ [nm]))
           end.
Proof.
  induction es as [|[nm ch] es IH].
  - simpl. split; [tauto | intros (? & ? & [] & _)].
  - rewrite files_under_cons, in_app_iff, IH. split.
    + intros [H | (n & c & Hin & Hc)].
      * exists nm, ch. split; [now left|]. destruct ch as [data|es'].
        -- destruct H as [<- | []]. reflexivity.
        -- destruct rec; [now split | destruct H].
      * exists n, c. split; [now right | exact Hc].
    + intros (n & c & [E | Hin] & Hc).
      * injection E as -> ->. left. destruct c as [data|es'].
        -- now left.
        -- destruct Hc as [-> Hc]. exact Hc.
      * right. eauto.
Qed.

(** The walk of the lister finds the files below the directory, and only
    them. *)
Lemma files_under_below (rec : bool) (n : node) :
  forall at_ f,
    In f (files_under rec n at_)
    <-> exists rel, file_below rec n rel /\ f = at_ ++ rel.
Proof.
  induction n as [data|es IH] using node_induction; intros at_ f.
  - simpl. split; [tauto|]. intros (rel & H & _). inversion H.
  - rewrite files_under_entry. split.
    + intros (nm & ch & Hin & Hc). destruct ch as [data|es'].
      * exists [nm]. split; [eapply file_entry; exact Hin | exact Hc].
      * destruct Hc as [Hrec Hc].
        apply (IH nm (Dir es') Hin) in Hc. destruct Hc as (rel & Hrel & ->).
        exists (nm :: rel). split.
        -- eapply file_deeper; [exact Hrec | exact Hin | exact Hrel].
        -- now rewrite <- app_assoc.
    + intros (rel & Hrel & ->). inversion Hrel as [? nm data Hin | ? es' nm rel' Hrec Hin Hsub]; subst.
      * exists nm, (File data). now split.
      * exists nm, (Dir es'). split; [exact Hin|]. split; [reflexivity|].
        apply (IH nm (Dir es') Hin). exists rel'. split; [exact Hsub|].
        now rewrite <- app_assoc.
Qed.

(** X9.  Listing an existing directory succeeds, leaves the file system as
    it is, and returns paths in ascending order: the paths of the files among
    the entries of the directory and, with recursion, of the files below the
    directories among its entries, at any depth; nothing else is listed. *)
Theorem list_files_in_folder_sorted (folder : path) (rec : bool) (w : world)
    (es : dict node) :
  lookup (root w) folder = Some (Dir es) ->
  exists files,
    list_files_in_folder folder rec w = (Ok files, w)
    /\ Sorted.Sorted str_le files
    /\ forall s, In s files
                 <-> exists rel, file_below rec (Dir es) rel
                                 /\ s = path_str (folder ++ rel).
Proof.
  intros H. eexists. split; [|split].
  - unfold list_files_in_folder. run_gets. rewrite H. reflexivity.
  - apply sort_sorted.
  - intros s. split.
    + intros Hs. apply (Permutation.Permutation_in _ (sort_perm _)) in Hs.
      apply in_map_iff in Hs. destruct Hs as (f & <- & Hf).
      apply files_under_below in Hf. destruct Hf as (rel & Hrel & ->). eauto.
    + intros (rel & Hrel & ->).
      apply (Permutation.Permutation_in _ (Permutation.Permutation_sym (sort_perm _))).
      apply in_map. apply files_under_below. eauto.
Qed.

Lemma list_files_in_folder_sorted_witness :
  let es := [ (lit "b.txt", File (lit "2")); (lit "sub", Dir [(lit "a.txt", File (lit "1"))]);
              (lit "a.txt", File (lit "0")) ] in
  let w := World (Dir [(lit "A", Dir es)]) [] in
  exists files,
    list_files_in_folder [lit "A"] true w = (Ok files, w)
    /\ Sorted.Sorted str_le files
    /\ forall s, In s files
                 <-> exists rel, file_below true (Dir es) rel
                                 /\ s = path_str ([lit "A"] ++ rel).
Proof.
  intros es w.
  apply (list_files_in_folder_sorted [lit "A"] true w es).
  reflexivity.
Defined.

(** That listing: the file two levels down is among the paths, in order. *)
Example list_files_in_folder_deep :
  fst (list_files_in_folder [lit "A"] true
         (World (Dir [(lit "A", Dir [ (lit "b.txt", File (lit "2"));
                                      (lit "sub", Dir [(lit "a.txt", File (lit "1"))]);
                                      (lit "a.txt", File (lit "0")) ])]) []))
  = Ok [lit "/A/a.txt"; lit "/A/b.txt"; lit "/A/sub/a.txt"].
Proof. reflexivity. Qed.

(** X10.  Without recursion the lister returns exactly the immediate
    entries of the directory that are files, and each of them is among what
    it returns with recursion. *)
Theorem list_files_in_folder_flat (folder : path) (w : world) (es : dict node) :
  lookup (root w) folder = Some (Dir es) ->
  exists flat deep,
    list_files_in_folder folder false w = (Ok flat, w)
    /\ list_files_in_folder folder true w = (Ok deep, w)
    /\ (forall s, In s flat <->
          exists nm data, In (nm, File data) es /\ s = path_str (folder ++ [nm]))
    /\ (forall s, In s flat -> In s deep).
Proof.
  intros H. do 2 eexists. split; [|split; [|split]].
  - unfold list_files_in_folder. run_gets. rewrite H. reflexivity.
  - unfold list_files_in_folder. run_gets. rewrite H. reflexivity.
  - intros s. split.
    + intros Hs. apply (Permutation.Permutation_in _ (sort_perm _)) in Hs.
      apply in_map_iff in Hs. destruct Hs as (f & <- & Hf).
      apply files_under_flat in Hf.
      destruct Hf as (nm & data & Hin & ->). eauto.
    + intros (nm & data & Hin & ->).
      apply (Permutation.Permutation_in _ (Permutation.Permutation_sym (sort_perm _))).
      apply in_map. apply files_under_flat. eauto.
  - intros s Hs. apply (Permutation.Permutation_in _ (sort_perm _)) in Hs.
    apply (Permutation.Permutation_in _ (Permutation.Permutation_sym (sort_perm _))).
    apply in_map_iff in Hs. destruct Hs as (f & <- & Hf).
    apply in_map. now apply files_under_flat_incl.
Qed.

Lemma list_files_in_folder_flat_witness :
  let es := [ (lit "b.txt", File (lit "2")); (lit "sub", Dir [(lit "a.txt", File (lit "1"))]) ] in
  let w := World (Dir [(lit "A", Dir es)]) [] in
  exists flat deep,
    list_files_in_folder [lit "A"] false w = (Ok flat, w)
    /\ list_files_in_folder [lit "A"] true w = (Ok deep, w)
    /\ (forall s, In s flat <->
          exists nm data, In (nm, File data) es /\ s = path_str ([lit "A"] ++ [nm]))
    /\ (forall s, In s flat -> In s deep).
Proof.
  intros es w.
  apply (list_files_in_folder_flat [lit "A"] w es).
  reflexivity.
Defined.

(** ** The chunker *)

(** X11.  No chunk is empty and none is longer than the chunk size, and an
    empty list gives no chunk at all: the first and the last element of a
    chunk always exist. *)
Theorem chunkify_chunks_nonempty {A} (items : list A) (chunk_size : Z) :
  0 < chunk_size ->
  exists chunks,
    chunkify items chunk_size = Ok chunks
    /\ Forall (fun c => 1 <= len c <= chunk_size) chunks
    /\ (items = [] -> chunks = []).
Proof.
  intros Hk. rewrite (chunkify_windows items chunk_size Hk).
  eexists. split; [reflexivity|].
  assert (Hn : 0 <= len items) by (unfold len; lia).
  rewrite ceil_div_eq by assumption.
  destruct (ceil_div_bounds _ _ Hn Hk) as (Hm0 & Hup & Hlo & Hex & _).
  split.
  - apply Forall_forall. intros c Hc. apply in_map_iff in Hc.
    destruct Hc as (j & <- & Hj). apply in_seq in Hj.
    assert (Hstart : Z.of_nat j * chunk_size < len items).
    { destruct (len items =? 0) eqn:E0;
        [apply Z.eqb_eq in E0 | apply Z.eqb_neq in E0].
      - rewrite E0 in *. rewrite Z.mod_0_l in Hex by lia.
        specialize (Hex eq_refl).
        assert (ceil_div 0 chunk_size = 0) by nia. lia.
      - assert (Z.of_nat j <= ceil_div (len items) chunk_size - 1) by lia. nia. }
    unfold len in *. rewrite length_window.
    assert (Hjk : Z.of_nat (j * Z.to_nat chunk_size) = Z.of_nat j * chunk_size)
      by (rewrite Nat2Z.inj_mul, Z2Nat.id; lia).
    lia.
  - intros ->. reflexivity.
Qed.

Lemma chunkify_chunks_nonempty_witness :
  exists chunks,
    chunkify [1; 2; 3; 4; 5; 6; 7] 3 = Ok chunks
    /\ Forall (fun c => 1 <= len c <= 3) chunks
    /\ ([1; 2; 3; 4; 5; 6; 7] = [] -> chunks = []).
Proof. apply (chunkify_chunks_nonempty [1; 2; 3; 4; 5; 6; 7] 3). lia. Defined.

(** ** Chunks and their dictionaries *)

Lemma window_incl {A} (items : list A) (k j : nat) (x : A) :
  In x (window items k j) -> In x items.
Proof.
  unfold window. intros H.
  rewrite <- (firstn_skipn (j * k) items). apply in_or_app. right.
  rewrite <- (firstn_skipn k (skipn (j * k) items)). apply in_or_app. now left.
Qed.

Lemma chunkify_incl {A} (items : list A) (k : Z) (chunks : list (list A)) :
  chunkify items k = Ok chunks ->
  forall ch x, In ch chunks -> In x ch -> In x items.
Proof.
  intros H ch x Hch Hx.
  destruct (Z.leb_spec k 0) as [Hk|Hk].
  - unfold chunkify in H. apply Z.leb_le in Hk. rewrite Hk in H. discriminate.
  - rewrite (chunkify_windows items k Hk) in H. injection H as <-.
    apply in_map_iff in Hch. destruct Hch as (j & <- & _).
    exact (window_incl _ _ _ _ Hx).
Qed.

Lemma chunk_mapping_of_defined (mapping : dict path) (ch : list str) :
  (forall x, In x ch -> dict_mem mapping x = true) ->
  forall acc, exists cm, chunk_mapping_of mapping ch acc = Ok cm.
Proof.
  induction ch as [|x ch IH]; intros Hch acc; simpl; [eauto|].
  pose proof (Hch x (or_introl eq_refl)) as Hx. unfold dict_mem in Hx.
  unfold dict_item. destruct (dict_get mapping x); [|discriminate].
  apply IH. intros y Hy. apply Hch. now right.
Qed.

(** X12.  The dictionary of a chunk can always be built in a run: every
    identifier of a chunk cut from the identifiers found in the mapping is a
    key of the mapping, so no lookup fails; and the chunk's dictionary has
    the chunk's distinct identifiers as keys, in order of first
    occurrence. *)
Theorem chunk_lookups_succeed (mapping : dict path) (ids_ : list str)
    (chunk_size : Z) (chunks : list (list str)) :
  chunkify (filter (dict_mem mapping) ids_) chunk_size = Ok chunks ->
  forall ch, In ch chunks ->
    exists cm,
      chunk_mapping_of mapping ch [] = Ok cm
      /\ map fst cm = distinct ch []
      /\ forall id_ p, In (id_, p) cm -> dict_get mapping id_ = Some p.
Proof.
  intros H ch Hch.
  assert (Hin : forall x, In x ch -> dict_mem mapping x = true).
  { intros x Hx. pose proof (chunkify_incl _ _ _ H ch x Hch Hx) as Hx'.
    apply filter_In in Hx'. tauto. }
  destruct (chunk_mapping_of_defined mapping ch Hin []) as [cm Hcm].
  exists cm. split; [assumption|].
  pose proof (chunk_mapping_of_distinct mapping ch [] [] cm (fun _ => eq_refl) Hcm) as E.
  cbn [app map] in E. subst cm. split.
  - rewrite map_map. cbn [entry fst]. apply map_id.
  - intros id_ p Hp. apply in_map_iff in Hp. destruct Hp as (x & Hx & Hxin).
    injection Hx as <- <-.
    assert (Hm : dict_mem mapping x = true).
    { apply Hin. clear - Hxin. revert Hxin. generalize (@nil str).
      induction ch as [|y ch IH]; intros seen; simpl; [tauto|].
      destruct (existsb (str_eqb y) seen); simpl.
      - intros H. right. exact (IH _ H).
      - intros [-> | H]; [now left | right; exact (IH _ H)]. }
    unfold dict_mem in Hm. unfold folder_of.
    now destruct (dict_get mapping x).
Qed.

Lemma chunk_lookups_succeed_witness :
  let mapping := [(lit "A", [lit "main"; lit "A"]); (lit "B", [lit "main"; lit "B"])] in
  exists cm,
    chunk_mapping_of mapping [lit "A"; lit "A"] [] = Ok cm
    /\ map fst cm = distinct [lit "A"; lit "A"] []
    /\ forall id_ p, In (id_, p) cm -> dict_get mapping id_ = Some p.
Proof.
  intros mapping.
  apply (chunk_lookups_succeed mapping [lit "A"; lit "C"; lit "A"; lit "B"] 2
           [[lit "A"; lit "A"]; [lit "B"]]).
  - reflexivity.
  - left. reflexivity.
Defined.

(** ** The savers *)


Lemma parent_last (p : path) : p <> [] -> p = parent p ++ [name p].
Proof. intros H. unfold parent, name. now apply app_removelast_last. Qed.





Lemma is_dir_parent (fs : node) (p : path) :
  is_dir fs p = true -> is_dir fs (parent p) = true.
Proof.
  intros H. destruct p as [|c p]; [exact H|].
  destruct (is_dir_lookup _ _ H) as [es Hes].
  rewrite (parent_last (c :: p)) in Hes by discriminate.
  exact (is_dir_above _ _ _ _ Hes).
Qed.

(** X14.  A directory at the output path makes both savers raise
    [IsADirectoryError]; the file system is as it was. *)
Theorem savers_refuse_directory (chunk : list str) (out_path : path) (w : world) :
  is_dir (root w) out_path = true ->
  (fst (save_chunk_json chunk out_path w) = Raise IsADirectoryError
   /\ root (snd (save_chunk_json chunk out_path w)) = root w)
  /\ (fst (save_chunk_text chunk out_path w) = Raise IsADirectoryError
      /\ root (snd (save_chunk_text chunk out_path w)) = root w).
Proof.
  intros Hd. destruct w as [fs cs]. cbn [root] in *.
  pose proof (makedirs_existing _ _ (is_dir_parent _ _ Hd)) as Hmk.
  assert (H : forall data,
            (mkdir_parents (parent out_path) ;; write_text out_path data) (World fs cs)
            = (Raise IsADirectoryError,
               World fs (cs ++ [Mkdir (parent out_path)] ++ [WriteText out_path data]))).
  { intros data. run_with (mkdir_parents_run _ _ cs _ Hmk).
    unfold write_text, bind, issue, gets, raise; cbn [root calls].
    rewrite Hd. now rewrite <- app_assoc. }
  unfold save_chunk_json, save_chunk_text. rewrite !H. cbn [fst snd root].
  repeat split.
Qed.

Lemma savers_refuse_directory_witness :
  let w := World (Dir [ (lit "chunks", Dir [(lit "chunk_1.json", Dir [])]) ]) [] in
  let out_path := [lit "chunks"; lit "chunk_1.json"] in
  (fst (save_chunk_json [lit "A"] out_path w) = Raise IsADirectoryError
   /\ root (snd (save_chunk_json [lit "A"] out_path w)) = root w)
  /\ (fst (save_chunk_text [lit "A"] out_path w) = Raise IsADirectoryError
      /\ root (snd (save_chunk_text [lit "A"] out_path w)) = root w).
Proof.
  intros w out_path.
  apply (savers_refuse_directory [lit "A"] out_path w).
  reflexivity.
Defined.

(** X15.  In the line-delimited format every identifier that holds no line
    terminator is one line of the file, ended by ["\n"], the last one
    too. *)
Theorem save_chunk_text_lines (chunk : list str) (out_path : path) (w w' : world) :
  save_chunk_text chunk out_path w = (Ok tt, w') ->
  forallb no_newline chunk = true ->
  exists data,
    read_text out_path w' = (Ok data, w')
    /\ file_lines data = map (fun item => item ++ [LF]) chunk.
Proof.
  intros H Hc. unfold save_chunk_text in H.
  apply bind_inv in H. destruct H as ([] & w1 & _ & H).
  apply write_text_written in H.
  eexists. split; [exact (read_text_file _ _ _ H)|].
  exact (proj1 (lines_of_text chunk Hc)).
Qed.

Lemma save_chunk_text_lines_witness :
  let chunk := [lit "A"; lit " b c "] in
  let out_path := [lit "chunk_1.text"] in
  let w' := snd (save_chunk_text chunk out_path (World (Dir []) [])) in
  exists data,
    read_text out_path w' = (Ok data, w')
    /\ file_lines data = map (fun item => item ++ [LF]) chunk.
Proof.
  intros chunk out_path w'.
  apply (save_chunk_text_lines chunk out_path (World (Dir []) []) w').
  - vm_compute. reflexivity.
  - reflexivity.
Defined.

(** ** The transactor: failures and repeated runs *)

Lemma separate_app_l (dest : path) (l1 l2 : list (str * path)) :
  separate dest (l1 ++ l2) -> separate dest l1.
Proof.
  intros (Hnd & Hp & Hap). split; [|split].
  - rewrite map_app in Hnd. exact (NoDup_app_remove_r _ _ Hnd).
  - intros a Ha. apply Hp, in_or_app. now left.
  - intros a b Ha Hb. apply Hap; apply in_or_app; now left.
Qed.

Lemma separate_last_target (dest : path) (l : list (str * path)) (a b : str * path) :
  separate dest (l ++ [a]) -> In b l -> apart (dest ++ [fst b]) (dest ++ [fst a]).
Proof.
  intros (Hnd & _ & _) Hb. apply apart_siblings. intros E.
  rewrite map_app in Hnd. cbn [map] in Hnd.
  apply NoDup_remove_2 in Hnd. rewrite app_nil_r in Hnd.
  apply Hnd. rewrite <- E. now apply in_map.
Qed.

Lemma copytree_missing (fs : node) (cs : list call) (src dst : path) :
  lookup fs src = None ->
  copytree src dst (World fs cs)
  = (Raise FileNotFoundError, World fs (cs ++ [Copytree src dst])).
Proof.
  intros H. unfold copytree, bind, issue, gets, raise; cbn [root calls].
  now rewrite H.
Qed.

Lemma move_missing (fs : node) (cs : list call) (src dst : path) :
  lookup fs src = None -> lookup fs dst = None ->
  move src dst (World fs cs)
  = (Raise FileNotFoundError, World fs (cs ++ [Move src dst])).
Proof.
  intros H Hd. unfold move, bind, issue, gets, raise, is_dir, exists_; cbn [root calls].
  now rewrite Hd, H.
Qed.

(** A turn of the copy loop whose source is missing: the target is cleared
    all the same, then the copy raises. *)
Lemma copy_item_missing (fs : node) (cs : list call) (dest : path) (c : str)
    (src : path) :
  is_dir fs dest = true ->
  lookup fs src = None ->
  apart src (dest ++ [c]) ->
  exists fs1,
    (clear_target (dest ++ [c]) ;; copytree src (dest ++ [c])) (World fs cs)
    = (Raise FileNotFoundError,
       World fs1 (cs ++ clearing_calls (lookup fs (dest ++ [c])) (dest ++ [c])
                     ++ [Copytree src (dest ++ [c])]))
    /\ lookup fs1 (dest ++ [c]) = None
    /\ forall q, apart (dest ++ [c]) q -> lookup fs1 q = lookup fs q.
Proof.
  intros Hdest Hsrc Hap.
  destruct (clear_target_spec fs cs dest c Hdest)
    as (fs1 & fs1' & Hclear & Hfree & _ & Hframe).
  exists fs1. split; [|split]; auto.
  run_with Hclear. rewrite copytree_missing; [now rewrite <- app_assoc|].
  rewrite Hframe by now apply apart_sym. assumption.
Qed.

Lemma move_item_missing (fs : node) (cs : list call) (dest : path) (c : str)
    (src : path) :
  is_dir fs dest = true ->
  lookup fs src = None ->
  apart src (dest ++ [c]) ->
  exists fs1,
    (clear_target (dest ++ [c]) ;; move src (dest ++ [c])) (World fs cs)
    = (Raise FileNotFoundError,
       World fs1 (cs ++ clearing_calls (lookup fs (dest ++ [c])) (dest ++ [c])
                     ++ [Move src (dest ++ [c])]))
    /\ lookup fs1 (dest ++ [c]) = None
    /\ forall q, apart (dest ++ [c]) q -> lookup fs1 q = lookup fs q.
Proof.
  intros Hdest Hsrc Hap.
  destruct (clear_target_spec fs cs dest c Hdest)
    as (fs1 & fs1' & Hclear & Hfree & _ & Hframe).
  exists fs1. split; [|split]; auto.
  run_with Hclear. rewrite move_missing; [now rewrite <- app_assoc| |assumption].
  rewrite Hframe by now apply apart_sym. assumption.
Qed.

(** X16.  No rollback: when the source of an item of the chunk does not
    exist, the copy raises [FileNotFoundError] at that item.  The items
    before it stay copied, the target of the failing item has been cleared
    already and stays empty-handed, and the items after it are not
    touched.  The identifiers are plain and the paths are spelled with proper
    names, so [".."] is no identifier here. *)
Theorem copy_stops_at_missing_source (w : world) (done rest : dict path)
    (id_ : str) (src_path : path) (dest_root : path) (chunk_name : str)
    (fs0 : node) :
  let dest := joinpath dest_root chunk_name in
  makedirs (root w) dest = Some fs0 ->
  proper_paths dest (done ++ [(id_, src_path)]) ->
  separate dest (done ++ [(id_, src_path)]) ->
  (forall a, In a done -> is_dir (root w) (snd a) = true) ->
  lookup (root w) src_path = None ->
  exists w',
    copy_chunk_folders (done ++ (id_, src_path) :: rest) dest_root chunk_name w
    = (Raise FileNotFoundError, w')
    /\ (forall a, In a done ->
          lookup (root w') (joinpath dest (fst a)) = lookup (root w) (snd a))
    /\ lookup (root w') (joinpath dest id_) = None
    /\ calls w' = calls w ++ Mkdir dest
                  :: flat_map (item_calls (root w) dest Copytree) done
                  ++ item_calls (root w) dest Copytree (id_, src_path).
Proof.
  intros dest Hmk _ Hsep Hdirs Hmiss. destruct w as [fs cs]. cbn [root calls] in *.
  pose proof (chunk_dir_frame fs fs0 dest _ Hmk Hsep) as Hfr.
  pose proof Hsep as (Hnd & Hplain & Hap).
  assert (Hbad : In (id_, src_path) (done ++ [(id_, src_path)]))
    by (apply in_or_app; right; now left).
  assert (Hin : forall a, In a done -> In a (done ++ [(id_, src_path)]))
    by (intros a Ha; apply in_or_app; now left).
  destruct (copy_loop dest done fs0 (cs ++ [Mkdir dest]) (makedirs_is_dir _ _ _ Hmk)
              (separate_app_l _ _ _ Hsep))
    as (fs1 & Hrun & Hdest1 & Hitems & Hframe1).
  { intros a Ha. unfold is_dir. rewrite (proj1 (Hfr a (Hin a Ha))). exact (Hdirs a Ha). }
  assert (Hmiss1 : lookup fs1 src_path = None).
  { rewrite Hframe1.
    - pose proof (proj1 (Hfr _ Hbad)) as E. cbn [snd] in E.
      rewrite E. exact Hmiss.
    - intros a Ha. apply apart_sym. exact (Hap _ _ Hbad (Hin a Ha)). }
  destruct (copy_item_missing fs1
              (cs ++ [Mkdir dest] ++ flat_map (item_calls fs0 dest Copytree) done)
              dest id_ src_path Hdest1 Hmiss1 (Hap _ _ Hbad Hbad))
    as (fs2 & Hfail & Hgone & Hframe2).
  assert (Hcalls : forall a, In a (done ++ [(id_, src_path)]) ->
                     item_calls fs0 dest Copytree a = item_calls fs dest Copytree a).
  { intros a Ha. unfold item_calls.
    rewrite (joinpath_plain dest (fst a) (Hplain a Ha)).
    now rewrite (proj2 (Hfr a Ha)). }
  assert (Ht1 : lookup fs1 (dest ++ [id_]) = lookup fs (dest ++ [id_])).
  { rewrite Hframe1; [exact (proj2 (Hfr _ Hbad))|]. cbn [fst].
    intros a Ha. exact (separate_last_target dest done (id_, src_path) a Hsep Ha). }
  eexists. split; [|split; [|split]].
  - unfold copy_chunk_folders, dict_items. fold dest.
    run_with (mkdir_parents_run _ _ cs _ Hmk).
    apply (for_each_raise _ done rest (id_, src_path) _ _ _ _ Hrun).
    cbn [fst snd]. rewrite (joinpath_plain dest id_ (Hplain _ Hbad)).
    rewrite <- app_assoc. exact Hfail.
  - cbn [root]. intros a Ha.
    rewrite (joinpath_plain dest (fst a) (Hplain a (Hin a Ha))).
    rewrite Hframe2.
    + rewrite (proj1 (Hitems a Ha)). exact (proj1 (Hfr a (Hin a Ha))).
    + apply apart_sym.
      exact (separate_last_target dest done (id_, src_path) a Hsep Ha).
  - cbn [root]. now rewrite (joinpath_plain dest id_ (Hplain _ Hbad)).
  - cbn [calls]. rewrite <- !app_assoc. cbn [app]. do 2 f_equal.
    rewrite (flat_map_ext_in' _ _ done (fun a Ha => Hcalls a (Hin a Ha))).
    f_equal. unfold item_calls. cbn [fst snd].
    rewrite (joinpath_plain dest id_ (Hplain _ Hbad)). now rewrite Ht1.
Qed.

Lemma copy_stops_at_missing_source_witness :
  let w := World (Dir [ (lit "main", Dir [ (lit "A", Dir [(lit "a", File (lit "1"))]);
                                           (lit "C", Dir []) ]);
                        (lit "out", Dir [ (lit "c1", Dir [ (lit "B", Dir [(lit "old", File (lit "x"))]) ]) ]) ]) [] in
  let done := [(lit "A", [lit "main"; lit "A"])] in
  let rest := [(lit "C", [lit "main"; lit "C"])] in
  let dest := joinpath [lit "out"] (lit "c1") in
  exists w',
    copy_chunk_folders (done ++ (lit "B", [lit "main"; lit "B"]) :: rest) [lit "out"] (lit "c1") w
    = (Raise FileNotFoundError, w')
    /\ (forall a, In a done ->
          lookup (root w') (joinpath dest (fst a)) = lookup (root w) (snd a))
    /\ lookup (root w') (joinpath dest (lit "B")) = None
    /\ calls w' = calls w ++ Mkdir dest
                  :: flat_map (item_calls (root w) dest Copytree) done
                  ++ item_calls (root w) dest Copytree (lit "B", [lit "main"; lit "B"]).
Proof.
  intros w done rest dest.
  apply (copy_stops_at_missing_source w done rest (lit "B") [lit "main"; lit "B"]
           [lit "out"] (lit "c1") (root w)).
  - reflexivity.
  - split; [reflexivity|]. intros a [<-|[<-|[]]]; reflexivity.
  - split; [|split].
    + repeat constructor; simpl; intuition discriminate.
    + intros a [<-|[<-|[]]]; repeat split; reflexivity.
    + intros a b [<-|[<-|[]]] [<-|[<-|[]]]; split; reflexivity.
  - intros a [<-|[]]. reflexivity.
  - reflexivity.
Defined.

(** X17.  Moving a chunk a second time destroys what the first run moved:
    the first run succeeds; the second clears the target of the first item,
    then raises [FileNotFoundError] because the source is gone.  The tree of
    that item is then neither at its source nor at its target.  The
    identifiers are plain and the paths are spelled with proper names. *)
Theorem move_twice_loses_tree (w : world) (id_ : str) (src_path : path)
    (rest : dict path) (dest_root : path) (chunk_name : str) (fs0 : node) :
  let dest := joinpath dest_root chunk_name in
  let cm := (id_, src_path) :: rest in
  makedirs (root w) dest = Some fs0 ->
  proper_paths dest cm ->
  separate dest cm ->
  sources_apart cm ->
  (forall a, In a cm -> is_dir (root w) (snd a) = true) ->
  exists w1 w2,
    move_chunk_folders cm dest_root chunk_name w = (Ok tt, w1)
    /\ lookup (root w1) (joinpath dest id_) = lookup (root w) src_path
    /\ move_chunk_folders cm dest_root chunk_name w1 = (Raise FileNotFoundError, w2)
    /\ lookup (root w2) (joinpath dest id_) = None
    /\ lookup (root w2) src_path = None.
Proof.
  intros dest cm Hmk _ Hsep Hsrcs Hdirs. destruct w as [fs cs]. cbn [root] in *.
  pose proof (chunk_dir_frame fs fs0 dest cm Hmk Hsep) as Hfr.
  pose proof Hsep as (Hnd & Hplain & Hap).
  assert (Hhd : In (id_, src_path) cm) by now left.
  destruct (move_loop dest cm fs0 (cs ++ [Mkdir dest]) (makedirs_is_dir _ _ _ Hmk)
              Hsep Hsrcs)
    as (fs1 & Hrun & Hdest1 & Hitems & _).
  { intros a Ha. unfold is_dir. rewrite (proj1 (Hfr a Ha)). exact (Hdirs a Ha). }
  destruct (Hitems _ Hhd) as [Ht1 Hs1]. cbn [fst snd] in Ht1, Hs1.
  pose proof (proj1 (Hfr _ Hhd)) as Hs0. cbn [snd] in Hs0.
  pose proof (Hap _ _ Hhd Hhd) as Hself. cbn [fst snd] in Hself.
  set (cs1 := (cs ++ [Mkdir dest]) ++ flat_map (item_calls fs0 dest Move) cm) in *.
  destruct (move_item_missing fs1 (cs1 ++ [Mkdir dest]) dest id_ src_path
              Hdest1 Hs1 Hself)
    as (fs2 & Hfail & Hgone & Hframe2).
  do 2 eexists. split; [|split; [|split; [|split]]].
  - unfold move_chunk_folders, dict_items. fold dest.
    run_with (mkdir_parents_run _ _ cs _ Hmk). exact Hrun.
  - cbn [root]. rewrite (joinpath_plain dest id_ (Hplain _ Hhd)).
    now rewrite Ht1, Hs0.
  - unfold move_chunk_folders, dict_items. fold dest.
    run_with (mkdir_parents_run _ _ cs1 _ (makedirs_existing _ _ Hdest1)).
    unfold cm. cbn [for_each fst snd].
    rewrite (joinpath_plain dest id_ (Hplain _ Hhd)).
    apply bind_raise. exact Hfail.
  - cbn [root]. now rewrite (joinpath_plain dest id_ (Hplain _ Hhd)).
  - cbn [root]. rewrite Hframe2; [exact Hs1 | now apply apart_sym].
Qed.

Lemma move_twice_loses_tree_witness :
  let w := World (Dir [ (lit "main", Dir [ (lit "A", Dir [(lit "a", File (lit "1"))]) ]) ]) [] in
  let dest := joinpath [lit "out"] (lit "c1") in
  let cm := [(lit "A", [lit "main"; lit "A"])] in
  exists w1 w2,
    move_chunk_folders cm [lit "out"] (lit "c1") w = (Ok tt, w1)
    /\ lookup (root w1) (joinpath dest (lit "A")) = lookup (root w) [lit "main"; lit "A"]
    /\ move_chunk_folders cm [lit "out"] (lit "c1") w1 = (Raise FileNotFoundError, w2)
    /\ lookup (root w2) (joinpath dest (lit "A")) = None
    /\ lookup (root w2) [lit "main"; lit "A"] = None.
Proof.
  intros w dest cm.
  apply (move_twice_loses_tree w (lit "A") [lit "main"; lit "A"] [] [lit "out"] (lit "c1")
           (Dir [ (lit "main", Dir [ (lit "A", Dir [(lit "a", File (lit "1"))]) ]);
                  (lit "out", Dir [ (lit "c1", Dir []) ]) ])).
  - reflexivity.
  - split; [reflexivity|]. intros a [<-|[]]; reflexivity.
  - split; [|split].
    + repeat constructor; simpl; intuition.
    + intros a [<-|[]]; repeat split; reflexivity.
    + intros a b [<-|[]] [<-|[]]; split; reflexivity.
  - repeat constructor.
  - intros a [<-|[]]. reflexivity.
Defined.

(** X18.  Copying a chunk a second time succeeds and changes nothing that
    the first run set up: every target still holds the tree of its source
    and every source is as it was.  The identifiers are plain and the paths
    are spelled with proper names. *)
Theorem copy_twice_same (w : world) (cm : dict path) (dest_root : path)
    (chunk_name : str) (fs0 : node) :
  let dest := joinpath dest_root chunk_name in
  makedirs (root w) dest = Some fs0 ->
  proper_paths dest cm ->
  separate dest cm ->
  (forall a, In a cm -> is_dir (root w) (snd a) = true) ->
  exists w1 w2,
    copy_chunk_folders cm dest_root chunk_name w = (Ok tt, w1)
    /\ copy_chunk_folders cm dest_root chunk_name w1 = (Ok tt, w2)
    /\ forall a, In a cm ->
         lookup (root w2) (joinpath dest (fst a)) = lookup (root w1) (joinpath dest (fst a))
         /\ lookup (root w2) (joinpath dest (fst a)) = lookup (root w) (snd a)
         /\ lookup (root w2) (snd a) = lookup (root w) (snd a).
Proof.
  intros dest Hmk _ Hsep Hdirs. destruct w as [fs cs]. cbn [root] in *.
  pose proof (chunk_dir_frame fs fs0 dest cm Hmk Hsep) as Hfr.
  pose proof Hsep as (_ & Hplain & _).
  destruct (copy_loop dest cm fs0 (cs ++ [Mkdir dest]) (makedirs_is_dir _ _ _ Hmk) Hsep)
    as (fs1 & Hrun1 & Hdest1 & Hitems1 & _).
  { intros a Ha. unfold is_dir. rewrite (proj1 (Hfr a Ha)). exact (Hdirs a Ha). }
  set (cs1 := (cs ++ [Mkdir dest]) ++ flat_map (item_calls fs0 dest Copytree) cm) in *.
  destruct (copy_loop dest cm fs1 (cs1 ++ [Mkdir dest]) Hdest1 Hsep)
    as (fs2 & Hrun2 & _ & Hitems2 & _).
  { intros a Ha. unfold is_dir.
    rewrite (proj2 (Hitems1 a Ha)), (proj1 (Hfr a Ha)). exact (Hdirs a Ha). }
  do 2 eexists. split; [|split].
  - unfold copy_chunk_folders, dict_items. fold dest.
    run_with (mkdir_parents_run _ _ cs _ Hmk). exact Hrun1.
  - unfold copy_chunk_folders, dict_items. fold dest.
    run_with (mkdir_parents_run _ _ cs1 _ (makedirs_existing _ _ Hdest1)). exact Hrun2.
  - cbn [root]. intros a Ha.
    rewrite (joinpath_plain dest (fst a) (Hplain a Ha)).
    destruct (Hitems1 a Ha) as [T1 S1]. destruct (Hitems2 a Ha) as [T2 S2].
    destruct (Hfr a Ha) as [S0 _].
    rewrite T2, S2, T1, S1, S0. repeat split.
Qed.

Lemma copy_twice_same_witness :
  let w := World (Dir [ (lit "main", Dir [ (lit "A", Dir [(lit "a", File (lit "1"))]);
                                           (lit "B", Dir []) ]) ]) [] in
  let dest := joinpath [lit "out"] (lit "c1") in
  let cm := [(lit "A", [lit "main"; lit "A"]); (lit "B", [lit "main"; lit "B"])] in
  exists w1 w2,
    copy_chunk_folders cm [lit "out"] (lit "c1") w = (Ok tt, w1)
    /\ copy_chunk_folders cm [lit "out"] (lit "c1") w1 = (Ok tt, w2)
    /\ forall a, In a cm ->
         lookup (root w2) (joinpath dest (fst a)) = lookup (root w1) (joinpath dest (fst a))
         /\ lookup (root w2) (joinpath dest (fst a)) = lookup (root w) (snd a)
         /\ lookup (root w2) (snd a) = lookup (root w) (snd a).
Proof.
  intros w dest cm.
  apply (copy_twice_same w cm [lit "out"] (lit "c1")
           (Dir [ (lit "main", Dir [ (lit "A", Dir [(lit "a", File (lit "1"))]);
                                     (lit "B", Dir []) ]);
                  (lit "out", Dir [ (lit "c1", Dir []) ]) ])).
  - reflexivity.
  - split; [reflexivity|]. intros a [<-|[<-|[]]]; reflexivity.
  - split; [|split].
    + repeat constructor; simpl; intuition discriminate.
    + intros a [<-|[<-|[]]]; repeat split; reflexivity.
    + intros a b [<-|[<-|[]]] [<-|[<-|[]]]; split; reflexivity.
  - intros a [<-|[<-|[]]]; reflexivity.
Defined.

(** ** The run: what it leaves alone *)

Lemma bind_readonly {A B} (m : M A) (k : A -> M B) (w : world) :
  snd (m w) = w -> (forall a, snd (k a w) = w) -> snd (bind m k w) = w.
Proof.
  intros Hm Hk. unfold bind. destruct (m w) as [[a|e] w1]; cbn [snd] in *; subst.
  - apply Hk.
  - reflexivity.
Qed.

Lemma list_files_in_folder_readonly (folder : path) (rec : bool) (w : world) :
  snd (list_files_in_folder folder rec w) = w.
Proof.
  unfold list_files_in_folder, bind, gets, ret, raise; cbn [root].
  destruct (lookup (root w) folder) as [[|]|]; destruct rec; reflexivity.
Qed.

Lemma list_all_readonly (mapping : dict path) (rec : bool) (l : list str) :
  forall acc w, snd (list_all mapping rec l acc w) = w.
Proof.
  induction l as [|id_ l IH]; intros acc w; [reflexivity|].
  cbn [list_all]. apply bind_readonly.
  - unfold lift. reflexivity.
  - intros folder. apply bind_readonly.
    + apply list_files_in_folder_readonly.
    + intros files. apply IH.
Qed.

(** X19.  A dry run touches nothing: with print-only, or with neither
    manifests nor processing asked for, the file system and the calls issued
    are the same after the run as before, however the run ends. *)
Theorem main_dry_run (csv_rows : str -> list (list str)) (args : args_t) (w : world) :
  print_only args = true
  \/ (save_chunks args = false /\ process_chunks args = ProcessNone) ->
  snd (main csv_rows args w) = w.
Proof.
  intros Hdry.
  destruct (main_load_cases csv_rows args w)
    as [(e & _ & ->) | [(_ & ->) | (ids_ & Hload & Hne)]]; try reflexivity.
  rewrite (main_unfold csv_rows args w ids_ Hload Hne).
  assert (Hsave : forall chunks w0, save_chunk_files args chunks w0 = (Ok tt, w0)).
  { intros chunks w0. unfold save_chunk_files.
    destruct Hdry as [-> | [-> _]]; [now rewrite andb_false_r | reflexivity]. }
  assert (Hproc : forall mapping chunks w0,
            process_chunk_folders args mapping chunks w0 = (Ok tt, w0)).
  { intros mapping chunks w0. unfold process_chunk_folders.
    destruct Hdry as [-> | [_ ->]]; [|reflexivity].
    now destruct (process_chunks args). }
  assert (Hfull : forall dm w0, save_full_mapping args dm w0 = (Ok tt, w0)).
  { intros dm w0. unfold save_full_mapping.
    destruct Hdry as [-> | [-> _]]; [now rewrite andb_false_r | reflexivity]. }
  apply bind_readonly; [apply map_ids_to_folders_readonly|]. intros mm.
  apply bind_readonly; [apply list_all_readonly|]. intros dm.
  apply bind_readonly; [|intros; now rewrite Hfull].
  destruct (negb _ && _); [|reflexivity].
  apply bind_readonly; [reflexivity|]. intros chunks.
  apply bind_readonly; [now rewrite Hsave|]. intros _. now rewrite Hproc.
Qed.

Lemma main_dry_run_witness :
  let w := World (Dir [ (lit "ids.txt", File [65; 10]%N);
                        (lit "main", Dir [ (lit "A", Dir []) ]) ]) [] in
  let args := Args (lit "main") (lit "ids.txt") None true 1 true FormatJson
                   (lit "chunk_") (lit "chunks") ProcessMove (Some (lit "out")) true in
  snd (main (fun _ => []) args w) = w.
Proof.
  intros w args. apply (main_dry_run (fun _ => []) args w).
  left. reflexivity.
Defined.

Lemma bind_readonly_cases {A B} (m : M A) (k : A -> M B) (w : world) :
  snd (m w) = w ->
  snd (bind m k w) = w \/ exists a, snd (bind m k w) = snd (k a w).
Proof.
  intros Hm. unfold bind. destruct (m w) as [[a|e] w1]; cbn [snd] in *; subst.
  - right. now exists a.
  - now left.
Qed.

(** The calls of the aggregate step: none, or the creation of the manifest
    directory and then, when that succeeded, the one write. *)
Lemma save_full_mapping_calls (args : args_t) (dm : dict (list str)) (w : world) :
  (exists cs,
     calls (snd (save_full_mapping args dm w)) = calls w ++ cs
     /\ (cs = [] \/ cs = [Mkdir (Path (chunks_dir args))]
         \/ exists data,
              cs = [Mkdir (Path (chunks_dir args));
                    WriteText (joinpath (Path (chunks_dir args)) (lit "all_mapping.json"))
                              data]))
  /\ (chunk_size args <> 0 -> snd (save_full_mapping args dm w) = w).
Proof.
  unfold save_full_mapping. split.
  - destruct (save_chunks args && (chunk_size args =? 0) && negb (print_only args)).
    + pose proof (mkdir_parents_calls (Path (chunks_dir args)) w) as Hmk.
      unfold bind.
      destruct (mkdir_parents (Path (chunks_dir args)) w) as [[[]|e] w1];
        cbn [snd] in *.
      * eexists. split; [|right; right; eexists; reflexivity].
        rewrite write_text_calls, Hmk, <- app_assoc. reflexivity.
      * eexists. split; [exact Hmk | right; left; reflexivity].
    + exists []. split; [now rewrite app_nil_r | now left].
  - intros Hz. apply Z.eqb_neq in Hz. rewrite Hz.
    now rewrite andb_false_r.
Qed.

(** X20.  Without a positive chunk size the processing mode is ignored:
    whatever the other arguments, the run issues at most the creation of the
    manifest directory followed by the write of [all_mapping.json], and no
    copy, move or removal; with a negative size it issues nothing at all and
    leaves the file system as it was. *)
Theorem main_without_chunking (csv_rows : str -> list (list str)) (args : args_t)
    (w : world) :
  chunk_size args <= 0 ->
  (exists cs,
     calls (snd (main csv_rows args w)) = calls w ++ cs
     /\ (cs = [] \/ cs = [Mkdir (Path (chunks_dir args))]
         \/ exists data,
              cs = [Mkdir (Path (chunks_dir args));
                    WriteText (joinpath (Path (chunks_dir args)) (lit "all_mapping.json"))
                              data]))
  /\ (chunk_size args < 0 -> snd (main csv_rows args w) = w).
Proof.
  intros Hsize.
  assert (Hnone : (exists cs, calls w = calls w ++ cs
                     /\ (cs = [] \/ cs = [Mkdir (Path (chunks_dir args))]
                         \/ exists data,
                              cs = [Mkdir (Path (chunks_dir args));
                                    WriteText (joinpath (Path (chunks_dir args))
                                                        (lit "all_mapping.json")) data]))).
  { exists []. split; [now rewrite app_nil_r | now left]. }
  destruct (main_load_cases csv_rows args w)
    as [(e & _ & ->) | [(_ & ->) | (ids_ & Hload & Hne)]];
    cbn [snd]; [split; [exact Hnone | reflexivity] ..|].
  rewrite (main_unfold csv_rows args w ids_ Hload Hne).
  replace (negb (chunk_size args =? 0) && (chunk_size args >? 0)) with false.
  2:{ symmetry. apply andb_false_iff. right.
      destruct (chunk_size args >? 0) eqn:E; [|reflexivity].
      apply Z.gtb_lt in E. lia. }
  destruct (bind_readonly_cases (map_ids_to_folders (source args) ids_)
              (fun mm =>
                 detailed_map <- list_all (fst mm) (recursive args)
                                   (filter (dict_mem (fst mm)) ids_) [] ;;
                 ret tt ;; save_full_mapping args detailed_map) w
              (map_ids_to_folders_readonly _ _ _)) as [-> | [mm ->]];
    [split; [exact Hnone | reflexivity]|].
  destruct (bind_readonly_cases
              (list_all (fst mm) (recursive args) (filter (dict_mem (fst mm)) ids_) [])
              (fun detailed_map => ret tt ;; save_full_mapping args detailed_map) w
              (list_all_readonly _ _ _ _ _)) as [-> | [dm ->]];
    [split; [exact Hnone | reflexivity]|].
  change ((ret tt ;; save_full_mapping args dm) w) with (save_full_mapping args dm w).
  destruct (save_full_mapping_calls args dm w) as [Hc Hn].
  split; [exact Hc|]. intros Hneg. apply Hn. lia.
Qed.

Lemma main_without_chunking_witness :
  let w := World (Dir [ (lit "ids.txt", File [65; 10]%N);
                        (lit "main", Dir [ (lit "A", Dir []) ]) ]) [] in
  let args := Args (lit "main") (lit "ids.txt") None true (-1) true FormatJson
                   (lit "chunk_") (lit "chunks") ProcessMove (Some (lit "out")) false in
  (exists cs,
     calls (snd (main (fun _ => []) args w)) = calls w ++ cs
     /\ (cs = [] \/ cs = [Mkdir (Path (chunks_dir args))]
         \/ exists data,
              cs = [Mkdir (Path (chunks_dir args));
                    WriteText (joinpath (Path (chunks_dir args)) (lit "all_mapping.json"))
                              data]))
  /\ (chunk_size args < 0 -> snd (main (fun _ => []) args w) = w).
Proof.
  intros w args. apply (main_without_chunking (fun _ => []) args w).
  simpl. lia.
Defined.

(** X21.  The run ends early, with the file system and the calls as they
    were: with [FileNotFoundError] when the identifier file does not exist;
    with success, and without looking at the source folder, when no
    identifier is loaded; with [NotADirectoryError] when identifiers are
    loaded and the source is not a directory. *)
Theorem main_early_exits (csv_rows : str -> list (list str)) (args : args_t)
    (w : world) :
  (exists_ (root w) (Path (ids args)) = false ->
   main csv_rows args w = (Raise FileNotFoundError, w))
  /\ (fst (load_ids csv_rows (ids args) (csv_column args) w) = Ok [] ->
      main csv_rows args w = (Ok tt, w))
  /\ (forall ids_,
        fst (load_ids csv_rows (ids args) (csv_column args) w) = Ok ids_ ->
        ids_ <> [] ->
        is_dir (root w) (Path (source args)) = false ->
        main csv_rows args w = (Raise NotADirectoryError, w)).
Proof.
  split; [|split].
  - intros H.
    assert (E : load_ids csv_rows (ids args) (csv_column args) w
                = (Raise FileNotFoundError, w)).
    { unfold load_ids. run_gets. now rewrite H. }
    unfold main. now rewrite (bind_raise _ _ _ _ _ E).
  - intros H.
    destruct (main_load_cases csv_rows args w)
      as [(e & E & _) | [(_ & Hm) | (ids_ & E & Hne)]]; [congruence | exact Hm |].
    rewrite H in E. injection E as <-. congruence.
  - intros ids_ Hload Hne Hsrc.
    rewrite (main_unfold csv_rows args w ids_ Hload Hne).
    assert (E : map_ids_to_folders (source args) ids_ w = (Raise NotADirectoryError, w)).
    { unfold map_ids_to_folders. run_gets. now rewrite Hsrc, orb_true_r. }
    now rewrite (bind_raise _ _ _ _ _ E).
Qed.

Lemma main_early_exits_witness :
  let w := World (Dir [ (lit "ids.txt", File [65; 10]%N);
                        (lit "blank.txt", File [32; 10; 10]%N) ]) [] in
  let args f := Args (lit "main") (lit f) None true 1 true FormatJson
                     (lit "chunk_") (lit "chunks") ProcessCopy (Some (lit "out")) false in
  main (fun _ => []) (args "none.txt"%string) w = (Raise FileNotFoundError, w)
  /\ main (fun _ => []) (args "blank.txt"%string) w = (Ok tt, w)
  /\ main (fun _ => []) (args "ids.txt"%string) w = (Raise NotADirectoryError, w).
Proof.
  intros w args. split; [|split].
  - apply (proj1 (main_early_exits (fun _ => []) (args "none.txt"%string) w)).
    reflexivity.
  - apply (proj1 (proj2 (main_early_exits (fun _ => []) (args "blank.txt"%string) w))).
    reflexivity.
  - apply (proj2 (proj2 (main_early_exits (fun _ => []) (args "ids.txt"%string) w))
             [[65%N]]); [reflexivity | discriminate | reflexivity].
Defined.

(** ** The aggregate file *)





(** ** Chunk names *)

Lemma lit_inj (s t : string) : lit s = lit t -> s = t.
Proof.
  unfold lit. intros H.
  rewrite <- (string_of_list_ascii_of_string s), <- (string_of_list_ascii_of_string t).
  f_equal. revert H.
  generalize (list_ascii_of_string s) (list_ascii_of_string t).
  induction l as [|a l IH]; intros [|b l']; simpl; try discriminate; [reflexivity|].
  intros [= Hab Hl]. f_equal; [|now apply IH].
  rewrite <- (ascii_N_embedding a), <- (ascii_N_embedding b). now rewrite Hab.
Qed.

Lemma to_int_not_nil (i : Z) :
  Z.to_int i <> Decimal.Pos Decimal.Nil /\ Z.to_int i <> Decimal.Neg Decimal.Nil.
Proof.
  split; intros H; pose proof (f_equal Z.of_int H) as E;
    rewrite DecimalZ.of_to in E; subst i; vm_compute in H; discriminate.
Qed.

Lemma str_of_int_inj (i j : Z) : str_of_int i = str_of_int j -> i = j.
Proof.
  unfold str_of_int. intros H. apply lit_inj in H.
  apply DecimalZ.to_int_inj.
  apply (f_equal NilZero.int_of_string) in H.
  destruct (to_int_not_nil i) as [Hi1 Hi2], (to_int_not_nil j) as [Hj1 Hj2].
  rewrite !NilZero.isi in H by assumption. now injection H.
Qed.

Lemma map_fst_enumerate {A B} (l1 : list A) :
  forall l2 : list B, length l1 = length l2 -> map fst (combine l1 l2) = l1.
Proof.
  induction l1 as [|a l1 IH]; intros [|b l2]; simpl; try discriminate; [reflexivity|].
  intros [= H]. now rewrite IH.
Qed.

(** X23.  Chunk names tell chunks apart: two indices give the same name
    only when they are equal, so the names of the chunks of a run are
    pairwise distinct, whatever the prefix. *)
Theorem chunk_names_distinct (args : args_t) :
  (forall i j, chunk_name_of args i = chunk_name_of args j -> i = j)
  /\ forall (chunks : list (list str)),
       NoDup (map (fun ich => chunk_name_of args (fst ich)) (enumerate1 chunks)).
Proof.
  assert (Hinj : forall i j, chunk_name_of args i = chunk_name_of args j -> i = j).
  { intros i j H. unfold chunk_name_of in H.
    apply app_inv_head in H. now apply str_of_int_inj. }
  split; [exact Hinj|]. intros chunks.
  rewrite <- (map_map fst (chunk_name_of args)).
  unfold enumerate1. rewrite map_fst_enumerate by now rewrite length_map, length_seq.
  rewrite map_map.
  apply NoDup_map_NoDup_ForallPairs; [|apply seq_NoDup].
  intros a b _ _ H. apply Hinj in H. now apply Nat2Z.inj.
Qed.

Lemma chunk_names_distinct_witness :
  let args := Args (lit "main") (lit "ids.txt") None true 2 true FormatJson
                   (lit "chunk_") (lit "chunks") ProcessNone None false in
  3 = 3
  /\ NoDup (map (fun ich => chunk_name_of args (fst ich))
                (enumerate1 [[lit "A"; lit "B"]; [lit "C"]])).
Proof.
  intros args. split.
  - apply (proj1 (chunk_names_distinct args) 3 3). reflexivity.
  - apply (proj2 (chunk_names_distinct args)).
Defined.

(** ** One manifest for each chunk *)

Lemma for_each_calls {A} (body : A -> M unit) (f : A -> list call) :
  (forall x w w', body x w = (Ok tt, w') -> calls w' = calls w ++ f x) ->
  forall xs w w',
    for_each xs body w = (Ok tt, w') -> calls w' = calls w ++ flat_map f xs.
Proof.
  intros Hb. induction xs as [|x xs IH]; intros w w' H; simpl in *.
  - injection H as <-. now rewrite app_nil_r.
  - apply bind_inv in H. destruct H as ([] & w1 & H1 & H2).
    rewrite (IH _ _ H2), (Hb _ _ _ H1). now rewrite <- app_assoc.
Qed.

Lemma save_chunk_file_calls (args : args_t) (ich : Z * list str) (w w' : world) :
  save_chunk_file args (Path (chunks_dir args)) ich w = (Ok tt, w') ->
  calls w' = calls w ++ manifest_calls args ich.
Proof.
  unfold save_chunk_file, manifest_calls, manifest_data, save_chunk_json, save_chunk_text.
  fold (manifest_path args (fst ich)).
  destruct (chunk_format args); intros H;
    apply bind_inv in H; destruct H as ([] & w1 & H1 & H2);
    apply (f_equal snd) in H1, H2; cbn [snd] in H1, H2; subst w' w1;
    rewrite write_text_calls, mkdir_parents_calls, <- app_assoc; reflexivity.
Qed.

(** X24.  When manifests are saved and the saving succeeds, the calls
    issued are the creation of the manifest directory and then, for each
    chunk in order, the creation of the parent of its file and one write: to
    the file named by the prefix, the index counted from 1 and the format,
    with the items of that chunk as content. *)
Theorem save_chunk_files_one_per_chunk (args : args_t) (chunks : list (list str))
    (w w' : world) :
  save_chunks args = true ->
  print_only args = false ->
  save_chunk_files args chunks w = (Ok tt, w') ->
  calls w'
  = calls w ++ Mkdir (Path (chunks_dir args))
               :: flat_map (manifest_calls args) (enumerate1 chunks).
Proof.
  intros Hsave Hpo H. unfold save_chunk_files in H. rewrite Hsave, Hpo in H.
  cbn [negb andb] in H.
  apply bind_inv in H. destruct H as ([] & w1 & H1 & H2).
  rewrite (for_each_calls _ (manifest_calls args) (save_chunk_file_calls args) _ _ _ H2).
  apply (f_equal snd) in H1. cbn [snd] in H1. subst w1.
  rewrite mkdir_parents_calls, <- app_assoc. reflexivity.
Qed.

Lemma save_chunk_files_one_per_chunk_witness :
  let args := Args (lit "main") (lit "ids.txt") None true 2 true FormatText
                   (lit "chunk_") (lit "chunks") ProcessNone None false in
  let chunks := [[lit "A"; lit "B"]; [lit "C"]] in
  let w := World (Dir []) [] in
  calls (snd (save_chunk_files args chunks w))
  = calls w ++ Mkdir (Path (chunks_dir args))
               :: flat_map (manifest_calls args) (enumerate1 chunks).
Proof.
  intros args chunks w.
  apply (save_chunk_files_one_per_chunk args chunks w
           (snd (save_chunk_files args chunks w)));
    reflexivity.
Defined.
